(** * Verification of the ProjectQ simulator backends of qiskit-addon-projectq

    A shallow embedding of
      - [qiskit_addon_projectq/qasm_simulator_projectq.py]
        ([QasmSimulatorProjectQ], [_get_register_specs], [_format_result]) and
      - [qiskit_addon_projectq/statevector_simulator_projectq.py]
        ([StatevectorSimulatorProjectQ])
    followed by the properties of the natural-language specification that
    were checked against them.

    Conventions of the embedding.
      - Python [int] is [Z]; counts and indices that the Qobj format keeps
        non-negative (qubit and classical-bit indices, register sizes) are
        [nat].  The hexadecimal strings of a conditional clause are kept as
        the integers [int(_, 16)] reads from them.
      - A Python [dict] is an insertion-ordered association list ([Dict]).
      - An exception is the [Raise] case of [result]; state mutated before
        the exception is lost with it unless a function returns it
        explicitly.
      - The ProjectQ kernel is external.  It is modelled by the trace of
        the calls made to it ([kernel]); the amplitude vector it would
        report is represented by that trace, and the bit a measurement
        collapses to is read from a section variable [measure_outcome].
      - Python floats are a section variable [float]; rotation angles are
        kept symbolic ([angle]).
      - Wall-clock times and the job uuid are left out. *)

From Stdlib Require Import ZArith List String Ascii Bool Lia Permutation.
From Stdlib Require Import DecimalString.
Import ListNotations.
Local Open Scope Z_scope.
Local Open Scope string_scope.

(** ** Exceptions *)

Inductive exception : Type :=
| SimulatorError (msg : string)
| IndexError
| KeyError
| TypeError
| AttributeError.

Inductive result (A : Type) : Type :=
| Ok (a : A)
| Raise (e : exception).

Arguments Ok {A} a.
Arguments Raise {A} e.

Definition bind {A B : Type} (m : result A) (f : A -> result B) : result B :=
  match m with
  | Ok a => f a
  | Raise e => Raise e
  end.

Notation "x <- m ;; k" := (bind m (fun x => k))
  (at level 61, m at next level, right associativity).

(** [l[i]] for a non-negative index. *)
Definition index {A : Type} (l : list A) (i : nat) : result A :=
  match nth_error l i with
  | Some a => Ok a
  | None => Raise IndexError
  end.

(** ** Python dictionaries with string keys *)

Module Dict.
Section Dict.
Context {V : Type}.

Definition t : Type := list (string * V).

Definition empty : t := [].

Fixpoint get (k : string) (d : t) : option V :=
  match d with
  | [] => None
  | (k', v) :: d' => if String.eqb k k' then Some v else get k d'
  end.

(** [d[k] = v]: an existing key keeps its position, a new one goes last. *)
Fixpoint set (k : string) (v : V) (d : t) : t :=
  match d with
  | [] => [(k, v)]
  | (k', v') :: d' =>
      if String.eqb k k' then (k', v) :: d' else (k', v') :: set k v d'
  end.

Fixpoint remove (k : string) (d : t) : t :=
  match d with
  | [] => []
  | (k', v') :: d' =>
      if String.eqb k k' then d' else (k', v') :: remove k d'
  end.

(** [d.pop(k, None)] *)
Definition pop (k : string) (d : t) : option V * t := (get k d, remove k d).

Definition keys (d : t) : list string := map fst d.

(** [d == {}] *)
Definition is_empty (d : t) : bool :=
  match d with
  | [] => true
  | _ :: _ => false
  end.

(** [dict(pairs)] and [OrderedDict(pairs)] *)
Definition of_list (l : list (string * V)) : t :=
  fold_left (fun d kv => set (fst kv) (snd kv) d) l empty.

End Dict.
Arguments t V : clear implicits.
End Dict.

(** ** Python strings *)

(** Resolution of a slice bound against a sequence of length [len]. *)
Definition slice_bound (len : nat) (i : Z) : nat :=
  if (i <? 0)%Z then Z.to_nat (Z.max 0 (i + Z.of_nat len))
  else Nat.min (Z.to_nat i) len.

(** [s[start:stop]]; a bound that is left out is [None]. *)
Definition slice (s : string) (start stop : option Z) : string :=
  let len := String.length s in
  let lo := match start with Some i => slice_bound len i | None => 0%nat end in
  let hi := match stop with Some i => slice_bound len i | None => len end in
  string_of_list_ascii
    (firstn (hi - lo) (skipn lo (list_ascii_of_string s))).

(** [sep.join(l)] *)
Definition join (sep : string) (l : list string) : string :=
  String.concat sep l.

Fixpoint repeat_char (c : ascii) (n : nat) : string :=
  match n with
  | O => EmptyString
  | S n' => String c (repeat_char c n')
  end.

Fixpoint bits_of_positive (p : positive) (acc : string) : string :=
  match p with
  | xH => String "1" acc
  | xO p' => bits_of_positive p' (String "0" acc)
  | xI p' => bits_of_positive p' (String "1" acc)
  end.

(** [format(z, 'b')] *)
Definition format_b (z : Z) : string :=
  match z with
  | Z0 => "0"
  | Zpos p => bits_of_positive p EmptyString
  | Zneg p => String "-" (bits_of_positive p EmptyString)
  end.

(** [s.zfill(width)]: the padding goes after a leading sign. *)
Definition zfill (s : string) (width : nat) : string :=
  let pad := repeat_char "0" (width - String.length s) in
  match s with
  | String c s' =>
      if (Ascii.eqb c "-" || Ascii.eqb c "+")%bool
      then String c (pad ++ s')
      else pad ++ s
  | EmptyString => pad
  end.

(** [str(z)] for an integer. *)
Definition str_int (z : Z) : string := NilZero.string_of_int (Z.to_int z).

(** ** Conditional clauses and the classical register *)

Record conditional : Type := {
  cond_mask : Z;   (* int(operation.conditional.mask, 16) *)
  cond_val : Z     (* int(operation.conditional.val, 16) *)
}.

(** The loop [while (mask & 0x1) == 0: mask >>= 1; value >>= 1] on a
    positive mask: the last binary digit of [mask] is 0 exactly for [xO],
    and [mask >> 1] is then the remaining digits. *)
Fixpoint shift_to_lsb (mask : positive) (value : Z) : Z :=
  match mask with
  | xO mask' => shift_to_lsb mask' (Z.shiftr value 1)
  | _ => value
  end.

(** The number of times that loop shifts. *)
Fixpoint trailing_zeros (mask : positive) : Z :=
  match mask with
  | xO mask' => Z.succ (trailing_zeros mask')
  | _ => 0
  end.

(** [run_circuit], lines 200-208: [true] when the operation goes on to the
    dispatch, [false] when the loop [continue]s. *)
Definition evaluate_conditional
    (classical_state : Z) (c : option conditional) : bool :=
  match c with
  | None => true
  | Some c =>
      let mask := cond_mask c in
      match mask with
      | Zpos p =>
          let value := Z.land classical_state mask in
          (shift_to_lsb p value =? cond_val c)%Z
      | _ => true
      end
  end.

(** The predicate as the specification words it, to be compared with
    [evaluate_conditional]: true for mask zero; otherwise the classical
    state and the mask are shifted right together until the last bit of
    the mask is set, and the shifted state is compared with the expected
    value. *)
Definition evaluate_conditional_as_worded
    (classical_state mask expected : Z) : bool :=
  match mask with
  | Z0 => true
  | Zpos p | Zneg p => (shift_to_lsb p classical_state =? expected)%Z
  end.

(** [run_circuit], lines 247-250. *)
Definition set_bit_from_measurement
    (classical_state : Z) (clbit : nat) (outcome : bool) : Z :=
  let bit := Z.shiftl 1 (Z.of_nat clbit) in
  Z.lor (Z.land classical_state (Z.lnot bit))
        (Z.shiftl (Z.b2z outcome) (Z.of_nat clbit)).

(** The classical register after the measurements [ms], each a target
    classical bit with the bit measured, made in that order. *)
Definition measure_into (classical_state : Z) (ms : list (nat * bool)) : Z :=
  fold_left (fun s m => set_bit_from_measurement s (fst m) (snd m))
            ms classical_state.

(** The composition named by the specification: each measured bit shifted
    into its target position, the results combined by bitwise OR. *)
Definition or_of_measured_bits (ms : list (nat * bool)) : Z :=
  fold_right
    (fun m acc => Z.lor (Z.shiftl (Z.b2z (snd m)) (Z.of_nat (fst m))) acc)
    0 ms.

(** ** Register layout: [_get_register_specs] *)

(** [itertools.groupby(bit_labels, operator.itemgetter(0))]: maximal runs
    of consecutive labels with the same register name.  A run is kept as
    its first index and the remaining ones, so it is never empty.  A label
    joins the run that follows it exactly when the two names are equal,
    which is how the iterator of Python closes a group. *)
Fixpoint groupby (bit_labels : list (string * nat))
  : list (string * (nat * list nat)) :=
  match bit_labels with
  | [] => []
  | (name, ind) :: rest =>
      match groupby rest with
      | (name', (ind', inds)) :: groups =>
          if String.eqb name name'
          then (name, (ind, ind' :: inds)) :: groups
          else (name, (ind, [])) :: (name', (ind', inds)) :: groups
      | [] => [(name, (ind, []))]
      end
  end.

(** [max(...)] of a non-empty run. *)
Definition max_of (g : nat * list nat) : nat :=
  fold_left Nat.max (snd g) (fst g).

Definition _get_register_specs (bit_labels : list (string * nat))
  : list (string * nat) :=
  map (fun g => (fst g, (max_of (snd g) + 1)%nat)) (groupby bit_labels).

(** The bit labels of one register: its name with each of its local
    indices, the first of them apart. *)
Definition labels_of_run (run : string * (nat * list nat))
  : list (string * nat) :=
  map (pair (fst run)) (fst (snd run) :: snd (snd run)).

(** ** Result formatting: [_format_result] *)

(** The key built for one histogram entry (lines 354-358);
    [new_key.insert(0, _)] is the cons. *)
Definition format_key (key : string) (cl_reg_index cl_reg_nbits : list nat)
  : result string :=
  nbits0 <- index cl_reg_nbits 0 ;;
  let first := slice key (Some (- Z.of_nat nbits0)) None in
  let new_key :=
    fold_left
      (fun new_key reg =>
         let '(index, nbits) := reg in
         slice key (Some (- (Z.of_nat index + Z.of_nat nbits)))
                   (Some (- Z.of_nat index)) :: new_key)
      (combine (tl cl_reg_index) (tl cl_reg_nbits))
      [first] in
  Ok (join " " new_key).

Fixpoint format_entries (items : list (string * Z))
    (cl_reg_index cl_reg_nbits : list nat) (fcounts : Dict.t Z)
  : result (Dict.t Z) :=
  match items with
  | [] => Ok fcounts
  | (key, value) :: items' =>
      new_key <- format_key key cl_reg_index cl_reg_nbits ;;
      format_entries items' cl_reg_index cl_reg_nbits
                     (Dict.set new_key value fcounts)
  end.

Definition _format_result (counts : Dict.t Z)
    (cl_reg_index cl_reg_nbits : list nat) : result (Dict.t Z) :=
  format_entries counts cl_reg_index cl_reg_nbits Dict.empty.


(** A kernel whose measurements read 1 on qubit 0 and 0 elsewhere, and a
    float type with no values, for the examples. *)
Definition reads_one_on_qubit_0 {K : Type} (_ : K) (qubit : nat) : bool :=
  Nat.eqb qubit 0.

Definition no_float_str (x : Empty_set) : string :=
  match x with end.

(** ** The Qobj data model and the kernel *)

Section Simulator.

Context {float : Type}.

(** [str(x)] for a Python float. *)
Variable float_str : float -> string.

(** An entry of [operation.params]. *)
Inductive param : Type :=
| PInt (z : Z)
| PFloat (x : float)
| PStr (s : string).

Definition str (p : param) : string :=
  match p with
  | PInt z => str_int z
  | PFloat x => float_str x
  | PStr s => s
  end.

(** [QobjInstruction]; [op_conditional] is [None] when the attribute is
    absent. *)
Record instruction : Type := {
  op_name : string;
  op_params : list param;
  op_qubits : list nat;
  op_clbits : list nat;
  op_conditional : option conditional
}.

Record header : Type := {
  hdr_name : string;
  number_of_qubits : nat;
  number_of_clbits : nat;
  qubit_labels : list (string * nat);   (* [name, index] *)
  clbit_labels : list (string * nat)    (* [name, size] *)
}.

(** A [config] item; an absent attribute is [None]. *)
Record config : Type := {
  cfg_seed : option Z;
  cfg_shots : option Z
}.

(** [QobjExperiment] *)
Record circuit : Type := {
  circ_header : header;
  circ_instructions : list instruction;
  circ_config : option config
}.

Record qobj : Type := {
  qobj_id : string;
  qobj_config : option config;
  experiments : list circuit
}.

(** The angle handed to a rotation gate, as the expression that computes
    it from a parameter. *)
Inductive angle : Type :=
| Angle (p : param)            (* p *)
| MinusHalfPi (p : param)      (* p - np.pi/2 *)
| PlusHalfPi (p : param)       (* p + np.pi/2 *)
| HalfPi.                      (* np.pi/2 *)

(** The calls that reach the kernel. *)
Inductive command : Type :=
| KAllocate (qubit : nat)
| KRz (a : angle) (qubit : nat)
| KRy (a : angle) (qubit : nat)
| KRx (a : angle) (qubit : nat)
| KT (qubit : nat)
| KH (qubit : nat)
| KS (qubit : nat)
| KCX (qubit0 qubit1 : nat)
| KMeasure (qubit : nat)
| KFlush
| KSetWavefunction (qureg : list nat).

(** The simulator object: the seed of its random generator and the calls
    it has received, oldest first. *)
Record kernel : Type := {
  rnd_seed : Z;
  calls : list command
}.

(** [CppSim(seed)] and [Simulator(rnd_seed=seed, ...)] *)
Definition CppSim (seed : Z) : kernel := {| rnd_seed := seed; calls := [] |}.

Definition call (c : command) (k : kernel) : kernel :=
  {| rnd_seed := rnd_seed k; calls := (calls k ++ [c])%list |}.

(** The bit [int(qubit)] read after [Measure | qubit], decided by the
    kernel from its seed and its history. *)
Variable measure_outcome : kernel -> nat -> bool.

(** [eng.backend.cheat()[1]]: the amplitudes are a function of the seed and
    of the calls received, which stand for them here. *)
Definition statevector : Type := kernel.

Definition cheat (k : kernel) : statevector := k.

(** ** [QasmSimulatorProjectQ.run_circuit] *)

(** What the shot loop reads and writes. *)
Record state : Type := {
  classical_state : Z;
  sim : kernel;
  snapshots : Dict.t (list statevector);   (* location -> ['statevector'] *)
  outcomes : list string
}.

Definition with_kernel (st : state) (k : kernel) : state :=
  {| classical_state := classical_state st; sim := k;
     snapshots := snapshots st; outcomes := outcomes st |}.

Definition with_classical_state (st : state) (z : Z) : state :=
  {| classical_state := z; sim := sim st;
     snapshots := snapshots st; outcomes := outcomes st |}.

Definition with_snapshots (st : state) (d : Dict.t (list statevector))
  : state :=
  {| classical_state := classical_state st; sim := sim st;
     snapshots := d; outcomes := outcomes st |}.

Definition with_outcomes (st : state) (o : list string) : state :=
  {| classical_state := classical_state st; sim := sim st;
     snapshots := snapshots st; outcomes := o |}.

Definition apply (c : command) (st : state) : state :=
  with_kernel st (call c (sim st)).

Definition reset_message : string :=
  "Reset operation not yet implemented for ProjectQ C++ backend".

Definition quote : string := String "034"%char EmptyString.

(** ['{0} encountered unrecognized operation "{1}"'.format(backend, name)] *)
Definition unrecognized_message (backend name : string) : string :=
  backend ++ " encountered unrecognized operation " ++ quote ++ name ++ quote.

(** The operand of [params[i] - np.pi/2]: a string raises [TypeError]. *)
Definition number (p : param) : result param :=
  match p with
  | PStr _ => Raise TypeError
  | _ => Ok p
  end.

Definition name_in (name : string) (names : list string) : bool :=
  existsb (String.eqb name) names.

(** The [if]/[elif] chain of lines 210-271.  A rotation gate is handed
    its parameter as it is; what the constructors of ProjectQ do with a
    parameter that is not a number is not modelled. *)
Definition dispatch (backend : string) (qureg : list nat)
    (st : state) (operation : instruction) : result state :=
  let name := op_name operation in
  let params := op_params operation in
  if name_in name ["U"; "u3"] then
    qubit <- (q <- index (op_qubits operation) 0 ;; index qureg q) ;;
    lam <- index params 2 ;;
    theta <- index params 0 ;;
    phi <- index params 1 ;;
    Ok (apply (KRz (Angle phi) qubit)
         (apply (KRy (Angle theta) qubit)
           (apply (KRz (Angle lam) qubit) st)))
  else if String.eqb name "u1" then
    qubit <- (q <- index (op_qubits operation) 0 ;; index qureg q) ;;
    lam <- index params 0 ;;
    Ok (apply (KRz (Angle lam) qubit) st)
  else if String.eqb name "u2" then
    qubit <- (q <- index (op_qubits operation) 0 ;; index qureg q) ;;
    lam <- (p <- index params 1 ;; number p) ;;
    phi <- (p <- index params 0 ;; number p) ;;
    Ok (apply (KRz (PlusHalfPi phi) qubit)
         (apply (KRx HalfPi qubit)
           (apply (KRz (MinusHalfPi lam) qubit) st)))
  else if String.eqb name "t" then
    qubit <- (q <- index (op_qubits operation) 0 ;; index qureg q) ;;
    Ok (apply (KT qubit) st)
  else if String.eqb name "h" then
    qubit <- (q <- index (op_qubits operation) 0 ;; index qureg q) ;;
    Ok (apply (KH qubit) st)
  else if String.eqb name "s" then
    qubit <- (q <- index (op_qubits operation) 0 ;; index qureg q) ;;
    Ok (apply (KS qubit) st)
  else if name_in name ["CX"; "cx"] then
    qubit0 <- (q <- index (op_qubits operation) 0 ;; index qureg q) ;;
    qubit1 <- (q <- index (op_qubits operation) 1 ;; index qureg q) ;;
    Ok (apply (KCX qubit0 qubit1) st)
  else if name_in name ["id"; "u0"] then
    Ok st
  else if String.eqb name "measure" then
    qubit <- (q <- index (op_qubits operation) 0 ;; index qureg q) ;;
    clbit <- index (op_clbits operation) 0 ;;
    let outcome := measure_outcome (sim st) qubit in
    Ok (with_classical_state (apply (KMeasure qubit) st)
          (set_bit_from_measurement (classical_state st) clbit outcome))
  else if String.eqb name "reset" then
    _ <- index (op_qubits operation) 0 ;;
    Raise (SimulatorError reset_message)
  else if String.eqb name "snapshot" then
    let st1 := apply KFlush st in
    label <- index params 0 ;;
    let location := str label in
    let vector := cheat (sim st1) in
    match Dict.get location (snapshots st1) with
    | Some vectors =>
        Ok (with_snapshots st1
              (Dict.set location (vectors ++ [vector])%list (snapshots st1)))
    | None =>
        Ok (with_snapshots st1 (Dict.set location [vector] (snapshots st1)))
    end
  else if String.eqb name "barrier" then
    Ok st
  else
    Raise (SimulatorError (unrecognized_message backend name)).

(** One turn of the loop over [circuit.instructions] (lines 199-271). *)
Definition step (backend : string) (qureg : list nat)
    (st : state) (operation : instruction) : result state :=
  if evaluate_conditional (classical_state st) (op_conditional operation)
  then dispatch backend qureg st operation
  else Ok st.

Fixpoint run_instructions (backend : string) (qureg : list nat)
    (st : state) (instructions : list instruction) : result state :=
  match instructions with
  | [] => Ok st
  | operation :: rest =>
      st' <- step backend qureg st operation ;;
      run_instructions backend qureg st' rest
  end.

(** Lines 276-278: every qubit is measured before the shot ends. *)
Fixpoint measure_all (qureg : list nat) (inds : list nat) (st : state)
  : result state :=
  match inds with
  | [] => Ok st
  | ind :: rest =>
      qubit <- index qureg ind ;;
      measure_all qureg rest (apply (KMeasure qubit) st)
  end.

(** Lines 188-196: the state a shot starts its instructions in. *)
Definition shot_start (qureg : list nat) (st : state) (i : nat) : state :=
  let st := with_classical_state st 0 in
  match i with
  | O => st
  | S _ => apply (KSetWavefunction qureg) (apply KFlush st)
  end.

(** The body of [for i in range(self._shots)] (lines 188-282). *)
Definition run_shot (backend : string) (c : circuit) (qureg : list nat)
    (st : state) (i : nat) : result state :=
  let st := shot_start qureg st i in
  st <- run_instructions backend qureg st (circ_instructions c) ;;
  st <- measure_all qureg (seq 0 (number_of_qubits (circ_header c))) st ;;
  let st := apply KFlush st in
  let bits := format_b (classical_state st) in
  Ok (with_outcomes st
        (outcomes st ++ [zfill bits (number_of_clbits (circ_header c))])%list).

Fixpoint run_shots (backend : string) (c : circuit) (qureg : list nat)
    (st : state) (shots : list nat) : result state :=
  match shots with
  | [] => Ok st
  | i :: rest =>
      st' <- run_shot backend c qureg st i ;;
      run_shots backend c qureg st' rest
  end.

(** [OrderedDict((key, eng.allocate_qureg(size)) for key, size in ...)]:
    a fresh engine numbers its qubits from [next]. *)
Fixpoint allocate_quregs (quregs : list (string * nat)) (next : nat)
    (k : kernel) (acc : Dict.t (list nat)) : Dict.t (list nat) * kernel :=
  match quregs with
  | [] => (acc, k)
  | (key, size) :: rest =>
      let qubits := seq next size in
      allocate_quregs rest (next + size)%nat
        (fold_left (fun k q => call (KAllocate q) k) qubits k)
        (Dict.set key qubits acc)
  end.

(** Lines 167-170: sizes and starting bits of the classical registers. *)
Fixpoint classical_registers (labels : list (string * nat))
    (clbit_index : nat) : list nat * list nat :=
  match labels with
  | [] => ([], [])
  | cl_reg :: rest =>
      let '(cl_reg_index, cl_reg_nbits) :=
        classical_registers rest (clbit_index + snd cl_reg)%nat in
      (clbit_index :: cl_reg_index, snd cl_reg :: cl_reg_nbits)
  end.

(** [Counter(outcomes)] *)
Definition Counter (l : list string) : Dict.t Z :=
  fold_left
    (fun d o =>
       match Dict.get o d with
       | Some n => Dict.set o (n + 1) d
       | None => Dict.set o 1 d
       end)
    l Dict.empty.

(** The ['data'] dictionary of a result; a missing key is [None]. *)
Record data : Type := {
  data_counts : Dict.t Z;
  data_snapshots : option (Dict.t (list statevector));
  data_classical_state : option Z;
  data_statevector : option statevector
}.

Record experiment_result : Type := {
  res_name : string;
  res_seed : Z;
  res_shots : Z;
  res_data : data;
  res_status : string;
  res_success : bool
}.

(** Lines 172-175: [# let circuit seed override qobj default]. *)
Definition circuit_kernel (c : circuit) (k : kernel) : kernel :=
  match circ_config c with
  | Some cfg =>
      match cfg_seed cfg with
      | Some seed => if (seed =? 0)%Z then k else CppSim seed
      | None => k
      end
  | None => k
  end.

(** Lines 159-180: the flattened quantum register and the state the shot
    loop starts in. *)
Definition setup (c : circuit) (k : kernel) : list nat * state :=
  let qobj_quregs :=
    Dict.of_list (_get_register_specs (qubit_labels (circ_header c))) in
  let k := circuit_kernel c k in
  let '(projq_qureg_dict, k) :=
    allocate_quregs qobj_quregs 0 k Dict.empty in
  (List.concat (map snd projq_qureg_dict),
   {| classical_state := 0; sim := k;
      snapshots := Dict.empty; outcomes := [] |}).

(** Lines 159-282: the state the shot loop ends in. *)
Definition execute (backend : string) (_shots : Z)
    (c : circuit) (k : kernel) : result state :=
  run_shots backend c (fst (setup c k)) (snd (setup c k))
            (seq 0 (Z.to_nat _shots)).

(** [run_circuit(self, circuit, sim)] with [self._seed] and [self._shots]
    as arguments; the simulator object is returned with the result since
    the next circuit of the job runs on it. *)
Definition run_circuit (backend : string) (_seed _shots : Z)
    (c : circuit) (k : kernel) : result (experiment_result * kernel) :=
  let '(cl_reg_index, cl_reg_nbits) :=
    classical_registers (clbit_labels (circ_header c)) 0 in
  st <- execute backend _shots c k ;;
  let counts := Counter (outcomes st) in
  fcounts <- _format_result counts cl_reg_index cl_reg_nbits ;;
  Ok ({| res_name := hdr_name (circ_header c);
         res_seed := _seed;
         res_shots := _shots;
         res_data :=
           {| data_counts := fcounts;
              data_snapshots :=
                if Dict.is_empty (snapshots st) then None
                else Some (snapshots st);
              data_classical_state :=
                if (_shots =? 1)%Z then Some (classical_state st) else None;
              data_statevector := None |};
         res_status := "DONE";
         res_success := true |},
      sim st).

(** The measurement an operation makes when the loop reaches it in state
    [st]: its target classical bit and the bit the kernel returns. *)
Definition measured (qureg : list nat) (st : state)
    (operation : instruction) : option (nat * bool) :=
  if (evaluate_conditional (classical_state st) (op_conditional operation)
      && String.eqb (op_name operation) "measure")%bool
  then
    match (q <- index (op_qubits operation) 0 ;; index qureg q),
          index (op_clbits operation) 0 with
    | Ok qubit, Ok clbit => Some (clbit, measure_outcome (sim st) qubit)
    | _, _ => None
    end
  else None.

(** The measurements made by a run of [instructions], in order. *)
Fixpoint measurements (backend : string) (qureg : list nat)
    (st : state) (instructions : list instruction) : list (nat * bool) :=
  match instructions with
  | [] => []
  | operation :: rest =>
      match step backend qureg st operation with
      | Ok st' =>
          match measured qureg st operation with
          | Some m => m :: measurements backend qureg st' rest
          | None => measurements backend qureg st' rest
          end
      | Raise _ => []
      end
  end.

(** ** Jobs: [_validate] and [_run_job] of both backends *)

(** What is sent to [warnings.warn] and to the logger. *)
Inductive diagnostic : Type :=
| DeprecationWarning (msg : string)
| LoggerWarning (msg : string)
| LoggerInfo (msg : string).

(** A read of an attribute that may be absent. *)
Definition attribute {A : Type} (a : option A) : result A :=
  match a with
  | Some x => Ok x
  | None => Raise AttributeError
  end.

(** [_validate] mutates the qobj it is given and may raise after having
    done so: it returns the qobj as it leaves it, what it logged, and the
    exception if one was raised. *)
Record validation : Type := {
  v_qobj : qobj;
  v_log : list diagnostic;
  v_raised : option exception
}.

Definition deprecation_message : string :=
  "The behavior of getting statevector from simulators by setting shots=1 is deprecated and has been removed for this simulator. Use the local_statevector_simulator instead, or place explicit snapshot instructions.".

Definition no_measurement_message (name : string) : string :=
  "no measurements in circuit '" ++ name ++
  "', classical register will remain all zeros.".

(** [QasmSimulatorProjectQ._validate] *)
Definition _validate (q : qobj) : validation :=
  match qobj_config q with
  | None => {| v_qobj := q; v_log := []; v_raised := Some AttributeError |}
  | Some cfg =>
      match cfg_shots cfg with
      | None =>
          {| v_qobj := q; v_log := []; v_raised := Some AttributeError |}
      | Some shots =>
          {| v_qobj := q;
             v_log :=
               ((if (shots =? 1)%Z
                 then [DeprecationWarning deprecation_message] else []) ++
                flat_map
                  (fun circ =>
                     if name_in "measure"
                          (map op_name (circ_instructions circ))
                     then []
                     else [LoggerWarning
                             (no_measurement_message
                                (hdr_name (circ_header circ)))])
                  (experiments q))%list;
             v_raised := None |}
      end
  end.

Fixpoint run_circuits (backend : string) (_seed _shots : Z)
    (circuits : list circuit) (k : kernel)
  : result (list experiment_result) :=
  match circuits with
  | [] => Ok []
  | c :: rest =>
      r <- run_circuit backend _seed _shots c k ;;
      rs <- run_circuits backend _seed _shots rest (snd r) ;;
      Ok (fst r :: rs)
  end.

(** The result of a job: [Result.results] is an ordered mapping from the
    names of the circuits to their results. *)
Record job_result : Type := {
  job_backend : string;
  job_qobj_id : string;
  job_results : Dict.t experiment_result;
  job_status : string;
  job_success : bool
}.

(** [[circuit.header.name for circuit in qobj.experiments]] *)
Definition experiment_names (q : qobj) : list string :=
  map (fun c => hdr_name (circ_header c)) (experiments q).

(** [result_from_old_style_dict(result, experiment_names)] belongs to
    qiskit: the [Result] it returns keeps the results of the circuits in
    an ordered mapping keyed by the names of the circuits, so of two
    circuits of the same name the result of the later one takes the place
    of the earlier one. *)
Definition result_from_old_style_dict (result_list : list experiment_result)
    (names : list string) : Dict.t experiment_result :=
  Dict.of_list (combine names result_list).

(** [QasmSimulatorProjectQ._run_job]; [validate] is [self._validate],
    which the subclass overrides, and [getrandbits] the value of
    [random.getrandbits(32)]. *)
Definition _run_job (backend : string) (validate : qobj -> validation)
    (getrandbits : Z) (q : qobj) : validation * result job_result :=
  let v := validate q in
  (v,
   match v_raised v with
   | Some e => Raise e
   | None =>
       cfg <- attribute (qobj_config (v_qobj v)) ;;
       let _seed := match cfg_seed cfg with
                    | Some seed => seed
                    | None => getrandbits
                    end in
       _shots <- attribute (cfg_shots cfg) ;;
       let sim := CppSim _seed in
       result_list <-
         run_circuits backend _seed _shots (experiments (v_qobj v)) sim ;;
       Ok {| job_backend := backend;
             job_qobj_id := qobj_id (v_qobj v);
             job_results :=
               result_from_old_style_dict result_list
                                          (experiment_names (v_qobj v));
             job_status := "COMPLETED";
             job_success := true |}
   end).

(** *** [StatevectorSimulatorProjectQ] *)

Definition shots_message : string :=
  "statevector simulator only supports 1 shot. Setting shots=1".

(** [_set_shots_to_1(qobj_item, include_name)] on the [config] of the item;
    [name] is [qobj_item.header.name] when the item has one. *)
Definition _set_shots_to_1 (cfg : option config) (name : option string)
    (include_name : bool) : config * list diagnostic :=
  let cfg1 := match cfg with
              | Some c => c
              | None => {| cfg_seed := None; cfg_shots := Some 1 |}
              end in
  let log :=
    match cfg_shots cfg1 with
    | Some 1 => []
    | _ =>
        [LoggerInfo
           (shots_message ++
            (if include_name
             then match name with
                  | Some n => "Setting shots=1 for circuit" ++ n
                  | None => ""
                  end
             else "") ++ ".")]
    end in
  ({| cfg_seed := cfg_seed cfg1; cfg_shots := Some 1 |}, log).

Definition unsupported_message (name : string) : string :=
  "In circuit " ++ name ++
  ": statevector simulator does not support measure or reset.".

Definition with_config (c : circuit) (cfg : config) : circuit :=
  {| circ_header := circ_header c;
     circ_instructions := circ_instructions c;
     circ_config := Some cfg |}.

(** [self._set_shots_to_1(circuit, True)] on a circuit. *)
Definition forced (c : circuit) : circuit :=
  with_config c
    (fst (_set_shots_to_1 (circ_config c)
                          (Some (hdr_name (circ_header c))) true)).

(** Lines 111-112: some instruction of the circuit is a measure or a
    reset. *)
Definition rejected (c : circuit) : bool :=
  existsb (fun operator => name_in (op_name operator) ["measure"; "reset"])
          (circ_instructions c).

(** The loop over [qobj.experiments] of the statevector [_validate]: the
    circuits as the loop leaves them, the log, and the exception raised. *)
Fixpoint validate_experiments (circuits : list circuit)
  : list circuit * list diagnostic * option exception :=
  match circuits with
  | [] => ([], [], None)
  | c :: rest =>
      let log :=
        snd (_set_shots_to_1 (circ_config c)
                             (Some (hdr_name (circ_header c))) true) in
      if rejected c
      then (forced c :: rest, log,
            Some (SimulatorError
                    (unsupported_message (hdr_name (circ_header c)))))
      else
        let '(rest', log', raised) := validate_experiments rest in
        (forced c :: rest', (log ++ log')%list, raised)
  end.

(** [StatevectorSimulatorProjectQ._validate] *)
Definition statevector_validate (q : qobj) : validation :=
  let '(cfg, log) := _set_shots_to_1 (qobj_config q) None false in
  let '(circuits, log', raised) := validate_experiments (experiments q) in
  {| v_qobj := {| qobj_id := qobj_id q;
                  qobj_config := Some cfg;
                  experiments := circuits |};
     v_log := (log ++ log')%list;
     v_raised := raised |}.

Definition final_state_key : Z := 32767.

(** [QobjInstruction(name='snapshot', params=[final_state_key])] *)
Definition final_snapshot : instruction :=
  {| op_name := "snapshot";
     op_params := [PInt final_state_key];
     op_qubits := [];
     op_clbits := [];
     op_conditional := None |}.

Definition append_final_snapshot (c : circuit) : circuit :=
  {| circ_header := circ_header c;
     circ_instructions := (circ_instructions c ++ [final_snapshot])%list;
     circ_config := circ_config c |}.

(** The variable [final_state_key] of [_run_job]: an integer until the
    loop rebinds it to its string. *)
Inductive sentinel : Type :=
| SInt (z : Z)
| SStr (s : string).

Definition sentinel_str (key : sentinel) : string :=
  match key with
  | SInt z => str_int z
  | SStr s => s
  end.

(** The body of [for res in result.results.values()] (lines 79-89).  The
    keys of the snapshot store are strings, so an integer key pops the
    default. *)
Definition extract_final_state (key : sentinel) (res : experiment_result)
  : result (sentinel * experiment_result) :=
  let d := res_data res in
  snaps <- match data_snapshots d with
           | Some s => Ok s
           | None => Raise KeyError
           end ;;
  let key := match Dict.get (sentinel_str key) snaps with
             | Some _ => SStr (sentinel_str key)
             | None => key
             end in
  let '(final_state, snaps) :=
    match key with
    | SStr s => Dict.pop s snaps
    | SInt _ => (None, snaps)
    end in
  vectors <- match final_state with
             | Some vectors => Ok vectors
             | None => Raise TypeError
             end ;;
  final_state <- index vectors 0 ;;
  Ok (key,
      {| res_name := res_name res;
         res_seed := res_seed res;
         res_shots := res_shots res;
         res_data :=
           {| data_counts := data_counts d;
              data_snapshots :=
                if Dict.is_empty snaps then None else Some snaps;
              data_classical_state := data_classical_state d;
              data_statevector := Some final_state |};
         res_status := res_status res;
         res_success := res_success res |}).

(** [for res in result.results.values()]: every result of the mapping is
    updated where it is. *)
Fixpoint extract_final_states (key : sentinel)
    (results : Dict.t experiment_result)
  : result (Dict.t experiment_result) :=
  match results with
  | [] => Ok []
  | (name, res) :: rest =>
      r <- extract_final_state key res ;;
      rs <- extract_final_states (fst r) rest ;;
      Ok ((name, snd r) :: rs)
  end.

(** [StatevectorSimulatorProjectQ._run_job] *)
Definition statevector_run_job (backend : string) (getrandbits : Z)
    (q : qobj) : result job_result :=
  let v := statevector_validate q in
  match v_raised v with
  | Some e => Raise e
  | None =>
      let q1 := {| qobj_id := qobj_id (v_qobj v);
                   qobj_config := qobj_config (v_qobj v);
                   experiments :=
                     map append_final_snapshot (experiments (v_qobj v)) |} in
      r <- snd (_run_job backend statevector_validate getrandbits q1) ;;
      results <- extract_final_states (SInt final_state_key)
                                      (job_results r) ;;
      Ok {| job_backend := job_backend r;
            job_qobj_id := job_qobj_id r;
            job_results := results;
            job_status := job_status r;
            job_success := job_success r |}
  end.

(** The target classical bits of the measure instructions of a circuit. *)
Definition measure_targets (instructions : list instruction) : list nat :=
  flat_map
    (fun operation =>
       if String.eqb (op_name operation) "measure"
       then firstn 1 (op_clbits operation)
       else [])
    instructions.

(** The operation is a snapshot whose label reads [location]. *)
Definition snapshot_at (location : string) (operation : instruction)
  : bool :=
  (String.eqb (op_name operation) "snapshot" &&
   match nth_error (op_params operation) 0 with
   | Some label => String.eqb (str label) location
   | None => false
   end)%bool.

(** ** Circuits used as examples *)

Definition gate (name : string) (params : list param) (qubits : list nat)
  : instruction :=
  {| op_name := name; op_params := params; op_qubits := qubits;
     op_clbits := []; op_conditional := None |}.

Definition measure (qubit clbit : nat) : instruction :=
  {| op_name := "measure"; op_params := []; op_qubits := [qubit];
     op_clbits := [clbit]; op_conditional := None |}.

(** [operation] under the clause [if (creg & mask) == val]. *)
Definition conditioned (mask val : Z) (operation : instruction)
  : instruction :=
  {| op_name := op_name operation; op_params := op_params operation;
     op_qubits := op_qubits operation; op_clbits := op_clbits operation;
     op_conditional := Some {| cond_mask := mask; cond_val := val |} |}.

(** What the statevector backend is specified to do for one circuit [c],
    [res] being the result it returns for it: the circuit is run for one
    shot with a snapshot under the sentinel label appended; that run
    leaves, under the sentinel label, the single vector captured after the
    instructions of [c]; the extraction takes that entry out of the
    snapshot store, publishes the vector as the statevector of the result
    and drops the store when nothing else is in it. *)
Definition publishes_final_state (backend : string) (c : circuit)
    (res : experiment_result) : Prop :=
  exists (k k' : kernel) (res0 : experiment_result) (key : sentinel)
         (st1 : state),
    circ_instructions (append_final_snapshot (forced c))
    = (circ_instructions c ++ [gate "snapshot" [PInt 32767] []])%list /\
    run_circuit backend (res_seed res) 1
                (append_final_snapshot (forced c)) k = Ok (res0, k') /\
    run_instructions backend (fst (setup c k)) (snd (setup c k))
                     (circ_instructions c) = Ok st1 /\
    data_snapshots (res_data res0)
    = Some (snapshots st1
            ++ [("32767", [cheat (call KFlush (sim st1))])])%list /\
    extract_final_state key res0 = Ok (SStr "32767", res) /\
    data_statevector (res_data res)
    = Some (cheat (call KFlush (sim st1))) /\
    data_snapshots (res_data res)
    = (if Dict.is_empty (snapshots st1) then None
       else Some (snapshots st1)).

(** Two qubits [q[0]], [q[1]] and one classical register [c] of two bits. *)
Definition two_qubits : header :=
  {| hdr_name := "example";
     number_of_qubits := 2;
     number_of_clbits := 2;
     qubit_labels := [("q", 0%nat); ("q", 1%nat)];
     clbit_labels := [("c", 2%nat)] |}.

Definition example_circuit (instructions : list instruction)
    (cfg : option config) : circuit :=
  {| circ_header := two_qubits;
     circ_instructions := instructions;
     circ_config := cfg |}.


(** The circuit [c] under the name [name]. *)
Definition named (name : string) (c : circuit) : circuit :=
  {| circ_header :=
       {| hdr_name := name;
          number_of_qubits := number_of_qubits (circ_header c);
          number_of_clbits := number_of_clbits (circ_header c);
          qubit_labels := qubit_labels (circ_header c);
          clbit_labels := clbit_labels (circ_header c) |};
     circ_instructions := circ_instructions c;
     circ_config := circ_config c |}.

(** ** Definitions used by the further properties *)

(** The operation names of the [if]/[elif] chain of [run_circuit]. *)
Definition recognized : list string :=
  ["U"; "u3"; "u1"; "u2"; "t"; "h"; "s"; "CX"; "cx"; "id"; "u0";
   "measure"; "reset"; "snapshot"; "barrier"].

(** The bit last measured into [clbit] by the measurements [ms], [false]
    when none of them targets it. *)
Definition last_measured (clbit : nat) (ms : list (nat * bool)) : bool :=
  fold_left (fun acc m => if Nat.eqb (fst m) clbit then snd m else acc)
            ms false.

(** The sum of the counts of a histogram. *)
Definition total (counts : Dict.t Z) : Z :=
  fold_right (fun entry acc => snd entry + acc) 0 counts.

(** The character of an outcome string for bit [i] of the register. *)
Definition bit_char (classical_state : Z) (i : nat) : ascii :=
  if Z.testbit classical_state (Z.of_nat i) then "1"%char else "0"%char.

(** The number of vectors the snapshot store holds under [location]. *)
Definition snapshot_count (location : string)
    (d : Dict.t (list statevector)) : nat :=
  match Dict.get location d with
  | Some vectors => List.length vectors
  | None => 0
  end.

(** * Properties *)

(** ** The conditional predicate *)

Lemma shift_to_lsb_shiftr (p : positive) (value : Z) :
  shift_to_lsb p value = Z.shiftr value (trailing_zeros p).
Proof.
  revert value.
  induction p as [p IH | p IH | ]; intro value; simpl;
    try (now rewrite Z.shiftr_0_r).
  assert (Hk : 0 <= trailing_zeros p) by (clear; induction p; simpl; lia).
  rewrite IH, Z.shiftr_shiftr by lia.
  f_equal; lia.
Qed.

Lemma trailing_zeros_nonneg (p : positive) : 0 <= trailing_zeros p.
Proof. induction p; simpl; lia. Qed.

(** The recursion on the binary digits is the loop of the source: while
    the last bit of the mask is clear both numbers are shifted, and the
    loop stops with the value when that bit is set. *)
Lemma shift_to_lsb_loop (p : positive) (value : Z) :
  (Z.land (Zpos p) 1 = 0 ->
   exists p', Z.shiftr (Zpos p) 1 = Zpos p' /\
              shift_to_lsb p value = shift_to_lsb p' (Z.shiftr value 1)) /\
  (Z.land (Zpos p) 1 <> 0 -> shift_to_lsb p value = value).
Proof.
  destruct p as [p | p | ]; simpl; split; intro H;
    try discriminate; try reflexivity; try (now elim H).
  exists p. split; reflexivity.
Qed.

Lemma trailing_zeros_testbit (p : positive) :
  Z.testbit (Zpos p) (trailing_zeros p) = true /\
  forall j, 0 <= j < trailing_zeros p -> Z.testbit (Zpos p) j = false.
Proof.
  induction p as [p IH | p IH | ]; simpl trailing_zeros.
  - split; [reflexivity | intros; lia].
  - pose proof (trailing_zeros_nonneg p) as Hk.
    destruct IH as [IH1 IH2].
    change (Zpos p~0) with (2 * Zpos p).
    split.
    + rewrite <- Z.add_1_r, Z.add_comm.
      replace (1 + trailing_zeros p) with (Z.succ (trailing_zeros p)) by lia.
      rewrite Z.testbit_even_succ by lia. exact IH1.
    + intros j Hj.
      destruct (Z.eq_dec j 0) as [-> | Hj0].
      * apply Z.testbit_even_0.
      * replace j with (Z.succ (j - 1)) by lia.
        rewrite Z.testbit_even_succ by lia.
        apply IH2. lia.
  - split; [reflexivity | intros; lia].
Qed.

Lemma evaluate_conditional_positive (st : Z) (p : positive) (expected : Z) :
  evaluate_conditional st
    (Some {| cond_mask := Zpos p; cond_val := expected |}) =
  (Z.shiftr (Z.land st (Zpos p)) (trailing_zeros p) =? expected)%Z.
Proof.
  unfold evaluate_conditional; cbn [cond_mask cond_val].
  now rewrite shift_to_lsb_shiftr.
Qed.

(** C2.  A clause with mask zero always holds.  For a positive mask the
    classical state and the mask are both shifted right by the same number
    [k] of places, [k] being the first for which the last bit of the
    shifted mask is set, and the shifted state, within the shifted mask,
    is compared with the expected value.  With mask 0b0110, state 0b0100
    and expected value 0b10 the predicate holds. *)
Theorem evaluate_conditional_shifts_in_lock_step :
  (forall st expected,
     evaluate_conditional st
       (Some {| cond_mask := 0; cond_val := expected |}) = true) /\
  (forall st mask expected,
     0 < mask ->
     exists k,
       0 <= k /\
       Z.testbit (Z.shiftr mask k) 0 = true /\
       (forall j, 0 <= j < k -> Z.testbit (Z.shiftr mask j) 0 = false) /\
       evaluate_conditional st
         (Some {| cond_mask := mask; cond_val := expected |}) =
       (Z.land (Z.shiftr st k) (Z.shiftr mask k) =? expected)%Z) /\
  evaluate_conditional 4 (Some {| cond_mask := 6; cond_val := 2 |}) = true.
Proof.
  split; [ | split].
  - reflexivity.
  - intros st mask expected Hpos.
    destruct mask as [ | p | p]; try lia.
    exists (trailing_zeros p).
    pose proof (trailing_zeros_nonneg p) as Hk.
    destruct (trailing_zeros_testbit p) as [Hset Hclear].
    repeat split.
    + exact Hk.
    + rewrite Z.shiftr_spec by lia. exact Hset.
    + intros j Hj. rewrite Z.shiftr_spec by lia. now apply Hclear.
    + rewrite evaluate_conditional_positive, Z.shiftr_land. reflexivity.
  - reflexivity.
Qed.

(** C10.  For a nonzero mask, two classical states that agree on every
    bit the mask selects get the same decision, whatever their other bits
    are. *)
Theorem conditional_reads_only_masked_bits
    (st1 st2 mask expected : Z) :
  mask <> 0 ->
  (forall n, Z.testbit mask n = true -> Z.testbit st1 n = Z.testbit st2 n) ->
  evaluate_conditional st1
    (Some {| cond_mask := mask; cond_val := expected |}) =
  evaluate_conditional st2
    (Some {| cond_mask := mask; cond_val := expected |}).
Proof.
  intros _ Hagree.
  destruct mask as [ | p | p]; try reflexivity.
  rewrite !evaluate_conditional_positive.
  replace (Z.land st1 (Zpos p)) with (Z.land st2 (Zpos p)); [reflexivity | ].
  apply Z.bits_inj'. intros n _.
  rewrite !Z.land_spec.
  destruct (Z.testbit (Zpos p) n) eqn:Hbit.
  - now rewrite (Hagree n Hbit).
  - now rewrite !andb_false_r.
Qed.

(** ** The classical register *)

Lemma testbit_set_bit (s : Z) (c : nat) (b : bool) (n : Z) :
  0 <= n ->
  Z.testbit (set_bit_from_measurement s c b) n =
  if (n =? Z.of_nat c)%Z then b else Z.testbit s n.
Proof.
  intro Hn. unfold set_bit_from_measurement.
  rewrite Z.lor_spec, Z.land_spec, Z.lnot_spec by lia.
  rewrite Z.shiftl_1_l, Z.pow2_bits_eqb by lia.
  assert (Hb : Z.testbit (Z.shiftl (Z.b2z b) (Z.of_nat c)) n =
               (b && (Z.of_nat c =? n)%Z)%bool).
  { destruct b; simpl Z.b2z.
    - now rewrite Z.shiftl_1_l, Z.pow2_bits_eqb by lia.
    - now rewrite Z.shiftl_0_l, Z.bits_0. }
  rewrite Hb, (Z.eqb_sym (Z.of_nat c) n).
  destruct (n =? Z.of_nat c)%Z; simpl.
  - now rewrite andb_false_r, andb_true_r.
  - now rewrite andb_true_r, andb_false_r, orb_false_r.
Qed.

Lemma testbit_or_of_measured_bits (ms : list (nat * bool)) (n : Z) :
  0 <= n ->
  Z.testbit (or_of_measured_bits ms) n =
  existsb (fun m => ((n =? Z.of_nat (fst m))%Z && snd m)%bool) ms.
Proof.
  intro Hn. induction ms as [ | [c b] ms IH]; simpl.
  - apply Z.bits_0.
  - rewrite Z.lor_spec, IH. f_equal.
    destruct b; simpl Z.b2z.
    + rewrite Z.shiftl_1_l, Z.pow2_bits_eqb, Z.eqb_sym by lia.
      now rewrite andb_true_r.
    + now rewrite Z.shiftl_0_l, Z.bits_0, andb_false_r.
Qed.

Lemma testbit_measure_into (ms : list (nat * bool)) :
  forall (s n : Z),
    0 <= n ->
    NoDup (map fst ms) ->
    Z.testbit (measure_into s ms) n =
    (existsb (fun m => ((n =? Z.of_nat (fst m))%Z && snd m)%bool) ms
     || (Z.testbit s n
         && negb (existsb (fun m => (n =? Z.of_nat (fst m))%Z) ms)))%bool.
Proof.
  unfold measure_into.
  induction ms as [ | [c b] ms IH]; intros s n Hn Hnd; simpl.
  - now rewrite andb_true_r.
  - inversion Hnd as [ | ? ? Hnotin Hnd']; subst.
    rewrite IH, testbit_set_bit by assumption.
    destruct (Z.eqb_spec n (Z.of_nat c)) as [-> | Hne]; simpl.
    + assert (Hnone : existsb (fun m => (Z.of_nat c =? Z.of_nat (fst m))%Z) ms
                      = false).
      { apply not_true_is_false. intro Hex.
        apply existsb_exists in Hex. destruct Hex as [[c' b'] [Hin Heq]].
        apply Z.eqb_eq, Nat2Z.inj in Heq. simpl in Heq. subst c'.
        apply Hnotin. change c with (fst (c, b')). now apply in_map. }
      assert (Hnone' : existsb (fun m => ((Z.of_nat c =? Z.of_nat (fst m))%Z
                                          && snd m)%bool) ms = false).
      { apply not_true_is_false. intro Hex.
        apply existsb_exists in Hex. destruct Hex as [m [Hin Heq]].
        apply andb_true_iff in Heq. destruct Heq as [Heq _].
        assert (Hex' : existsb (fun m => (Z.of_nat c =? Z.of_nat (fst m))%Z) ms
                       = true)
          by (apply existsb_exists; now exists m).
        congruence. }
      rewrite Hnone, Hnone'. now destruct b, (Z.testbit s (Z.of_nat c)).
    + reflexivity.
Qed.

Lemma measure_into_distinct_targets (ms : list (nat * bool)) :
  NoDup (map fst ms) -> measure_into 0 ms = or_of_measured_bits ms.
Proof.
  intro Hnd. apply Z.bits_inj'. intros n Hn.
  rewrite testbit_measure_into, testbit_or_of_measured_bits by assumption.
  now rewrite Z.bits_0, orb_false_r.
Qed.

Lemma or_of_measured_bits_permutation (ms ms' : list (nat * bool)) :
  Permutation ms ms' -> or_of_measured_bits ms = or_of_measured_bits ms'.
Proof.
  induction 1 as [ | m l l' _ IH | m1 m2 l | l l' l'' _ IH1 _ IH2]; simpl.
  - reflexivity.
  - now rewrite IH.
  - rewrite !Z.lor_assoc. f_equal. apply Z.lor_comm.
  - congruence.
Qed.

(** ** The instruction loop *)

Lemma bind_Ok {A B : Type} (m : result A) (f : A -> result B) (b : B) :
  bind m f = Ok b -> exists a, m = Ok a /\ f a = Ok b.
Proof. destruct m as [a | e]; simpl; [eauto | discriminate]. Qed.

(** Splits the chain of name tests of [dispatch]. *)
Ltac name_cases name :=
  repeat match goal with
         | |- context [String.eqb name ?s] =>
             destruct (String.eqb_spec name s) as [-> | ?];
             cbn [existsb orb String.eqb Ascii.eqb Bool.eqb andb]
         end.

(** Reads a successful run of binds backwards. *)
Ltac bind_inv :=
  repeat match goal with
         | H : bind _ _ = Ok _ |- _ =>
             let a := fresh "a" in
             let Ha := fresh "Ha" in
             apply bind_Ok in H; destruct H as [a [Ha H]]; cbv beta in H
         | H : Ok _ = Ok _ |- _ => inversion H; subst; clear H
         | H : Raise _ = Ok _ |- _ => discriminate H
         | H : match ?x with Some _ => _ | None => _ end = Ok _ |- _ =>
             destruct x eqn:?
         end.

Lemma dispatch_classical_state (backend : string) (qureg : list nat)
    (st st' : state) (operation : instruction) :
  dispatch backend qureg st operation = Ok st' ->
  classical_state st' =
  if String.eqb (op_name operation) "measure"
  then match (q <- index (op_qubits operation) 0 ;; index qureg q),
             index (op_clbits operation) 0 with
       | Ok qubit, Ok clbit =>
           set_bit_from_measurement (classical_state st) clbit
             (measure_outcome (sim st) qubit)
       | _, _ => classical_state st
       end
  else classical_state st.
Proof.
  destruct operation as [name params qubits clbits cond].
  unfold dispatch, name_in. cbn [op_name op_params op_qubits op_clbits].
  name_cases name.
  all: intro H; bind_inv; try reflexivity.
  rewrite Ha1. simpl. now rewrite Ha, Ha0.
Qed.

Lemma dispatch_measure (backend : string) (qureg : list nat)
    (st : state) (operation : instruction) :
  op_name operation = "measure" ->
  dispatch backend qureg st operation =
  (qubit <- (q <- index (op_qubits operation) 0 ;; index qureg q) ;;
   clbit <- index (op_clbits operation) 0 ;;
   Ok (with_classical_state (apply (KMeasure qubit) st)
         (set_bit_from_measurement (classical_state st) clbit
            (measure_outcome (sim st) qubit)))).
Proof. intro Hname. unfold dispatch. now rewrite Hname. Qed.

Lemma dispatch_reset (backend : string) (qureg : list nat)
    (st : state) (operation : instruction) :
  op_name operation = "reset" ->
  dispatch backend qureg st operation =
  (_ <- index (op_qubits operation) 0 ;;
   Raise (SimulatorError reset_message)).
Proof. intro Hname. unfold dispatch. now rewrite Hname. Qed.

Lemma step_classical_state (backend : string) (qureg : list nat)
    (st st' : state) (operation : instruction) :
  step backend qureg st operation = Ok st' ->
  classical_state st' =
  measure_into (classical_state st)
    (match measured qureg st operation with
     | Some m => [m]
     | None => []
     end).
Proof.
  unfold step, measured.
  destruct (evaluate_conditional _ _); simpl andb.
  - intro H. apply dispatch_classical_state in H. rewrite H.
    destruct (String.eqb (op_name operation) "measure"); [ | reflexivity].
    destruct (q <- index (op_qubits operation) 0 ;; index qureg q);
      [ | reflexivity].
    destruct (index (op_clbits operation) 0); reflexivity.
  - intro H. now inversion H.
Qed.

Lemma measure_into_app (s : Z) (ms ms' : list (nat * bool)) :
  measure_into s (ms ++ ms') = measure_into (measure_into s ms) ms'.
Proof. apply fold_left_app. Qed.

Lemma run_instructions_classical_state (backend : string)
    (qureg : list nat) (instructions : list instruction) :
  forall st st',
    run_instructions backend qureg st instructions = Ok st' ->
    classical_state st' =
    measure_into (classical_state st)
                 (measurements backend qureg st instructions).
Proof.
  induction instructions as [ | operation rest IH]; intros st st' H;
    simpl in *.
  - now inversion H.
  - bind_inv. rewrite Ha.
    rewrite (IH _ _ H), (step_classical_state _ _ _ _ _ Ha).
    destruct (measured qureg st operation); reflexivity.
Qed.

Lemma measure_all_classical_state (qureg : list nat) (inds : list nat) :
  forall st st',
    measure_all qureg inds st = Ok st' ->
    classical_state st' = classical_state st /\
    snapshots st' = snapshots st /\
    outcomes st' = outcomes st.
Proof.
  induction inds as [ | ind rest IH]; intros st st' H; simpl in *.
  - inversion H. auto.
  - bind_inv. apply IH in H. exact H.
Qed.

Lemma run_shot_classical_state (backend : string) (c : circuit)
    (qureg : list nat) (st st' : state) (i : nat) :
  run_shot backend c qureg st i = Ok st' ->
  classical_state st' =
  measure_into 0 (measurements backend qureg (shot_start qureg st i)
                               (circ_instructions c)).
Proof.
  unfold run_shot. intro H. bind_inv. simpl.
  apply measure_all_classical_state in Ha0. destruct Ha0 as [-> _].
  rewrite (run_instructions_classical_state _ _ _ _ _ Ha).
  now destruct i.
Qed.

(** Without conditional clauses every measure instruction of a run that
    succeeds makes its measurement. *)
Lemma measurements_targets (backend : string) (qureg : list nat)
    (instructions : list instruction) :
  Forall (fun operation => op_conditional operation = None) instructions ->
  forall st st',
    run_instructions backend qureg st instructions = Ok st' ->
    map fst (measurements backend qureg st instructions) =
    measure_targets instructions.
Proof.
  induction 1 as [ | operation rest Hcond _ IH]; intros st st' H;
    simpl in *.
  - reflexivity.
  - bind_inv. rewrite Ha. specialize (IH _ _ H).
    unfold measured. unfold step in Ha. rewrite Hcond in *. simpl in *.
    destruct (String.eqb_spec (op_name operation) "measure") as [Hm | Hm].
    + rewrite (dispatch_measure _ _ _ _ Hm) in Ha. bind_inv.
      rewrite Ha2. simpl. rewrite Ha0, Ha1. simpl. rewrite IH.
      unfold index in Ha1.
      destruct (op_clbits operation); simpl in *; congruence.
    + exact IH.
Qed.

(** C4 (amended).  In a circuit without conditional clauses whose measure
    instructions target pairwise distinct classical bits, the classical
    register at the end of a shot is the bitwise OR of the measured bits,
    each shifted to its target position, and making the same measurements
    in any other order gives the same value. *)
Theorem measurements_compose_by_or (backend : string) (c : circuit)
    (qureg : list nat) (st st' : state) (i : nat) :
  Forall (fun operation => op_conditional operation = None)
         (circ_instructions c) ->
  NoDup (measure_targets (circ_instructions c)) ->
  run_shot backend c qureg st i = Ok st' ->
  let ms := measurements backend qureg (shot_start qureg st i)
                         (circ_instructions c) in
  map fst ms = measure_targets (circ_instructions c) /\
  classical_state st' = or_of_measured_bits ms /\
  forall ms', Permutation ms ms' -> measure_into 0 ms' = classical_state st'.
Proof.
  intros Hcond Hnd Hrun ms.
  pose proof (run_shot_classical_state _ _ _ _ _ _ Hrun) as Hst.
  fold ms in Hst.
  assert (Htargets : map fst ms = measure_targets (circ_instructions c)).
  { unfold run_shot in Hrun. bind_inv.
    now apply (measurements_targets _ _ _ Hcond _ _ Ha). }
  assert (Hnd' : NoDup (map fst ms)) by now rewrite Htargets.
  split; [exact Htargets | split].
  - rewrite Hst. now apply measure_into_distinct_targets.
  - intros ms' Hperm.
    rewrite Hst, !measure_into_distinct_targets.
    + symmetry. now apply or_of_measured_bits_permutation.
    + exact Hnd'.
    + apply (Permutation_NoDup (l := map fst ms)); [ | exact Hnd'].
      now apply Permutation_map.
Qed.

(** ** Reset and the conditional screening *)

Lemma step_skipped (backend : string) (qureg : list nat) (st : state)
    (operation : instruction) :
  evaluate_conditional (classical_state st) (op_conditional operation)
  = false ->
  step backend qureg st operation = Ok st.
Proof. intro H. unfold step. now rewrite H. Qed.

Lemma step_reset (backend : string) (qureg : list nat) (st : state)
    (operation : instruction) :
  op_name operation = "reset" ->
  op_qubits operation <> [] ->
  evaluate_conditional (classical_state st) (op_conditional operation)
  = true ->
  step backend qureg st operation = Raise (SimulatorError reset_message).
Proof.
  intros Hname Hqubits Hcond. unfold step.
  rewrite Hcond, (dispatch_reset _ _ _ _ Hname).
  destruct (op_qubits operation); [now elim Hqubits | reflexivity].
Qed.

Lemma run_instructions_app (backend : string) (qureg : list nat)
    (pre post : list instruction) :
  forall st,
    run_instructions backend qureg st (pre ++ post) =
    (st' <- run_instructions backend qureg st pre ;;
     run_instructions backend qureg st' post).
Proof.
  induction pre as [ | operation pre IH]; intro st; simpl.
  - reflexivity.
  - destruct (step backend qureg st operation); simpl; [apply IH | reflexivity].
Qed.

Lemma setup_classical_state (c : circuit) (k : kernel) :
  shot_start (fst (setup c k)) (snd (setup c k)) 0 = snd (setup c k).
Proof.
  unfold setup. destruct (allocate_quregs _ _ _ _). reflexivity.
Qed.

Lemma execute_first_shot (backend : string) (_shots : Z) (c : circuit)
    (k : kernel) (e : exception) :
  0 < _shots ->
  run_instructions backend (fst (setup c k)) (snd (setup c k))
                   (circ_instructions c) = Raise e ->
  execute backend _shots c k = Raise e.
Proof.
  intros Hshots Hrun. unfold execute.
  destruct (Z.to_nat _shots) as [ | n] eqn:Hn; [lia | ].
  simpl. unfold run_shot at 1.
  now rewrite setup_classical_state, Hrun.
Qed.

(** C1 (amended).  The conditional screening applies to every instruction,
    reset and unrecognized operations included: an instruction whose
    clause evaluates false is skipped.  A circuit run for at least one
    shot fails with the 'Reset operation not yet implemented' error when
    its instruction list contains, at any position, a reset instruction
    that is reached (the instructions before it run without error) and
    whose clause, if it has one, evaluates true there. *)
Theorem reset_raises_when_reached :
  (forall backend qureg st operation,
     evaluate_conditional (classical_state st) (op_conditional operation)
     = false ->
     step backend qureg st operation = Ok st) /\
  (forall backend _seed _shots c k pre operation post st',
     0 < _shots ->
     circ_instructions c = (pre ++ operation :: post)%list ->
     op_name operation = "reset" ->
     op_qubits operation <> [] ->
     run_instructions backend (fst (setup c k)) (snd (setup c k)) pre
     = Ok st' ->
     evaluate_conditional (classical_state st') (op_conditional operation)
     = true ->
     run_circuit backend _seed _shots c k
     = Raise (SimulatorError reset_message)).
Proof.
  split; [exact step_skipped | ].
  intros backend _seed _shots c k pre operation post st'
         Hshots Hinstr Hname Hqubits Hpre Hcond.
  unfold run_circuit.
  destruct (classical_registers _ _) as [cl_reg_index cl_reg_nbits].
  rewrite (execute_first_shot backend _shots c k
             (SimulatorError reset_message)); [reflexivity | exact Hshots | ].
  rewrite Hinstr, run_instructions_app, Hpre. simpl.
  now rewrite (step_reset _ _ _ _ Hname Hqubits Hcond).
Qed.

(** ** The generic single-qubit unitary *)

(** C5.  An instruction named [U] or [u3] with parameters theta, phi,
    lambda makes the dispatcher send the kernel exactly three rotations of
    the target qubit, in this order: Rz(lambda), Ry(theta), Rz(phi);
    nothing else changes.  The loop body does the same for such an
    instruction when it passes the screening. *)
Theorem generic_unitary_is_three_rotations
    (backend : string) (qureg : list nat) (st : state)
    (operation : instruction) (theta phi lam : param) (more : list param)
    (q : nat) (more_qubits : list nat) (qubit : nat) :
  op_name operation = "U" \/ op_name operation = "u3" ->
  op_params operation = theta :: phi :: lam :: more ->
  op_qubits operation = q :: more_qubits ->
  nth_error qureg q = Some qubit ->
  let st' :=
    with_kernel st
      {| rnd_seed := rnd_seed (sim st);
         calls := (calls (sim st) ++
                   [KRz (Angle lam) qubit;
                    KRy (Angle theta) qubit;
                    KRz (Angle phi) qubit])%list |} in
  dispatch backend qureg st operation = Ok st' /\
  (evaluate_conditional (classical_state st) (op_conditional operation)
   = true ->
   step backend qureg st operation = Ok st').
Proof.
  intros Hname Hparams Hqubits Hqubit st'.
  assert (Hdispatch : dispatch backend qureg st operation = Ok st').
  { unfold dispatch, index.
    assert (Hin : name_in (op_name operation) ["U"; "u3"] = true)
      by (destruct Hname as [-> | ->]; reflexivity).
    rewrite Hin, Hparams, Hqubits. simpl. rewrite Hqubit. simpl.
    unfold st', apply, with_kernel, call. simpl.
    now rewrite <- !app_assoc. }
  split; [exact Hdispatch | ].
  intro Hcond. unfold step. now rewrite Hcond.
Qed.

(** ** Per-circuit configuration *)

Lemma dispatch_rnd_seed (backend : string) (qureg : list nat)
    (st st' : state) (operation : instruction) :
  dispatch backend qureg st operation = Ok st' ->
  rnd_seed (sim st') = rnd_seed (sim st) /\ outcomes st' = outcomes st.
Proof.
  destruct operation as [name params qubits clbits cond].
  unfold dispatch, name_in. cbn [op_name op_params op_qubits op_clbits].
  name_cases name.
  all: intro H; bind_inv; split; reflexivity.
Qed.

Lemma run_instructions_rnd_seed (backend : string) (qureg : list nat)
    (instructions : list instruction) :
  forall st st',
    run_instructions backend qureg st instructions = Ok st' ->
    rnd_seed (sim st') = rnd_seed (sim st) /\ outcomes st' = outcomes st.
Proof.
  induction instructions as [ | operation rest IH]; intros st st' H;
    simpl in *.
  - inversion H. auto.
  - bind_inv. apply IH in H. destruct H as [-> ->].
    unfold step in Ha.
    destruct (evaluate_conditional _ _).
    + now apply dispatch_rnd_seed in Ha.
    + inversion Ha. auto.
Qed.

Lemma measure_all_rnd_seed (qureg : list nat) (inds : list nat) :
  forall st st',
    measure_all qureg inds st = Ok st' ->
    rnd_seed (sim st') = rnd_seed (sim st).
Proof.
  induction inds as [ | ind rest IH]; intros st st' H; simpl in *.
  - now inversion H.
  - bind_inv. now apply IH in H.
Qed.

Lemma run_shot_rnd_seed (backend : string) (c : circuit) (qureg : list nat)
    (st st' : state) (i : nat) :
  run_shot backend c qureg st i = Ok st' ->
  rnd_seed (sim st') = rnd_seed (sim st) /\
  List.length (outcomes st') = S (List.length (outcomes st)).
Proof.
  unfold run_shot. intro H. bind_inv. simpl.
  pose proof (measure_all_rnd_seed _ _ _ _ Ha0) as Hseed.
  apply measure_all_classical_state in Ha0. destruct Ha0 as [_ [_ Hout]].
  apply run_instructions_rnd_seed in Ha. destruct Ha as [Hseed' Hout'].
  rewrite Hseed, Hseed', Hout, Hout', length_app. simpl.
  split; [now destruct i | destruct i; simpl; lia].
Qed.

Lemma run_shots_rnd_seed (backend : string) (c : circuit) (qureg : list nat)
    (shots : list nat) :
  forall st st',
    run_shots backend c qureg st shots = Ok st' ->
    rnd_seed (sim st') = rnd_seed (sim st) /\
    List.length (outcomes st') =
    (List.length (outcomes st) + List.length shots)%nat.
Proof.
  induction shots as [ | i rest IH]; intros st st' H; simpl in *.
  - inversion H. split; [reflexivity | lia].
  - bind_inv. apply IH in H. destruct H as [-> ->].
    apply run_shot_rnd_seed in Ha. destruct Ha as [-> ->].
    split; [reflexivity | lia].
Qed.

Lemma allocate_quregs_rnd_seed (quregs : list (string * nat)) :
  forall next k acc,
    rnd_seed (snd (allocate_quregs quregs next k acc)) = rnd_seed k.
Proof.
  induction quregs as [ | [key size] rest IH]; intros next k acc; simpl.
  - reflexivity.
  - rewrite IH. generalize (seq next size). intro qubits. revert k.
    induction qubits as [ | q qubits IHq]; intro k; simpl.
    + reflexivity.
    + now rewrite IHq.
Qed.

Lemma setup_rnd_seed (c : circuit) (k : kernel) :
  rnd_seed (sim (snd (setup c k))) = rnd_seed (circuit_kernel c k) /\
  outcomes (snd (setup c k)) = [].
Proof.
  unfold setup.
  pose proof (allocate_quregs_rnd_seed
                (Dict.of_list
                   (_get_register_specs (qubit_labels (circ_header c))))
                0%nat (circuit_kernel c k) Dict.empty) as H.
  destruct (allocate_quregs _ _ _ _) as [d k']. simpl in *. auto.
Qed.

(** A circuit with another shot count in its own configuration. *)
Lemma run_shots_same_instructions (backend : string) (c c' : circuit)
    (qureg : list nat) (shots : list nat) :
  circ_header c = circ_header c' ->
  circ_instructions c = circ_instructions c' ->
  forall st,
    run_shots backend c qureg st shots = run_shots backend c' qureg st shots.
Proof.
  intros Hh Hi. induction shots as [ | i rest IH]; intro st; simpl.
  - reflexivity.
  - assert (Hshot : run_shot backend c qureg st i =
                    run_shot backend c' qureg st i)
      by (unfold run_shot; now rewrite Hh, Hi).
    rewrite Hshot.
    destruct (run_shot backend c' qureg st i); simpl;
      [apply IH | reflexivity].
Qed.

(** C3 (amended).  A per-circuit configuration with a nonzero seed makes
    the circuit run on a simulator seeded with that seed.  The number of
    shots executed is the shot count of the job: the shot count of the
    circuit's own configuration is not read, and the run is the same
    whatever it is. *)
Theorem circuit_seed_overrides_job_shots_stand
    (backend : string) (_seed _shots : Z) (c : circuit) (k : kernel)
    (cfg : config) :
  circ_config c = Some cfg ->
  (forall seed st,
     cfg_seed cfg = Some seed ->
     seed <> 0 ->
     execute backend _shots c k = Ok st ->
     circuit_kernel c k = CppSim seed /\ rnd_seed (sim st) = seed) /\
  (forall st,
     execute backend _shots c k = Ok st ->
     List.length (outcomes st) = Z.to_nat _shots) /\
  (forall shots',
     run_circuit backend _seed _shots
       (with_config c {| cfg_seed := cfg_seed cfg; cfg_shots := shots' |}) k
     = run_circuit backend _seed _shots c k).
Proof.
  intro Hcfg. split; [ | split].
  - intros seed st Hseed Hnz Hrun.
    assert (Hk : circuit_kernel c k = CppSim seed).
    { unfold circuit_kernel. rewrite Hcfg, Hseed.
      destruct (Z.eqb_spec seed 0); [contradiction | reflexivity]. }
    split; [exact Hk | ].
    unfold execute in Hrun. apply run_shots_rnd_seed in Hrun.
    destruct Hrun as [-> _].
    destruct (setup_rnd_seed c k) as [-> _]. now rewrite Hk.
  - intros st Hrun.
    unfold execute in Hrun. apply run_shots_rnd_seed in Hrun.
    destruct Hrun as [_ ->].
    destruct (setup_rnd_seed c k) as [_ ->]. simpl. apply length_seq.
  - intro shots'.
    unfold run_circuit, execute, setup, circuit_kernel, with_config.
    cbn [circ_header circ_config circ_instructions cfg_seed].
    rewrite Hcfg.
    destruct (classical_registers _ _) as [cl_reg_index cl_reg_nbits].
    destruct (allocate_quregs _ _ _ _) as [d k']. cbn [fst snd].
    now rewrite (run_shots_same_instructions backend _ c).
Qed.

(** ** Dictionaries *)

Lemma eqb_neq_false (k k' : string) : k <> k' -> String.eqb k k' = false.
Proof. intro H. now apply String.eqb_neq. Qed.

Lemma Dict_get_not_in {V : Type} (k : string) (d : Dict.t V) :
  ~ In k (Dict.keys d) -> Dict.get k d = None.
Proof.
  induction d as [ | [k' v'] d IH]; simpl; intro H.
  - reflexivity.
  - rewrite eqb_neq_false by (intro; subst; apply H; now left).
    apply IH. intro; apply H; now right.
Qed.

Lemma Dict_set_fresh {V : Type} (k : string) (v : V) (d : Dict.t V) :
  ~ In k (Dict.keys d) -> Dict.set k v d = (d ++ [(k, v)])%list.
Proof.
  induction d as [ | [k' v'] d IH]; simpl; intro H.
  - reflexivity.
  - rewrite eqb_neq_false by (intro; subst; apply H; now left).
    rewrite IH; [reflexivity | intro; apply H; now right].
Qed.

Lemma Dict_get_app_fresh {V : Type} (k : string) (v : V) (d : Dict.t V) :
  ~ In k (Dict.keys d) -> Dict.get k (d ++ [(k, v)])%list = Some v.
Proof.
  induction d as [ | [k' v'] d IH]; simpl; intro H.
  - now rewrite String.eqb_refl.
  - rewrite eqb_neq_false by (intro; subst; apply H; now left).
    apply IH. intro; apply H; now right.
Qed.

Lemma Dict_remove_app_fresh {V : Type} (k : string) (v : V) (d : Dict.t V) :
  ~ In k (Dict.keys d) -> Dict.remove k (d ++ [(k, v)])%list = d.
Proof.
  induction d as [ | [k' v'] d IH]; simpl; intro H.
  - now rewrite String.eqb_refl.
  - rewrite eqb_neq_false by (intro; subst; apply H; now left).
    rewrite IH; [reflexivity | intro; apply H; now right].
Qed.

Lemma Dict_fold_set_fresh {V : Type} (l : list (string * V)) :
  forall acc : Dict.t V,
    NoDup (map fst (acc ++ l)%list) ->
    fold_left (fun d kv => Dict.set (fst kv) (snd kv) d) l acc
    = (acc ++ l)%list.
Proof.
  induction l as [ | [k v] l IH]; intros acc Hnd; simpl.
  - now rewrite app_nil_r.
  - assert (Hfresh : ~ In k (Dict.keys acc)).
    { rewrite map_app in Hnd. simpl in Hnd.
      apply NoDup_remove_2 in Hnd. intro Hin. apply Hnd.
      apply in_or_app. now left. }
    rewrite (Dict_set_fresh _ _ _ Hfresh), IH, <- app_assoc; [reflexivity | ].
    now rewrite <- app_assoc.
Qed.

Lemma Dict_of_list_distinct {V : Type} (l : list (string * V)) :
  NoDup (map fst l) -> Dict.of_list l = l.
Proof. intro H. unfold Dict.of_list. now rewrite Dict_fold_set_fresh. Qed.

(** ** The register layout *)

Lemma groupby_run (name : string) (inds : list nat) :
  forall (ind : nat) (rest : list (string * nat)),
    match groupby rest with
    | (name', _) :: _ => name <> name'
    | [] => True
    end ->
    groupby (labels_of_run (name, (ind, inds)) ++ rest)%list
    = (name, (ind, inds)) :: groupby rest.
Proof.
  unfold labels_of_run. cbn [fst snd].
  induction inds as [ | ind' inds IH]; intros ind rest Hrest.
  - simpl. destruct (groupby rest) as [ | [name' [i l]] groups].
    + reflexivity.
    + now rewrite eqb_neq_false.
  - change (groupby (map (pair name) (ind :: ind' :: inds) ++ rest)%list)
      with (match groupby (map (pair name) (ind' :: inds) ++ rest)%list with
            | (name', (i, l)) :: groups =>
                if String.eqb name name'
                then (name, (ind, i :: l)) :: groups
                else (name, (ind, [])) :: (name', (i, l)) :: groups
            | [] => [(name, (ind, []))]
            end).
    rewrite (IH ind' rest Hrest). now rewrite String.eqb_refl.
Qed.

Lemma groupby_runs (runs : list (string * (nat * list nat))) :
  NoDup (map fst runs) -> groupby (flat_map labels_of_run runs) = runs.
Proof.
  induction runs as [ | [name [ind inds]] runs IH]; intro Hnd.
  - reflexivity.
  - inversion Hnd as [ | ? ? Hnotin Hnd']; subst.
    change (flat_map labels_of_run ((name, (ind, inds)) :: runs))
      with (labels_of_run (name, (ind, inds))
            ++ flat_map labels_of_run runs)%list.
    rewrite groupby_run; rewrite (IH Hnd').
    + reflexivity.
    + destruct runs as [ | [name' g] runs]; [exact I | ].
      intro Heq. apply Hnotin. left. now rewrite Heq.
Qed.

Lemma max_of_list_max (ind : nat) (inds : list nat) :
  max_of (ind, inds) = list_max (ind :: inds).
Proof.
  unfold max_of. cbn [fst snd list_max fold_right]. revert ind.
  induction inds as [ | i inds IH]; intro ind; simpl.
  - now rewrite Nat.max_0_r.
  - rewrite IH. simpl. now rewrite Nat.max_assoc.
Qed.

(** C6.  When the labels of each register form one contiguous run, the
    resolver yields one (name, size) entry for each run, in the order of
    first appearance, the size being one plus the largest local index of
    the run; the ordered mapping built from these entries keeps them as
    they are.  The labels c0, c1, d0 give c of size 2, then d of size 1. *)
Theorem register_specs_of_contiguous_runs :
  (forall runs : list (string * (nat * list nat)),
     NoDup (map fst runs) ->
     let specs :=
       map (fun run =>
              (fst run, S (list_max (fst (snd run) :: snd (snd run)))))
           runs in
     _get_register_specs (flat_map labels_of_run runs) = specs /\
     Dict.of_list (_get_register_specs (flat_map labels_of_run runs))
     = specs) /\
  _get_register_specs [("c", 0%nat); ("c", 1%nat); ("d", 0%nat)]
  = [("c", 2%nat); ("d", 1%nat)] /\
  Dict.of_list
    (_get_register_specs [("c", 0%nat); ("c", 1%nat); ("d", 0%nat)])
  = [("c", 2%nat); ("d", 1%nat)].
Proof.
  split; [ | split; reflexivity].
  intros runs Hnd specs.
  assert (Hspecs : _get_register_specs (flat_map labels_of_run runs) = specs).
  { unfold _get_register_specs, specs. rewrite (groupby_runs runs Hnd).
    apply map_ext. intros [name [ind inds]]. cbn [fst snd].
    now rewrite max_of_list_max, Nat.add_1_r. }
  split; [exact Hspecs | ].
  rewrite Hspecs. apply Dict_of_list_distinct.
  unfold specs. rewrite map_map. exact Hnd.
Qed.

(** ** The result formatter *)


Lemma length_list_ascii_of_string (s : string) :
  List.length (list_ascii_of_string s) = String.length s.
Proof. induction s; simpl; congruence. Qed.











Lemma Forall2_In_r {A B : Type} (R : A -> B -> Prop)
    (l : list A) (l' : list B) (y : B) :
  Forall2 R l l' -> In y l' -> exists x, In x l /\ R x y.
Proof.
  induction 1 as [ | x y' l l' HR _ IH]; intro Hin.
  - destruct Hin.
  - destruct Hin as [-> | Hin].
    + exists x. split; [now left | exact HR].
    + destruct (IH Hin) as [x' [Hin' HR']]. exists x'. split;
        [now right | exact HR'].
Qed.

Lemma NoDup_snoc {A : Type} (l : list A) (a : A) :
  NoDup l -> ~ In a l -> NoDup (l ++ [a])%list.
Proof.
  intros Hnd Hnotin.
  apply (NoDup_Add (Add_app a l [])).
  rewrite app_nil_r. auto.
Qed.



(** ** Validation of the statevector backend *)

Lemma rejected_iff (c : circuit) :
  rejected c = true <->
  exists operator,
    In operator (circ_instructions c) /\
    (op_name operator = "measure" \/ op_name operator = "reset").
Proof.
  unfold rejected, name_in. rewrite existsb_exists.
  split; intros [operator [Hin H]]; exists operator; (split; [exact Hin | ]).
  - simpl in H.
    destruct (String.eqb_spec (op_name operator) "measure"); [now left | ].
    destruct (String.eqb_spec (op_name operator) "reset"); [now right | ].
    discriminate.
  - destruct H as [-> | ->]; reflexivity.
Qed.

Lemma set_shots_to_1_logs (cfg : config) (name : option string)
    (include_name : bool) :
  cfg_shots cfg <> Some 1 ->
  snd (_set_shots_to_1 (Some cfg) name include_name) =
  [LoggerInfo
     (shots_message ++
      (if include_name
       then match name with
            | Some n => "Setting shots=1 for circuit" ++ n
            | None => ""
            end
       else "") ++ ".")].
Proof.
  intro H. unfold _set_shots_to_1. cbn [snd].
  destruct (cfg_shots cfg) as [[ | [p | p | ] | p] | ];
    try reflexivity.
  now elim H.
Qed.

Lemma validate_experiments_raised (circuits : list circuit) :
  (Forall (fun c => rejected c = false) circuits ->
   snd (validate_experiments circuits) = None) /\
  (Exists (fun c => rejected c = true) circuits ->
   exists c,
     In c circuits /\ rejected c = true /\
     snd (validate_experiments circuits)
     = Some (SimulatorError (unsupported_message (hdr_name (circ_header c))))).
Proof.
  induction circuits as [ | c rest [IHok IHraise]]; simpl.
  - split; [reflexivity | intro H; inversion H].
  - destruct (rejected c) eqn:Hc.
    + split.
      * intro H. inversion H; congruence.
      * intros _. exists c. auto.
    + destruct (validate_experiments rest) as [[rest' log'] raised].
      simpl in *. split.
      * intro H. inversion H. auto.
      * intro H. inversion H as [? ? Hhd | ? ? Htl]; subst; [congruence | ].
        destruct (IHraise Htl) as [c' [Hin [Hrej Hraised]]].
        exists c'. auto.
Qed.

Lemma validate_experiments_reached (pre : list circuit) :
  forall (c : circuit) (post : list circuit),
    Forall (fun c' => rejected c' = false) pre ->
    let v := validate_experiments (pre ++ c :: post)%list in
    nth_error (fst (fst v)) (List.length pre) = Some (forced c) /\
    incl (snd (_set_shots_to_1 (circ_config c)
                               (Some (hdr_name (circ_header c))) true))
         (snd (fst v)).
Proof.
  induction pre as [ | c' pre IH]; intros c post Hpre; simpl.
  - destruct (rejected c).
    + simpl. split; [reflexivity | apply incl_refl].
    + destruct (validate_experiments post) as [[rest' log'] raised]. simpl.
      split; [reflexivity | now apply incl_appl, incl_refl].
  - inversion Hpre as [ | ? ? Hc' Hpre']; subst. rewrite Hc'.
    specialize (IH c post Hpre'). simpl in IH.
    destruct (validate_experiments (pre ++ c :: post)%list)
      as [[rest' log'] raised].
    simpl in *. destruct IH as [IH1 IH2].
    split; [exact IH1 | now apply incl_appr].
Qed.

Lemma validate_experiments_accepted (circuits : list circuit) :
  snd (validate_experiments circuits) = None ->
  fst (fst (validate_experiments circuits)) = map forced circuits.
Proof.
  induction circuits as [ | c rest IH]; simpl.
  - reflexivity.
  - destruct (rejected c); [discriminate | ].
    destruct (validate_experiments rest) as [[rest' log'] raised].
    simpl in *. intro H. now rewrite (IH H).
Qed.

Lemma statevector_validate_accepted (q : qobj) :
  v_raised (statevector_validate q) = None ->
  experiments (v_qobj (statevector_validate q)) = map forced (experiments q)
  /\ exists cfg,
       qobj_config (v_qobj (statevector_validate q)) = Some cfg /\
       cfg_shots cfg = Some 1.
Proof.
  unfold statevector_validate.
  pose proof (validate_experiments_accepted (experiments q)) as H.
  destruct (validate_experiments (experiments q)) as [[circuits log] raised].
  simpl in *. intro Hraised. split; [now apply H | ].
  eexists. split; reflexivity.
Qed.

Lemma validate_experiments_rejected (pre : list circuit) :
  forall (c : circuit) (post : list circuit),
    Forall (fun c' => rejected c' = false) pre ->
    rejected c = true ->
    fst (fst (validate_experiments (pre ++ c :: post)%list))
    = (map forced pre ++ forced c :: post)%list.
Proof.
  induction pre as [ | c' pre IH]; intros c post Hpre Hc; simpl.
  - now rewrite Hc.
  - inversion Hpre as [ | ? ? Hc' Hpre']; subst. rewrite Hc'.
    specialize (IH c post Hpre' Hc).
    destruct (validate_experiments (pre ++ c :: post)%list)
      as [[rest' log'] raised].
    simpl in *. now rewrite IH.
Qed.

(** C8.  The validation of the statevector backend raises an error exactly
    when some circuit of the job has a measure or a reset instruction.  It
    sets the shot count of the job to 1, and that of every circuit it
    reaches before it raises, so of every circuit of a job it accepts; it
    creates the configuration with shots = 1 where there is none, and it
    logs a diagnostic for every configuration whose shot count was not
    already 1.  In a job it rejects, the circuits after the first one with
    a measure or a reset are left as they were. *)
Theorem statevector_validate_rejects_and_forces_one_shot (q : qobj) :
  let v := statevector_validate q in
  ((exists c operator,
      In c (experiments q) /\ In operator (circ_instructions c) /\
      (op_name operator = "measure" \/ op_name operator = "reset")) <->
   (exists name,
      v_raised v = Some (SimulatorError (unsupported_message name)))) /\
  (exists cfg,
     qobj_config (v_qobj v) = Some cfg /\ cfg_shots cfg = Some 1 /\
     (qobj_config q = None ->
      cfg = {| cfg_seed := None; cfg_shots := Some 1 |})) /\
  (forall cfg,
     qobj_config q = Some cfg -> cfg_shots cfg <> Some 1 ->
     In (LoggerInfo (shots_message ++ ".")) (v_log v)) /\
  (forall pre c post,
     experiments q = (pre ++ c :: post)%list ->
     Forall (fun c' => rejected c' = false) pre ->
     exists cfg,
       nth_error (experiments (v_qobj v)) (List.length pre)
       = Some (with_config c cfg) /\
       cfg_shots cfg = Some 1 /\
       (circ_config c = None ->
        cfg = {| cfg_seed := None; cfg_shots := Some 1 |}) /\
       (forall cfg0,
          circ_config c = Some cfg0 -> cfg_shots cfg0 <> Some 1 ->
          In (LoggerInfo
                (shots_message ++
                 ("Setting shots=1 for circuit" ++ hdr_name (circ_header c))
                 ++ "."))
             (v_log v))) /\
  (v_raised v = None ->
   experiments (v_qobj v) = map forced (experiments q) /\
   Forall (fun c => exists cfg,
                      circ_config c = Some cfg /\ cfg_shots cfg = Some 1)
          (experiments (v_qobj v))) /\
  (forall pre c post,
     experiments q = (pre ++ c :: post)%list ->
     Forall (fun c' => rejected c' = false) pre ->
     rejected c = true ->
     experiments (v_qobj v) = (map forced pre ++ forced c :: post)%list).
Proof.
  intro v.
  assert (Hall : v_raised v = None ->
                 experiments (v_qobj v) = map forced (experiments q) /\
                 Forall (fun c => exists cfg,
                                    circ_config c = Some cfg /\
                                    cfg_shots cfg = Some 1)
                        (experiments (v_qobj v))).
  { intro Hraised.
    destruct (statevector_validate_accepted q Hraised) as [Hcircuits _].
    split; [exact Hcircuits | ]. unfold v. rewrite Hcircuits.
    apply Forall_map, Forall_forall. intros c _.
    eexists. split; reflexivity. }
  revert Hall. unfold v, statevector_validate.
  destruct (_set_shots_to_1 (qobj_config q) None false) as [cfg log] eqn:Hjob.
  destruct (validate_experiments (experiments q))
    as [[circuits log'] raised] eqn:Hcircuits.
  cbn [v_raised v_qobj v_log qobj_config experiments].
  pose proof (validate_experiments_raised (experiments q)) as [Hok Hraise].
  rewrite Hcircuits in Hok, Hraise. cbn [snd] in Hok, Hraise.
  intro Haccepted.
  split; [ | split; [ | split; [ | split; [ | split;
                                               [exact Haccepted | ]]]]].
  - split.
    + intros [c [operator [Hc Hop]]].
      destruct Hraise as [c' [_ [_ ->]]]; [ | eauto].
      apply Exists_exists. exists c. split; [exact Hc | ].
      apply rejected_iff. now exists operator.
    + intros [name Hname].
      destruct (Forall_Exists_dec (fun c => rejected c = false)
                  (fun c => bool_dec (rejected c) false) (experiments q))
        as [Hall | Hex].
      * rewrite (Hok Hall) in Hname. discriminate.
      * apply Exists_exists in Hex. destruct Hex as [c [Hc Hrej]].
        apply not_false_is_true, rejected_iff in Hrej.
        destruct Hrej as [operator Hop]. exists c, operator. tauto.
  - exists cfg. unfold _set_shots_to_1 in Hjob. injection Hjob as <- _.
    repeat split. now intros ->.
  - intros cfg0 Hcfg0 Hshots.
    pose proof (set_shots_to_1_logs cfg0 None false Hshots) as Hlog.
    rewrite <- Hcfg0, Hjob in Hlog. cbn [snd] in Hlog. subst log.
    now left.
  - intros pre c post Hq Hpre.
    pose proof (validate_experiments_reached pre c post Hpre) as Hreached.
    rewrite <- Hq, Hcircuits in Hreached. cbn [fst snd] in Hreached.
    destruct Hreached as [Hnth Hincl].
    exists (fst (_set_shots_to_1 (circ_config c)
                   (Some (hdr_name (circ_header c))) true)).
    split; [exact Hnth | ]. unfold _set_shots_to_1 at 1 2. cbn [fst cfg_shots].
    split; [reflexivity | split].
    + now intros ->.
    + intros cfg0 Hcfg0 Hshots. apply in_or_app. right. apply Hincl.
      rewrite Hcfg0, (set_shots_to_1_logs cfg0 _ true Hshots). now left.
  - intros pre c post Hq Hpre Hc.
    pose proof (validate_experiments_rejected pre c post Hpre Hc) as Hleft.
    rewrite <- Hq, Hcircuits in Hleft. exact Hleft.
Qed.

(** ** The final state of the statevector backend *)

Lemma Dict_get_set_other {V : Type} (k k' : string) (v : V) (d : Dict.t V) :
  k <> k' -> Dict.get k (Dict.set k' v d) = Dict.get k d.
Proof.
  intro Hne. induction d as [ | [k'' v''] d IH]; simpl.
  - now rewrite eqb_neq_false.
  - destruct (String.eqb_spec k' k'') as [<- | Hk]; simpl.
    + now rewrite !eqb_neq_false.
    + now rewrite IH.
Qed.

Lemma Dict_get_None_keys {V : Type} (k : string) (d : Dict.t V) :
  Dict.get k d = None -> ~ In k (Dict.keys d).
Proof.
  induction d as [ | [k' v'] d IH]; simpl; intro H.
  - tauto.
  - destruct (String.eqb_spec k k'); [discriminate | ].
    intros [Heq | Hin]; [congruence | now apply IH].
Qed.

Lemma dispatch_snapshots (backend : string) (qureg : list nat)
    (st st' : state) (operation : instruction) (location : string) :
  dispatch backend qureg st operation = Ok st' ->
  snapshot_at location operation = false ->
  Dict.get location (snapshots st) = None ->
  Dict.get location (snapshots st') = None.
Proof.
  destruct operation as [name params qubits clbits cond].
  unfold dispatch, name_in, snapshot_at.
  cbn [op_name op_params op_qubits op_clbits].
  name_cases name.
  all: intros H Hat Hget; bind_inv; try assumption.
  all: unfold index in Ha; destruct (nth_error params 0); try discriminate;
    injection Ha as ->; simpl in Hat;
    cbn [snapshots with_snapshots apply with_kernel];
    rewrite Dict_get_set_other; try assumption;
    intro Heq; rewrite Heq, String.eqb_refl in Hat; discriminate.
Qed.

Lemma run_instructions_snapshots (backend : string) (qureg : list nat)
    (location : string) (instructions : list instruction) :
  Forall (fun operation => snapshot_at location operation = false)
         instructions ->
  forall st st',
    run_instructions backend qureg st instructions = Ok st' ->
    Dict.get location (snapshots st) = None ->
    Dict.get location (snapshots st') = None.
Proof.
  induction 1 as [ | operation rest Hat _ IH]; intros st st' H Hget;
    simpl in *.
  - inversion H. now subst.
  - bind_inv. apply (IH _ _ H).
    unfold step in Ha. destruct (evaluate_conditional _ _).
    + now apply (dispatch_snapshots _ _ _ _ _ _ Ha Hat).
    + inversion Ha. now subst.
Qed.

Lemma setup_snapshots (c : circuit) (k : kernel) :
  snapshots (snd (setup c k)) = Dict.empty.
Proof. unfold setup. now destruct (allocate_quregs _ _ _ _). Qed.

Lemma setup_append_final_snapshot (c : circuit) (k : kernel) :
  setup (append_final_snapshot c) k = setup c k.
Proof. reflexivity. Qed.

Lemma step_final_snapshot (backend : string) (qureg : list nat)
    (st : state) :
  Dict.get "32767" (snapshots st) = None ->
  step backend qureg st final_snapshot =
  Ok (with_snapshots (apply KFlush st)
        (snapshots st ++ [("32767", [cheat (call KFlush (sim st))])])%list).
Proof.
  intro Hget. unfold step, dispatch. simpl.
  change (str_int final_state_key) with "32767".
  rewrite Hget. f_equal. f_equal.
  apply Dict_set_fresh. now apply Dict_get_None_keys.
Qed.

Lemma run_shot_final_snapshot (backend : string) (c : circuit)
    (qureg : list nat) (st st' : state) :
  Forall (fun operation => snapshot_at "32767" operation = false)
         (circ_instructions c) ->
  Dict.get "32767" (snapshots st) = None ->
  run_shot backend (append_final_snapshot c) qureg st 0 = Ok st' ->
  exists st1,
    run_instructions backend qureg (shot_start qureg st 0)
                     (circ_instructions c) = Ok st1 /\
    snapshots st'
    = (snapshots st1 ++ [("32767", [cheat (call KFlush (sim st1))])])%list.
Proof.
  intros Hat Hget Hrun. unfold run_shot in Hrun.
  cbn [append_final_snapshot circ_instructions circ_header] in Hrun.
  rewrite run_instructions_app in Hrun. bind_inv.
  exists a1. split; [exact Ha1 | ].
  simpl in Ha.
  rewrite step_final_snapshot in Ha
    by (apply (run_instructions_snapshots _ _ _ _ Hat _ _ Ha1); exact Hget).
  simpl in Ha. injection Ha as <-.
  apply measure_all_classical_state in Ha0. destruct Ha0 as [_ [Hsnap _]].
  simpl. rewrite Hsnap. reflexivity.
Qed.

(** One circuit of a statevector job, with its final snapshot appended,
    run for one shot, and the extraction that follows. *)
Lemma final_state_published (backend : string) (_seed : Z) (c : circuit)
    (k k' : kernel) (res : experiment_result) (key : sentinel) :
  Forall (fun operation => snapshot_at "32767" operation = false)
         (circ_instructions c) ->
  run_circuit backend _seed 1 (append_final_snapshot c) k = Ok (res, k') ->
  sentinel_str key = "32767" ->
  exists st1 res',
    run_instructions backend (fst (setup c k)) (snd (setup c k))
                     (circ_instructions c) = Ok st1 /\
    data_snapshots (res_data res)
    = Some (snapshots st1
            ++ [("32767", [cheat (call KFlush (sim st1))])])%list /\
    extract_final_state key res = Ok (SStr "32767", res') /\
    data_statevector (res_data res')
    = Some (cheat (call KFlush (sim st1))) /\
    data_snapshots (res_data res')
    = (if Dict.is_empty (snapshots st1) then None
       else Some (snapshots st1)) /\
    data_counts (res_data res') = data_counts (res_data res) /\
    res_name res' = res_name res.
Proof.
  intros Hat Hrun Hkey. unfold run_circuit in Hrun.
  destruct (classical_registers _ _) as [cl_reg_index cl_reg_nbits].
  bind_inv. unfold execute in Ha.
  rewrite setup_append_final_snapshot in Ha.
  change (seq 0 (Z.to_nat 1)) with [0%nat] in Ha. simpl run_shots in Ha.
  bind_inv.
  destruct (run_shot_final_snapshot backend c _ _ _ Hat
              (eq_trans (f_equal (Dict.get "32767") (setup_snapshots c k))
                        eq_refl) Ha1)
    as [st1 [Hst1 Hsnap]].
  rewrite setup_classical_state in Hst1.
  assert (Hfresh : ~ In "32767" (Dict.keys (snapshots st1))).
  { apply Dict_get_None_keys.
    apply (run_instructions_snapshots _ _ _ _ Hat _ _ Hst1).
    now rewrite setup_snapshots. }
  eexists st1, _. split; [exact Hst1 | ].
  cbn [res_data data_snapshots fst]. rewrite Hsnap.
  split; [now destruct (snapshots st1) | ].
  unfold extract_final_state. cbn [res_data data_snapshots].
  assert (Hnonempty :
            Dict.is_empty
              (snapshots st1
               ++ [("32767", [cheat (call KFlush (sim st1))])])%list
            = false) by now destruct (snapshots st1).
  rewrite Hnonempty. cbn [bind]. rewrite Hkey.
  rewrite (Dict_get_app_fresh _ _ _ Hfresh).
  unfold Dict.pop.
  rewrite (Dict_get_app_fresh _ _ _ Hfresh),
    (Dict_remove_app_fresh _ _ _ Hfresh).
  cbn [bind index nth_error].
  split; [reflexivity | ].
  cbn [res_data data_statevector data_snapshots data_counts res_name].
  repeat split.
Qed.

Lemma forced_append_final_snapshot (c : circuit) :
  forced (append_final_snapshot (forced c)) = append_final_snapshot (forced c).
Proof. reflexivity. Qed.

Lemma setup_forced (c : circuit) (k : kernel) :
  setup (forced c) k = setup c k.
Proof.
  unfold setup, forced, circuit_kernel, with_config, _set_shots_to_1.
  cbn [circ_header circ_config fst cfg_seed].
  now destruct (circ_config c).
Qed.

Lemma run_circuits_each (backend : string) (_seed _shots : Z)
    (F : circuit -> circuit) (circuits : list circuit) :
  forall (k : kernel) (result_list : list experiment_result),
    run_circuits backend _seed _shots (map F circuits) k = Ok result_list ->
    Forall2
      (fun c res =>
         res_seed res = _seed /\
         exists k0 k', run_circuit backend _seed _shots (F c) k0
                       = Ok (res, k'))
      circuits result_list.
Proof.
  induction circuits as [ | c rest IH]; intros k result_list H; simpl in H.
  - injection H as <-. constructor.
  - bind_inv. constructor.
    + destruct a as [res k']. cbn [fst]. split.
      * clear - Ha. unfold run_circuit in Ha.
        destruct (classical_registers _ _). bind_inv. reflexivity.
      * eauto.
    + eapply IH. eassumption.
Qed.

Lemma final_state_extracted (backend : string) (c : circuit)
    (k0 k' : kernel) (res0 res' : experiment_result) (key : sentinel) :
  Forall (fun operation => snapshot_at "32767" operation = false)
         (circ_instructions c) ->
  run_circuit backend (res_seed res0) 1 (append_final_snapshot (forced c)) k0
  = Ok (res0, k') ->
  sentinel_str key = "32767" ->
  extract_final_state key res0 = Ok (SStr "32767", res') ->
  publishes_final_state backend c res'.
Proof.
  intros Hat Hrun Hkey Hextract.
  destruct (final_state_published backend (res_seed res0) (forced c)
              k0 k' res0 key Hat Hrun Hkey)
    as [st1 [res'' [Hst1 [Hsnap [Hext [Hvec [Hsnap' [_ _]]]]]]]].
  rewrite Hext in Hextract. injection Hextract as <-.
  exists k0, k', res0, key, st1.
  rewrite setup_forced in Hst1.
  assert (Hseed' : res_seed res'' = res_seed res0).
  { clear - Hext. unfold extract_final_state in Hext.
    bind_inv. destruct (match _ with SInt _ => _ | SStr _ => _ end).
    bind_inv. reflexivity. }
  rewrite Hseed'. repeat split; assumption.
Qed.

(** * Further properties of the code *)

(** ** Errors of the instruction loop *)

Lemma index_Raise {A : Type} (l : list A) (i : nat) (e : exception) :
  index l i = Raise e -> e = IndexError.
Proof. unfold index. destruct (nth_error l i); congruence. Qed.

Lemma bind_Raise {A B : Type} (m : result A) (f : A -> result B)
    (e : exception) :
  bind m f = Raise e -> m = Raise e \/ exists a, m = Ok a /\ f a = Raise e.
Proof. destruct m as [a | e']; simpl; intro H; [eauto | left; congruence]. Qed.

(** Reads a failed run of binds backwards: the failure is in one of the
    list accesses or in the last step. *)
Ltac raise_inv :=
  repeat match goal with
         | H : bind _ _ = Raise _ |- _ =>
             apply bind_Raise in H;
             destruct H as [H | [? [? H]]]; cbv beta in H
         | H : index _ _ = Raise _ |- _ => apply index_Raise in H; subst
         | H : number ?p = Raise _ |- _ =>
             destruct p; simpl in H; inversion H; subst; clear H
         | H : Ok _ = Raise _ |- _ => discriminate H
         | H : match ?x with Some _ => _ | None => _ end = Raise _ |- _ =>
             destruct x
         | H : Raise _ = Raise _ |- _ => inversion H; subst; clear H
         end.

(** X1.  The SimulatorErrors of one turn of the instruction loop.  An
    operation that passes the screening and whose name is none of the
    fifteen known ones raises the 'unrecognized operation' error that
    names the backend and the operation.  Conversely, when a turn of the
    loop raises a SimulatorError the operation has passed the screening
    and either it is a reset and the error is the 'Reset operation not
    yet implemented' one, or its name is none of the known ones and the
    error is the 'unrecognized operation' one: an operation with another
    known name never raises a SimulatorError. *)
Theorem step_errors (backend : string) (qureg : list nat) (st : state)
    (operation : instruction) :
  (evaluate_conditional (classical_state st) (op_conditional operation)
   = true ->
   name_in (op_name operation) recognized = false ->
   step backend qureg st operation
   = Raise (SimulatorError
              (unrecognized_message backend (op_name operation)))) /\
  (forall msg,
     step backend qureg st operation = Raise (SimulatorError msg) ->
     evaluate_conditional (classical_state st) (op_conditional operation)
     = true /\
     ((msg = reset_message /\ op_name operation = "reset") \/
      (msg = unrecognized_message backend (op_name operation) /\
       name_in (op_name operation) recognized = false))).
Proof.
  destruct operation as [name params qubits clbits cond].
  unfold step, dispatch, name_in, recognized.
  cbn [op_name op_params op_qubits op_clbits op_conditional].
  split.
  - intros -> Hname. simpl in Hname.
    repeat match type of Hname with
           | (String.eqb name ?s || _)%bool = false =>
               apply orb_false_elim in Hname;
               let H := fresh "H" in
               destruct Hname as [H Hname]; simpl; rewrite H
           end.
    reflexivity.
  - intro msg. destruct (evaluate_conditional _ _); [ | discriminate].
    split; [reflexivity | revert H].
    name_cases name.
    all: intro H.
    all: repeat match goal with
                | H : bind _ _ = Raise _ |- _ =>
                    apply bind_Raise in H;
                    destruct H as [H | [? [? H]]]; cbv beta in H
                | H : index _ _ = Raise _ |- _ =>
                    apply index_Raise in H; discriminate H
                | H : number ?p = Raise _ |- _ =>
                    destruct p; simpl in H; discriminate H
                | H : Ok _ = Raise _ |- _ => discriminate H
                | H : match ?x with Some _ => _ | None => _ end = Raise _
                  |- _ => destruct x
                | H : Raise (SimulatorError _) = Raise (SimulatorError _)
                  |- _ => injection H as <-
                end.
    all: auto.
    all: try (exfalso;
              match goal with Hn : ?x <> ?x |- _ => now apply Hn end).
Qed.

(** ** The classical register under repeated measurements *)

Lemma set_bit_nonneg (s : Z) (c : nat) (b : bool) :
  0 <= s -> 0 <= set_bit_from_measurement s c b.
Proof.
  intro Hs. unfold set_bit_from_measurement.
  apply Z.lor_nonneg. split.
  - apply Z.land_nonneg. now left.
  - apply Z.shiftl_nonneg. now destruct b.
Qed.

Lemma measure_into_nonneg (ms : list (nat * bool)) :
  forall s, 0 <= s -> 0 <= measure_into s ms.
Proof.
  unfold measure_into.
  induction ms as [ | m ms IH]; intros s Hs; simpl.
  - exact Hs.
  - apply IH. now apply set_bit_nonneg.
Qed.

Lemma testbit_measure_into_last (clbit : nat) (ms : list (nat * bool)) :
  forall s,
    Z.testbit (measure_into s ms) (Z.of_nat clbit) =
    fold_left (fun acc m => if Nat.eqb (fst m) clbit then snd m else acc)
              ms (Z.testbit s (Z.of_nat clbit)).
Proof.
  unfold measure_into.
  induction ms as [ | [c b] ms IH]; intro s; simpl.
  - reflexivity.
  - rewrite IH, testbit_set_bit by lia. f_equal.
    destruct (Nat.eqb_spec c clbit) as [-> | Hne].
    + now rewrite Z.eqb_refl.
    + destruct (Z.eqb_spec (Z.of_nat clbit) (Z.of_nat c)); [lia | reflexivity].
Qed.

(** X2.  At the end of a shot the classical register is non-negative and
    each of its bits holds the outcome of the last measurement made into
    it during the shot, conditional clauses or not; a bit that no
    measurement targeted is 0. *)
Theorem shot_register_holds_last_measurements
    (backend : string) (c : circuit) (qureg : list nat)
    (st st' : state) (i : nat) :
  run_shot backend c qureg st i = Ok st' ->
  0 <= classical_state st' /\
  forall clbit,
    Z.testbit (classical_state st') (Z.of_nat clbit) =
    last_measured clbit
      (measurements backend qureg (shot_start qureg st i)
                    (circ_instructions c)).
Proof.
  intro Hrun.
  rewrite (run_shot_classical_state _ _ _ _ _ _ Hrun).
  split.
  - now apply measure_into_nonneg.
  - intro clbit. rewrite testbit_measure_into_last.
    now rewrite Z.bits_0.
Qed.

(** ** Clauses that can never hold *)

(** X3.  A clause whose mask is not positive lets its instruction run on
    every classical state.  Under a positive mask the expected value is
    compared with a field that starts at the lowest set bit of the mask,
    position [k]: when the expected value is negative, or has a bit set at
    a position [n] such that bit [n + k] of the mask is clear, the
    instruction is skipped on every classical state. *)
Theorem conditional_outside_its_field (mask expected : Z) :
  (mask <= 0 ->
   forall st,
     evaluate_conditional st
       (Some {| cond_mask := mask; cond_val := expected |}) = true) /\
  (0 < mask ->
   exists k,
     0 <= k /\ Z.testbit mask k = true /\
     (forall j, 0 <= j < k -> Z.testbit mask j = false) /\
     ((expected < 0 \/
       exists n, 0 <= n /\ Z.testbit expected n = true /\
                 Z.testbit mask (n + k) = false) ->
      forall st,
        evaluate_conditional st
          (Some {| cond_mask := mask; cond_val := expected |}) = false)).
Proof.
  split.
  - intros Hmask st. destruct mask as [ | p | p]; try reflexivity. lia.
  - intro Hmask. destruct mask as [ | p | p]; try lia.
    exists (trailing_zeros p).
    pose proof (trailing_zeros_nonneg p) as Hk.
    destruct (trailing_zeros_testbit p) as [Hset Hclear].
    repeat split; try assumption.
    intros Hout st. rewrite evaluate_conditional_positive.
    apply Z.eqb_neq. intro Heq.
    destruct Hout as [Hneg | [n [Hn [Hbit Hmaskbit]]]].
    + assert (0 <= expected); [ | lia].
      rewrite <- Heq. apply Z.shiftr_nonneg, Z.land_nonneg. now right.
    + rewrite <- Heq, Z.shiftr_spec, Z.land_spec, Hmaskbit in Hbit by lia.
      now rewrite andb_false_r in Hbit.
Qed.

(** ** The histogram of outcomes *)

Lemma Dict_get_set_same {V : Type} (k : string) (v : V) (d : Dict.t V) :
  Dict.get k (Dict.set k v d) = Some v.
Proof.
  induction d as [ | [k' v'] d IH]; simpl.
  - now rewrite String.eqb_refl.
  - destruct (String.eqb_spec k k') as [<- | Hne]; simpl.
    + now rewrite String.eqb_refl.
    + now rewrite eqb_neq_false.
Qed.

Lemma total_set (k : string) (v : Z) (d : Dict.t Z) :
  total (Dict.set k v d) =
  total d + v - match Dict.get k d with Some n => n | None => 0 end.
Proof.
  induction d as [ | [k' v'] d IH]; simpl.
  - lia.
  - destruct (String.eqb_spec k k') as [<- | Hne]; simpl; [lia | ].
    rewrite IH. lia.
Qed.

Lemma keys_set (k : string) (v : Z) (d : Dict.t Z) :
  NoDup (Dict.keys d) -> NoDup (Dict.keys (Dict.set k v d)).
Proof.
  intro Hnd.
  destruct (Dict.get k d) eqn:Hget.
  - assert (Hkeys : Dict.keys (Dict.set k v d) = Dict.keys d).
    { clear Hnd. induction d as [ | [k' v'] d IH]; simpl in *.
      - discriminate.
      - destruct (String.eqb_spec k k') as [<- | Hne]; simpl.
        + reflexivity.
        + f_equal. now apply IH. }
    now rewrite Hkeys.
  - rewrite Dict_set_fresh by now apply Dict_get_None_keys.
    unfold Dict.keys. rewrite map_app. simpl.
    apply NoDup_snoc; [exact Hnd | now apply Dict_get_None_keys].
Qed.

Lemma Counter_from (l : list string) :
  forall d : Dict.t Z,
    NoDup (Dict.keys d) ->
    let counts :=
      fold_left
        (fun d o =>
           match Dict.get o d with
           | Some n => Dict.set o (n + 1) d
           | None => Dict.set o 1 d
           end)
        l d in
    NoDup (Dict.keys counts) /\
    total counts = total d + Z.of_nat (List.length l) /\
    forall o,
      Dict.get o counts =
      match Dict.get o d, count_occ string_dec l o with
      | None, O => None
      | None, n => Some (Z.of_nat n)
      | Some m, n => Some (m + Z.of_nat n)
      end.
Proof.
  induction l as [ | x l IH]; intros d Hnd.
  - simpl. repeat split; [exact Hnd | lia | ].
    intro o. destruct (Dict.get o d); [f_equal; lia | reflexivity].
  - cbn [fold_left].
    set (d' := match Dict.get x d with
               | Some n => Dict.set x (n + 1) d
               | None => Dict.set x 1 d
               end).
    assert (Hnd' : NoDup (Dict.keys d'))
      by (unfold d'; destruct (Dict.get x d); now apply keys_set).
    destruct (IH d' Hnd') as [IHnd [IHtotal IHget]].
    split; [exact IHnd | split].
    + rewrite IHtotal. unfold d'.
      destruct (Dict.get x d) eqn:Hx; rewrite total_set, Hx;
        simpl List.length; lia.
    + intro o. rewrite IHget. simpl count_occ.
      destruct (string_dec x o) as [-> | Hne].
      * unfold d'. destruct (Dict.get o d) eqn:Ho;
          rewrite Dict_get_set_same; f_equal; lia.
      * assert (Hd' : Dict.get o d' = Dict.get o d).
        { unfold d'. destruct (Dict.get x d);
            apply Dict_get_set_other; congruence. }
        now rewrite Hd'.
Qed.

(** X4.  The histogram of a circuit, before its keys are formatted: its
    keys are pairwise distinct, an outcome that occurred is mapped to the
    number of shots that produced it, an outcome that did not occur is
    absent, and the counts add up to the job-level shot count. *)
Theorem counts_add_up_to_shots (backend : string) (_shots : Z)
    (c : circuit) (k : kernel) (st : state) :
  execute backend _shots c k = Ok st ->
  let counts := Counter (outcomes st) in
  NoDup (Dict.keys counts) /\
  total counts = Z.max 0 _shots /\
  forall o,
    Dict.get o counts =
    match count_occ string_dec (outcomes st) o with
    | O => None
    | n => Some (Z.of_nat n)
    end.
Proof.
  intros Hrun counts.
  destruct (Counter_from (outcomes st) Dict.empty (NoDup_nil _))
    as [Hnd [Htotal Hget]].
  fold (Counter (outcomes st)) in Hnd, Htotal, Hget. fold counts in Hnd, Htotal, Hget.
  split; [exact Hnd | split].
  - rewrite Htotal. unfold execute in Hrun.
    apply run_shots_rnd_seed in Hrun. destruct Hrun as [_ ->].
    destruct (setup_rnd_seed c k) as [_ ->]. simpl.
    rewrite length_seq. lia.
  - intro o. rewrite Hget. reflexivity.
Qed.

(** ** The outcome string of a shot *)

Lemma list_ascii_of_string_app (s s' : string) :
  list_ascii_of_string (s ++ s') =
  (list_ascii_of_string s ++ list_ascii_of_string s')%list.
Proof. induction s; simpl; congruence. Qed.

Lemma list_ascii_of_repeat_char (c : ascii) (n : nat) :
  list_ascii_of_string (repeat_char c n) = repeat c n.
Proof. induction n; simpl; congruence. Qed.

Lemma length_repeat_char (c : ascii) (n : nat) :
  String.length (repeat_char c n) = n.
Proof. induction n; simpl; congruence. Qed.

Lemma bit_char_double (p : positive) (b : bool) (i : nat) :
  bit_char (Zpos (if b then p~1 else p~0)) (S i) = bit_char (Zpos p) i.
Proof.
  unfold bit_char. rewrite Nat2Z.inj_succ.
  destruct b.
  - change (Zpos p~1) with (2 * Zpos p + 1).
    now rewrite Z.testbit_odd_succ by lia.
  - change (Zpos p~0) with (2 * Zpos p).
    now rewrite Z.testbit_even_succ by lia.
Qed.

Lemma map_bit_char_double (p : positive) (b : bool) (m : nat) :
  map (bit_char (Zpos (if b then p~1 else p~0))) (seq 1 m) =
  map (bit_char (Zpos p)) (seq 0 m).
Proof.
  rewrite <- seq_shift, map_map. apply map_ext. intro i.
  apply bit_char_double.
Qed.

(** The digits written for [p], most significant first. *)
Lemma bits_of_positive_chars (p : positive) :
  forall acc,
    list_ascii_of_string (bits_of_positive p acc) =
    (rev (map (bit_char (Zpos p)) (seq 0 (Pos.size_nat p)))
     ++ list_ascii_of_string acc)%list.
Proof.
  induction p as [p IH | p IH | ]; intro acc; simpl bits_of_positive.
  - rewrite IH. simpl Pos.size_nat. rewrite <- cons_seq. simpl map.
    rewrite (map_bit_char_double p true). simpl rev.
    now rewrite <- app_assoc.
  - rewrite IH. simpl Pos.size_nat. rewrite <- cons_seq. simpl map.
    rewrite (map_bit_char_double p false). simpl rev.
    now rewrite <- app_assoc.
  - reflexivity.
Qed.

Lemma bits_of_positive_first (p : positive) :
  forall acc, exists rest, bits_of_positive p acc = String "1" rest.
Proof.
  induction p as [p IH | p IH | ]; intro acc; simpl; eauto.
Qed.

Lemma size_nat_bound (p : positive) :
  forall n, Zpos p < 2 ^ Z.of_nat n -> (Pos.size_nat p <= n)%nat.
Proof.
  induction p as [p IH | p IH | ]; intros n Hn; simpl;
    (destruct n as [ | n]; [simpl in Hn; lia | ]);
    rewrite Nat2Z.inj_succ, Z.pow_succ_r in Hn by lia.
  - apply le_n_S, IH. lia.
  - apply le_n_S, IH. lia.
  - lia.
Qed.

Lemma size_nat_above (p : positive) :
  Zpos p < 2 ^ Z.of_nat (Pos.size_nat p).
Proof.
  induction p as [p IH | p IH | ]; simpl Pos.size_nat;
    rewrite Nat2Z.inj_succ, Z.pow_succ_r by lia; simpl Z.of_nat; lia.
Qed.

Lemma small_bits_above (z : Z) (n i : nat) :
  0 <= z < 2 ^ Z.of_nat n -> (n <= i)%nat -> bit_char z i = "0"%char.
Proof.
  intros [Hz Hn] Hi. unfold bit_char.
  destruct (Z.eq_dec z 0) as [-> | Hnz]; [now rewrite Z.bits_0 | ].
  rewrite Z.bits_above_log2; [reflexivity | exact Hz | ].
  apply Z.lt_le_trans with (Z.of_nat n); [ | lia].
  apply Z.log2_lt_pow2; lia.
Qed.

Lemma map_bit_char_zeros (z : Z) (n start len : nat) :
  0 <= z < 2 ^ Z.of_nat n -> (n <= start)%nat ->
  map (bit_char z) (seq start len) = repeat "0"%char len.
Proof.
  intros Hz. revert start.
  induction len as [ | len IH]; intros start Hstart; simpl.
  - reflexivity.
  - rewrite (small_bits_above z n start Hz Hstart), IH by lia. reflexivity.
Qed.

Lemma rev_repeat {A : Type} (a : A) (n : nat) : rev (repeat a n) = repeat a n.
Proof.
  induction n as [ | n IH]; simpl; [reflexivity | ].
  rewrite IH. clear IH. induction n; simpl; congruence.
Qed.

(** The string [format(z, 'b').zfill(n)] of a register that fits in [n]
    bits: [n] characters, the one of bit 0 last. *)
Lemma zfill_format_b_chars (z : Z) (n : nat) :
  (1 <= n)%nat -> 0 <= z < 2 ^ Z.of_nat n ->
  list_ascii_of_string (zfill (format_b z) n) =
  rev (map (bit_char z) (seq 0 n)).
Proof.
  intros Hn Hz.
  destruct z as [ | p | p]; [ | | lia].
  - unfold format_b, zfill. simpl String.length. simpl Ascii.eqb. simpl orb.
    cbv iota.
    rewrite list_ascii_of_string_app, list_ascii_of_repeat_char.
    rewrite (map_bit_char_zeros 0 0 0 n) by (simpl; lia).
    rewrite rev_repeat. simpl.
    replace n with (S (n - 1)) at 2 by lia.
    simpl repeat. now rewrite repeat_cons.
  - unfold format_b.
    pose proof (size_nat_bound p n (proj2 Hz)) as Hsize.
    pose proof (bits_of_positive_chars p EmptyString) as Hchars.
    simpl list_ascii_of_string in Hchars. rewrite app_nil_r in Hchars.
    assert (Hlen : String.length (bits_of_positive p EmptyString)
                   = Pos.size_nat p).
    { rewrite <- length_list_ascii_of_string, Hchars.
      now rewrite length_rev, length_map, length_seq. }
    destruct (bits_of_positive_first p EmptyString) as [rest Hfirst].
    unfold zfill. rewrite Hlen. rewrite Hfirst at 1. simpl Ascii.eqb.
    simpl orb. cbv iota.
    rewrite list_ascii_of_string_app, list_ascii_of_repeat_char, Hchars.
    replace n with (Pos.size_nat p + (n - Pos.size_nat p))%nat at 2 by lia.
    rewrite seq_app, map_app, rev_app_distr. simpl plus.
    rewrite (map_bit_char_zeros (Zpos p) (Pos.size_nat p) (Pos.size_nat p))
      by (try split; try lia; apply size_nat_above).
    now rewrite rev_repeat.
Qed.

Lemma measured_target (qureg : list nat) (st : state)
    (operation : instruction) (rest : list instruction) (m : nat * bool) :
  measured qureg st operation = Some m ->
  In (fst m) (measure_targets (operation :: rest)).
Proof.
  unfold measured, measure_targets. cbn [flat_map].
  intro H. apply in_or_app. left. revert H.
  destruct (evaluate_conditional _ _); simpl; [ | discriminate].
  destruct (String.eqb (op_name operation) "measure"); [ | discriminate].
  destruct (q <- index (op_qubits operation) 0 ;; index qureg q);
    [ | discriminate].
  unfold index. destruct (op_clbits operation) as [ | clbit clbits]; simpl;
    [discriminate | ].
  intro H. injection H as <-. now left.
Qed.

Lemma measurements_within_targets (backend : string) (qureg : list nat)
    (instructions : list instruction) :
  forall st m,
    In m (measurements backend qureg st instructions) ->
    In (fst m) (measure_targets instructions).
Proof.
  induction instructions as [ | operation rest IH]; intros st m Hin;
    simpl in Hin.
  - destruct Hin.
  - assert (Hrest : In (fst m) (measure_targets rest) ->
                    In (fst m) (measure_targets (operation :: rest))).
    { intro H. unfold measure_targets. cbn [flat_map].
      apply in_or_app. now right. }
    destruct (step backend qureg st operation) as [st' | e]; [ | destruct Hin].
    destruct (measured qureg st operation) as [m' | ] eqn:Hm.
    + destruct Hin as [-> | Hin].
      * now apply (measured_target qureg st).
      * apply Hrest. now apply (IH st').
    + apply Hrest. now apply (IH st').
Qed.

Lemma bounded_of_bits (z : Z) (n : nat) :
  0 <= z ->
  (forall i, Z.of_nat n <= i -> Z.testbit z i = false) ->
  z < 2 ^ Z.of_nat n.
Proof.
  intros Hz Hbits.
  destruct (Z.eq_dec z 0) as [-> | Hnz]; [apply Z.pow_pos_nonneg; lia | ].
  destruct (Z.lt_ge_cases z (2 ^ Z.of_nat n)) as [Hlt | Hge]; [exact Hlt | ].
  apply Z.log2_le_pow2 in Hge; [ | lia].
  pose proof (Z.bit_log2 z ltac:(lia)) as Hbit.
  rewrite (Hbits _ Hge) in Hbit. discriminate.
Qed.

Lemma measure_into_bounded (n : nat) (ms : list (nat * bool)) :
  Forall (fun m => (fst m < n)%nat) ms ->
  forall s, 0 <= s < 2 ^ Z.of_nat n ->
            0 <= measure_into s ms < 2 ^ Z.of_nat n.
Proof.
  unfold measure_into.
  induction 1 as [ | [c b] ms Hc _ IH]; intros s Hs; simpl.
  - exact Hs.
  - apply IH. simpl in Hc. split.
    + apply set_bit_nonneg. lia.
    + apply bounded_of_bits; [apply set_bit_nonneg; lia | ].
      intros i Hi. rewrite testbit_set_bit by lia.
      destruct (Z.eqb_spec i (Z.of_nat c)); [lia | ].
      destruct (Z.eq_dec s 0) as [-> | Hnz]; [apply Z.bits_0 | ].
      apply Z.bits_above_log2; [lia | ].
      apply Z.lt_le_trans with (Z.of_nat n); [ | exact Hi].
      apply Z.log2_lt_pow2; lia.
Qed.

(** X5.  The outcome a shot records, for a circuit that declares at least
    one classical bit and measures only into declared bits: a string of as
    many characters as there are classical bits, each '0' or '1', the
    character of classical bit 0 last. *)
Theorem outcome_string_of_a_shot (backend : string) (c : circuit)
    (qureg : list nat) (st st' : state) (i : nat) :
  let n := number_of_clbits (circ_header c) in
  (1 <= n)%nat ->
  Forall (fun clbit => (clbit < n)%nat)
         (measure_targets (circ_instructions c)) ->
  run_shot backend c qureg st i = Ok st' ->
  exists outcome,
    outcomes st' = (outcomes st ++ [outcome])%list /\
    String.length outcome = n /\
    list_ascii_of_string outcome =
    rev (map (bit_char (classical_state st')) (seq 0 n)).
Proof.
  intros n Hn Htargets Hrun.
  pose proof (run_shot_classical_state _ _ _ _ _ _ Hrun) as Hstate.
  assert (Hbound : 0 <= classical_state st' < 2 ^ Z.of_nat n).
  { rewrite Hstate. apply measure_into_bounded.
    - apply Forall_forall. intros m Hm.
      apply measurements_within_targets in Hm.
      rewrite Forall_forall in Htargets. now apply Htargets.
    - split; [lia | apply Z.pow_pos_nonneg; lia]. }
  unfold run_shot in Hrun. bind_inv. fold n.
  cbn [outcomes with_outcomes apply with_kernel classical_state] in *.
  eexists. split; [ | split].
  - apply measure_all_classical_state in Ha0. destruct Ha0 as [_ [_ ->]].
    apply run_instructions_rnd_seed in Ha. destruct Ha as [_ ->].
    f_equal. now destruct i.
  - rewrite <- length_list_ascii_of_string,
      (zfill_format_b_chars _ n Hn Hbound).
    now rewrite length_rev, length_map, length_seq.
  - now apply zfill_format_b_chars.
Qed.

(** ** Circuits without measurements, jobs without shots *)

Lemma no_measure_no_targets (instructions : list instruction) :
  name_in "measure" (map op_name instructions) = false ->
  measure_targets instructions = [].
Proof.
  unfold name_in, measure_targets.
  induction instructions as [ | operation rest IH];
    cbn [map existsb flat_map]; intro H.
  - reflexivity.
  - apply orb_false_elim in H. destruct H as [Hop Hrest].
    rewrite String.eqb_sym, Hop. now apply IH.
Qed.

Lemma run_shots_outcomes (backend : string) (c : circuit)
    (qureg : list nat) (outcome : string) (shots : list nat) :
  (forall st st' i,
     run_shot backend c qureg st i = Ok st' ->
     outcomes st' = (outcomes st ++ [outcome])%list /\
     classical_state st' = 0) ->
  forall st st',
    classical_state st = 0 ->
    run_shots backend c qureg st shots = Ok st' ->
    outcomes st' = (outcomes st ++ repeat outcome (List.length shots))%list /\
    classical_state st' = 0.
Proof.
  intro Hshot.
  induction shots as [ | i rest IH]; intros st st' Hzero Hrun; simpl in Hrun.
  - injection Hrun as <-. simpl. now rewrite app_nil_r.
  - bind_inv. destruct (Hshot _ _ _ Ha) as [Hout Hz].
    destruct (IH _ _ Hz Hrun) as [-> ->].
    rewrite Hout, <- app_assoc. auto.
Qed.

Lemma execute_without_measure (backend : string) (_shots : Z)
    (c : circuit) (k : kernel) (st : state) :
  name_in "measure" (map op_name (circ_instructions c)) = false ->
  execute backend _shots c k = Ok st ->
  classical_state st = 0 /\
  outcomes st =
  repeat (zfill "0" (number_of_clbits (circ_header c))) (Z.to_nat _shots).
Proof.
  intros Hno Hrun. unfold execute in Hrun.
  assert (Hshot : forall st0 st1 i,
             run_shot backend c (fst (setup c k)) st0 i = Ok st1 ->
             outcomes st1
             = (outcomes st0
                ++ [zfill "0" (number_of_clbits (circ_header c))])%list /\
             classical_state st1 = 0).
  { intros st0 st1 i Hi.
    pose proof (run_shot_classical_state _ _ _ _ _ _ Hi) as Hstate.
    destruct (measurements backend (fst (setup c k))
                (shot_start (fst (setup c k)) st0 i)
                (circ_instructions c)) as [ | m ms] eqn:Hms.
    - simpl in Hstate. split; [ | exact Hstate].
      unfold run_shot in Hi. bind_inv.
      cbn [outcomes with_outcomes apply with_kernel classical_state] in *.
      rewrite Hstate.
      apply measure_all_classical_state in Ha0. destruct Ha0 as [_ [_ ->]].
      apply run_instructions_rnd_seed in Ha. destruct Ha as [_ ->].
      f_equal. now destruct i.
    - assert (Hin : In (fst m) (measure_targets (circ_instructions c))).
      { apply (measurements_within_targets backend (fst (setup c k))
                 _ (shot_start (fst (setup c k)) st0 i)).
        rewrite Hms. now left. }
      rewrite (no_measure_no_targets _ Hno) in Hin. destruct Hin. }
  assert (Hstart : classical_state (snd (setup c k)) = 0).
  { unfold setup. now destruct (allocate_quregs _ _ _ _). }
  destruct (run_shots_outcomes backend c _ _ _ Hshot _ _ Hstart Hrun)
    as [-> ->].
  destruct (setup_rnd_seed c k) as [_ ->]. simpl.
  now rewrite length_seq.
Qed.

(** X6.  A circuit without a measure instruction, the case the validation
    of the qasm backend warns about: the warning is logged for it, and
    when the circuit runs its classical register stays 0 and every shot
    records the same outcome, the string of zeros [format(0, 'b')] filled
    to the number of classical bits. *)
Theorem unmeasured_circuit_reads_zeros (c : circuit) :
  name_in "measure" (map op_name (circ_instructions c)) = false ->
  (forall q cfg shots,
     qobj_config q = Some cfg -> cfg_shots cfg = Some shots ->
     In c (experiments q) ->
     v_raised (_validate q) = None /\
     In (LoggerWarning (no_measurement_message (hdr_name (circ_header c))))
        (v_log (_validate q))) /\
  (forall backend _shots k st,
     execute backend _shots c k = Ok st ->
     classical_state st = 0 /\
     outcomes st =
     repeat (zfill "0" (number_of_clbits (circ_header c)))
            (Z.to_nat _shots)).
Proof.
  intro Hno. split.
  - intros q cfg shots Hcfg Hshots Hin. unfold _validate.
    rewrite Hcfg, Hshots. cbn [v_raised v_log].
    split; [reflexivity | ]. apply in_or_app. right.
    apply in_flat_map. exists c. split; [exact Hin | ].
    rewrite Hno. now left.
  - intros backend _shots k st Hrun.
    now apply (execute_without_measure backend _shots c k st).
Qed.

(** X7.  With a shot count of zero or less no instruction is executed:
    the circuit succeeds whatever its instructions and registers are, a
    reset or an unknown operation included, with an empty histogram, no
    snapshots and no classical state. *)
Theorem no_shot_no_failure (backend : string) (_seed _shots : Z)
    (c : circuit) (k : kernel) :
  _shots <= 0 ->
  run_circuit backend _seed _shots c k =
  Ok ({| res_name := hdr_name (circ_header c);
         res_seed := _seed;
         res_shots := _shots;
         res_data := {| data_counts := [];
                        data_snapshots := None;
                        data_classical_state := None;
                        data_statevector := None |};
         res_status := "DONE";
         res_success := true |},
      sim (snd (setup c k))).
Proof.
  intro Hshots. unfold run_circuit, execute.
  destruct (classical_registers _ _) as [cl_reg_index cl_reg_nbits].
  replace (Z.to_nat _shots) with 0%nat by lia.
  cbn [seq run_shots bind].
  destruct (setup_rnd_seed c k) as [_ ->].
  rewrite setup_snapshots.
  destruct (Z.eqb_spec _shots 1); [lia | reflexivity].
Qed.

(** ** Jobs of the qasm backend *)

Lemma run_circuit_Ok (backend : string) (_seed _shots : Z) (c : circuit)
    (k k' : kernel) (res : experiment_result) :
  run_circuit backend _seed _shots c k = Ok (res, k') ->
  exists st,
    execute backend _shots c k = Ok st /\ k' = sim st /\
    res_name res = hdr_name (circ_header c) /\
    res_seed res = _seed /\ res_shots res = _shots /\
    res_status res = "DONE" /\ res_success res = true.
Proof.
  unfold run_circuit.
  destruct (classical_registers _ _) as [cl_reg_index cl_reg_nbits].
  intro H. bind_inv. eexists. repeat split. eassumption.
Qed.

Lemma execute_rnd_seed (backend : string) (_shots : Z) (c : circuit)
    (k : kernel) (st : state) :
  execute backend _shots c k = Ok st ->
  rnd_seed (sim st) = rnd_seed (circuit_kernel c k).
Proof.
  unfold execute. intro H. apply run_shots_rnd_seed in H.
  destruct H as [-> _]. now destruct (setup_rnd_seed c k) as [-> _].
Qed.

(** X8.  The seed of a circuit outlives the circuit.  When a circuit with
    a nonzero seed of its own is followed in the job by a circuit without
    configuration, the second circuit runs on the simulator the first one
    re-seeded, not on one seeded by the job; both results nevertheless
    report the seed of the job. *)
Theorem circuit_seed_outlives_its_circuit
    (backend : string) (_seed _shots : Z) (c1 c2 : circuit) (k : kernel)
    (cfg1 : config) (seed1 : Z) (r1 r2 : experiment_result) :
  circ_config c1 = Some cfg1 -> cfg_seed cfg1 = Some seed1 -> seed1 <> 0 ->
  circ_config c2 = None ->
  run_circuits backend _seed _shots [c1; c2] k = Ok [r1; r2] ->
  exists k1 st2,
    run_circuit backend _seed _shots c1 k = Ok (r1, k1) /\
    execute backend _shots c2 k1 = Ok st2 /\
    rnd_seed (sim st2) = seed1 /\
    res_seed r1 = _seed /\ res_seed r2 = _seed.
Proof.
  intros Hcfg1 Hseed1 Hnz Hcfg2 Hrun. simpl in Hrun. bind_inv.
  destruct a as [r1 k1], a1 as [r2 k2]. cbn [fst snd] in *.
  destruct (run_circuit_Ok _ _ _ _ _ _ _ Ha)
    as [st1 [Hst1 [-> [_ [Hs1 _]]]]].
  destruct (run_circuit_Ok _ _ _ _ _ _ _ Ha1)
    as [st2 [Hst2 [_ [_ [Hs2 _]]]]].
  exists (sim st1), st2.
  repeat split; try assumption.
  rewrite (execute_rnd_seed _ _ _ _ _ Hst2).
  unfold circuit_kernel at 1. rewrite Hcfg2.
  rewrite (execute_rnd_seed _ _ _ _ _ Hst1).
  unfold circuit_kernel. rewrite Hcfg1, Hseed1.
  now destruct (Z.eqb_spec seed1 0).
Qed.

(** ** Results keyed by the names of the circuits *)

Lemma Dict_get_fold_set_other {V : Type} (k : string)
    (l : list (string * V)) :
  ~ In k (map fst l) ->
  forall d : Dict.t V,
    Dict.get k (fold_left (fun d kv => Dict.set (fst kv) (snd kv) d) l d)
    = Dict.get k d.
Proof.
  induction l as [ | [k' v'] l IH]; intros Hnotin d; simpl.
  - reflexivity.
  - rewrite IH by (intro; apply Hnotin; now right).
    apply Dict_get_set_other. intro Heq. apply Hnotin. now left.
Qed.

Lemma Dict_get_In {V : Type} (k : string) (v : V) (d : Dict.t V) :
  Dict.get k d = Some v -> In (k, v) d.
Proof.
  induction d as [ | [k' v'] d IH]; simpl; [discriminate | ].
  destruct (String.eqb_spec k k') as [<- | Hne]; intro H.
  - injection H as <-. now left.
  - right. now apply IH.
Qed.

Lemma Dict_In_set {V : Type} (k k' : string) (v v' : V) (d : Dict.t V) :
  In (k, v) (Dict.set k' v' d) -> In (k, v) d \/ (k, v) = (k', v').
Proof.
  induction d as [ | [k0 v0] d IH]; simpl.
  - intros [H | []]. right. now symmetry.
  - destruct (String.eqb_spec k' k0) as [<- | Hne]; simpl.
    + intros [H | H]; [right; now symmetry | left; now right].
    + intros [H | H]; [left; now left | ].
      destruct (IH H) as [Hin | Heq]; [left; now right | now right].
Qed.

Lemma Dict_In_of_list {V : Type} (l : list (string * V))
    (k : string) (v : V) :
  In (k, v) (Dict.of_list l) -> In (k, v) l.
Proof.
  unfold Dict.of_list.
  assert (H : forall acc : Dict.t V,
             In (k, v)
                (fold_left (fun d kv => Dict.set (fst kv) (snd kv) d) l acc) ->
             In (k, v) acc \/ In (k, v) l).
  { induction l as [ | [k' v'] l IH]; intros acc Hin; simpl in Hin.
    - now left.
    - destruct (IH _ Hin) as [Hacc | Hl]; [ | right; now right].
      destruct (Dict_In_set _ _ _ _ _ Hacc) as [Hacc' | Heq];
        [now left | right; left; now symmetry]. }
  intro Hin. destruct (H _ Hin) as [[] | Hl]. exact Hl.
Qed.

Lemma Dict_keys_In_set {V : Type} (n k : string) (v : V) (d : Dict.t V) :
  In n (Dict.keys (Dict.set k v d)) <-> n = k \/ In n (Dict.keys d).
Proof.
  induction d as [ | [k' v'] d IH]; simpl.
  - split; [intros [H | []]; left; now symmetry | ].
    intros [H | []]. left. now symmetry.
  - destruct (String.eqb_spec k k') as [<- | Hne]; simpl.
    + split; [intros [H | H]; right; [now left | now right] | ].
      intros [H | [H | H]];
        [left; now symmetry | now left | now right].
    + rewrite IH. split.
      * intros [H | [H | H]];
          [right; now left | now left | right; now right].
      * intros [H | [H | H]];
          [right; now left | now left | right; now right].
Qed.

Lemma Dict_keys_In_of_list {V : Type} (l : list (string * V)) (n : string) :
  In n (Dict.keys (Dict.of_list l)) <-> In n (map fst l).
Proof.
  unfold Dict.of_list.
  assert (H : forall acc : Dict.t V,
             In n (Dict.keys
                     (fold_left (fun d kv => Dict.set (fst kv) (snd kv) d)
                                l acc)) <->
             In n (Dict.keys acc) \/ In n (map fst l)).
  { induction l as [ | [k' v'] l IH]; intro acc; simpl.
    - tauto.
    - rewrite IH, Dict_keys_In_set. simpl.
      split; [intros [[H | H] | H] | intros [H | [H | H]]]; subst; auto. }
  rewrite H. simpl. tauto.
Qed.

Lemma Dict_get_of_list_last {V : Type} (pre post : list (string * V))
    (k : string) (v : V) :
  ~ In k (map fst post) ->
  Dict.get k (Dict.of_list (pre ++ (k, v) :: post)%list) = Some v.
Proof.
  intro Hlast. unfold Dict.of_list. rewrite fold_left_app. simpl.
  rewrite (Dict_get_fold_set_other _ _ Hlast).
  apply Dict_get_set_same.
Qed.

Lemma map_fst_combine_same_length {A B : Type} (l : list A) :
  forall l' : list B,
    List.length l = List.length l' -> map fst (combine l l') = l.
Proof.
  induction l as [ | a l IH]; intros [ | b l'] H; simpl in *;
    try discriminate; [reflexivity | ].
  f_equal. apply IH. now injection H.
Qed.

Lemma combine_app_same_length {A B : Type} (l1 l2 : list A)
    (l1' l2' : list B) :
  List.length l1 = List.length l1' ->
  combine (l1 ++ l2) (l1' ++ l2') = (combine l1 l1' ++ combine l2 l2')%list.
Proof.
  revert l1'. induction l1 as [ | a l1 IH]; intros [ | b l1'] H; simpl in *;
    try discriminate; [reflexivity | ].
  f_equal. apply IH. now injection H.
Qed.

Lemma In_map_fst_combine {A B : Type} (l : list A) (l' : list B) (a : A) :
  In a (map fst (combine l l')) -> In a l.
Proof.
  revert l'. induction l as [ | a0 l IH]; intros [ | b l'] H; simpl in *;
    try contradiction.
  destruct H as [H | H]; [now left | right; now apply (IH l')].
Qed.

(** What the mapping of a job holds, [R] relating a circuit with the
    result of its run: its keys are the names of the circuits, one entry
    for each circuit, in their order, when the names are distinct; an
    entry is the result of a circuit of that name, and the circuit that
    is the last of its name has its result there. *)
Lemma results_by_name (R : circuit -> experiment_result -> Prop)
    (circuits : list circuit) (result_list : list experiment_result) :
  Forall2 R circuits result_list ->
  (forall n,
     In n (Dict.keys
             (result_from_old_style_dict
                result_list
                (map (fun c => hdr_name (circ_header c)) circuits))) <->
     In n (map (fun c => hdr_name (circ_header c)) circuits)) /\
  (NoDup (map (fun c => hdr_name (circ_header c)) circuits) ->
   result_from_old_style_dict
     result_list (map (fun c => hdr_name (circ_header c)) circuits)
   = combine (map (fun c => hdr_name (circ_header c)) circuits)
             result_list) /\
  (forall n res,
     Dict.get n (result_from_old_style_dict
                   result_list
                   (map (fun c => hdr_name (circ_header c)) circuits))
     = Some res ->
     exists c, In c circuits /\ hdr_name (circ_header c) = n /\ R c res) /\
  (forall pre c post,
     circuits = (pre ++ c :: post)%list ->
     ~ In (hdr_name (circ_header c))
          (map (fun c' => hdr_name (circ_header c')) post) ->
     exists res,
       Dict.get (hdr_name (circ_header c))
                (result_from_old_style_dict
                   result_list
                   (map (fun c => hdr_name (circ_header c)) circuits))
       = Some res /\
       R c res).
Proof.
  intro Hall.
  assert (Hlen : List.length
                   (map (fun c => hdr_name (circ_header c)) circuits)
                 = List.length result_list).
  { rewrite length_map. now apply Forall2_length in Hall. }
  unfold result_from_old_style_dict.
  split; [ | split; [ | split]].
  - intro n. rewrite Dict_keys_In_of_list.
    now rewrite (map_fst_combine_same_length _ _ Hlen).
  - intro Hnd. apply Dict_of_list_distinct.
    now rewrite (map_fst_combine_same_length _ _ Hlen).
  - intros n res Hget.
    apply Dict_get_In, Dict_In_of_list in Hget.
    clear - Hall Hget.
    induction Hall as [ | c res0 cs rs Hc _ IH]; simpl in Hget;
      [contradiction | ].
    destruct Hget as [Heq | Hin].
    + injection Heq as <- <-. exists c. split; [now left | auto].
    + destruct (IH Hin) as [c' [Hin' Hc']]. exists c'.
      split; [now right | exact Hc'].
  - intros pre c post -> Hlast.
    apply Forall2_app_inv_l in Hall.
    destruct Hall as [rpre [rrest [Hpre [Hrest ->]]]].
    inversion Hrest as [ | ? res ? rpost Hc Hpost]; subst.
    exists res. split; [ | exact Hc].
    rewrite map_app. cbn [map].
    rewrite combine_app_same_length
      by (rewrite length_map; now apply Forall2_length in Hpre).
    cbn [combine]. apply Dict_get_of_list_last.
    intro Hin. apply Hlast. now apply In_map_fst_combine in Hin.
Qed.

Lemma run_circuits_all (backend : string) (_seed _shots : Z)
    (circuits : list circuit) :
  forall (k : kernel) (result_list : list experiment_result),
    run_circuits backend _seed _shots circuits k = Ok result_list ->
    Forall2
      (fun c res =>
         exists k0 k',
           run_circuit backend _seed _shots c k0 = Ok (res, k'))
      circuits result_list.
Proof.
  induction circuits as [ | c rest IH]; intros k result_list H; simpl in H.
  - injection H as <-. constructor.
  - bind_inv. destruct a as [res k']. cbn [fst snd] in *.
    constructor; [eauto | now apply (IH k')].
Qed.

(** X9.  A job of the qasm backend.  Without a configuration, or without
    a shot count in it, the job fails with an AttributeError.  A job that
    succeeds returns its results under the names of its circuits: one
    result for each circuit, in the order of the circuits, when the names
    are distinct, and of several circuits of one name the result of the
    last one only.  A result is that of the run of its circuit with the
    shot count and the seed of the job, the seed being the random one when
    the job has none, and it reports them with the name of the circuit. *)
Theorem job_results_follow_the_circuits
    (backend : string) (getrandbits : Z) (q : qobj) :
  ((qobj_config q = None \/
    exists cfg, qobj_config q = Some cfg /\ cfg_shots cfg = None) ->
   snd (_run_job backend _validate getrandbits q) = Raise AttributeError) /\
  (forall r,
     snd (_run_job backend _validate getrandbits q) = Ok r ->
     exists cfg shots,
       qobj_config q = Some cfg /\ cfg_shots cfg = Some shots /\
       job_qobj_id r = qobj_id q /\ job_success r = true /\
       let seed := match cfg_seed cfg with
                   | Some seed => seed
                   | None => getrandbits
                   end in
       (forall name,
          In name (Dict.keys (job_results r)) <->
          In name (experiment_names q)) /\
       (NoDup (experiment_names q) ->
        Dict.keys (job_results r) = experiment_names q) /\
       (forall pre c post,
          experiments q = (pre ++ c :: post)%list ->
          ~ In (hdr_name (circ_header c))
               (map (fun c' => hdr_name (circ_header c')) post) ->
          exists res k k',
            Dict.get (hdr_name (circ_header c)) (job_results r) = Some res /\
            run_circuit backend seed shots c k = Ok (res, k') /\
            res_name res = hdr_name (circ_header c) /\
            res_seed res = seed /\ res_shots res = shots /\
            res_status res = "DONE" /\ res_success res = true)).
Proof.
  unfold _run_job, _validate. cbn [snd]. split.
  - intros [Hnone | [cfg [Hcfg Hshots]]].
    + now rewrite Hnone.
    + now rewrite Hcfg, Hshots.
  - intro r.
    destruct (qobj_config q) as [cfg | ] eqn:Hcfg; [ | discriminate].
    destruct (cfg_shots cfg) as [shots | ] eqn:Hshots; [ | discriminate].
    cbn [v_raised v_qobj]. rewrite Hcfg. cbn [attribute bind].
    rewrite Hshots. cbn [attribute bind].
    intro H. bind_inv. exists cfg, shots.
    split; [reflexivity | split; [exact Hshots | ]].
    split; [reflexivity | split; [reflexivity | ]].
    cbv zeta. cbn [job_results]. unfold experiment_names.
    match goal with
    | Hrun : run_circuits _ _ _ _ _ = Ok _ |- _ =>
        destruct (results_by_name _ _ _ (run_circuits_all _ _ _ _ _ _ Hrun))
          as [Hkeys [Hdistinct [_ Hlast]]]
    end.
    split; [exact Hkeys | split].
    + intro Hnd. rewrite (Hdistinct Hnd).
      apply map_fst_combine_same_length.
      rewrite length_map.
      match goal with
      | Hrun : run_circuits _ _ _ _ _ = Ok _ |- _ =>
          apply run_circuits_all, Forall2_length in Hrun; exact Hrun
      end.
    + intros pre c post Hsplit Hname.
      destruct (Hlast pre c post Hsplit Hname) as [res [Hget [k [k' Hrun]]]].
      exists res, k, k'. split; [exact Hget | split; [exact Hrun | ]].
      destruct (run_circuit_Ok _ _ _ _ _ _ _ Hrun) as [st [_ [_ Hres]]].
      exact Hres.
Qed.

(** ** The quantum register of a circuit *)

Lemma Dict_keys_set {V : Type} (k : string) (v : V) (d : Dict.t V) :
  NoDup (Dict.keys d) -> NoDup (Dict.keys (Dict.set k v d)).
Proof.
  intro Hnd. induction d as [ | [k' v'] d IH]; simpl.
  - repeat constructor. intros [].
  - simpl in Hnd. inversion Hnd as [ | ? ? Hnotin Hnd']; subst.
    destruct (String.eqb_spec k k') as [<- | Hne]; simpl.
    + now constructor.
    + constructor; [ | now apply IH].
      intro Hin. apply Hnotin.
      clear - Hin Hne. induction d as [ | [k'' v''] d IH]; simpl in *.
      * destruct Hin as [-> | []]. now elim Hne.
      * destruct (String.eqb_spec k k'') as [<- | Hne'']; simpl in Hin.
        -- exact Hin.
        -- destruct Hin as [-> | Hin]; [now left | right; now apply IH].
Qed.

Lemma Dict_keys_of_list {V : Type} (l : list (string * V)) :
  NoDup (Dict.keys (Dict.of_list l)).
Proof.
  unfold Dict.of_list.
  assert (H : forall acc : Dict.t V,
             NoDup (Dict.keys acc) ->
             NoDup (Dict.keys
                      (fold_left (fun d kv => Dict.set (fst kv) (snd kv) d)
                                 l acc))).
  { induction l as [ | kv l IH]; intros acc Hacc; simpl.
    - exact Hacc.
    - apply IH. now apply Dict_keys_set. }
  apply H. constructor.
Qed.

Lemma calls_fold_allocate (qubits : list nat) :
  forall k,
    fold_left (fun k q => call (KAllocate q) k) qubits k =
    {| rnd_seed := rnd_seed k;
       calls := (calls k ++ map KAllocate qubits)%list |}.
Proof.
  induction qubits as [ | q qubits IH]; intro k; simpl.
  - rewrite app_nil_r. now destruct k.
  - rewrite IH. unfold call. simpl. now rewrite <- app_assoc.
Qed.

Lemma allocate_quregs_spec (quregs : list (string * nat)) :
  forall (next : nat) (k : kernel) (acc : Dict.t (list nat)),
    NoDup (Dict.keys acc ++ map fst quregs)%list ->
    let total := list_sum (map snd quregs) in
    List.concat (map snd (fst (allocate_quregs quregs next k acc)))
    = (List.concat (map snd acc) ++ seq next total)%list /\
    snd (allocate_quregs quregs next k acc)
    = {| rnd_seed := rnd_seed k;
         calls := (calls k ++ map KAllocate (seq next total))%list |}.
Proof.
  induction quregs as [ | [key size] rest IH]; intros next k acc Hnd; simpl.
  - rewrite !app_nil_r. split; [reflexivity | now destruct k].
  - assert (Hfresh : ~ In key (Dict.keys acc)).
    { apply NoDup_remove_2 in Hnd. intro Hin. apply Hnd.
      apply in_or_app. now left. }
    rewrite (Dict_set_fresh _ _ _ Hfresh).
    destruct (IH (next + size)%nat
                 (fold_left (fun k q => call (KAllocate q) k)
                            (seq next size) k)
                 (acc ++ [(key, seq next size)])%list) as [IH1 IH2].
    { unfold Dict.keys. rewrite map_app, <- app_assoc. exact Hnd. }
    rewrite IH1, IH2, calls_fold_allocate. simpl.
    rewrite map_app, concat_app, seq_app, map_app. simpl.
    rewrite app_nil_r, <- !app_assoc. auto.
Qed.

Lemma measure_all_beyond (qureg : list nat) (len : nat) :
  forall (start : nat) (st : state),
    (start <= List.length qureg < start + len)%nat ->
    measure_all qureg (seq start len) st = Raise IndexError.
Proof.
  induction len as [ | len IH]; intros start st Hlen; simpl.
  - lia.
  - unfold index.
    destruct (nth_error qureg start) as [qubit | ] eqn:Hnth.
    + simpl. apply IH.
      assert (start < List.length qureg)%nat
        by (apply nth_error_Some; congruence).
      lia.
    + reflexivity.
Qed.

(** X10.  The flattened quantum register of a circuit is made of the
    qubits 0, 1, ... of a fresh engine, as many as the sizes of the
    registers of its labels add up to, allocated in this order on the
    simulator the circuit runs on.  When the header declares more qubits
    than that, the measurement of all qubits that ends a shot reads past
    the register: no run of at least one shot succeeds. *)
Theorem quantum_register_of_the_labels (c : circuit) (k : kernel) :
  let total :=
    list_sum
      (map snd
           (Dict.of_list
              (_get_register_specs (qubit_labels (circ_header c))))) in
  fst (setup c k) = seq 0 total /\
  sim (snd (setup c k))
  = {| rnd_seed := rnd_seed (circuit_kernel c k);
       calls := (calls (circuit_kernel c k)
                 ++ map KAllocate (seq 0 total))%list |} /\
  ((total < number_of_qubits (circ_header c))%nat ->
   forall backend _shots st,
     0 < _shots -> execute backend _shots c k <> Ok st).
Proof.
  intro total.
  pose proof (allocate_quregs_spec
                (Dict.of_list
                   (_get_register_specs (qubit_labels (circ_header c))))
                0%nat (circuit_kernel c k) Dict.empty) as Halloc.
  simpl in Halloc. specialize (Halloc (Dict_keys_of_list _)).
  fold total in Halloc. destruct Halloc as [Hqureg Hkernel].
  assert (Hfst : fst (setup c k) = seq 0 total).
  { unfold setup. destruct (allocate_quregs _ _ _ _) as [d k']. exact Hqureg. }
  split; [exact Hfst | split].
  - unfold setup. destruct (allocate_quregs _ _ _ _) as [d k']. exact Hkernel.
  - intros Hmore backend _shots st Hshots Hrun. unfold execute in Hrun.
    destruct (Z.to_nat _shots) as [ | n] eqn:Hn; [lia | ].
    simpl in Hrun. unfold run_shot at 1 in Hrun.
    destruct (run_instructions _ _ _ _) as [st1 | e]; [ | discriminate].
    cbn [bind] in Hrun.
    rewrite measure_all_beyond in Hrun; [discriminate | ].
    rewrite Hfst, length_seq. lia.
Qed.

(** ** Register specifications of arbitrary labels *)

Lemma groupby_members (labels : list (string * nat)) :
  forall name ind,
    In (name, ind) labels <->
    exists g, In (name, g) (groupby labels) /\ In ind (fst g :: snd g).
Proof.
  induction labels as [ | [name' ind'] rest IH]; intros name ind.
  - simpl. split; [tauto | intros [g [[] _]]].
  - cbn [groupby].
    destruct (groupby rest) as [ | [name'' [i inds]] groups] eqn:Hg.
    + split.
      * intros [Heq | Hin].
        -- injection Heq as -> ->. exists (ind, []). simpl. auto.
        -- apply IH in Hin. destruct Hin as [g [[] _]].
      * intros [g [[Heq | []] Hin]]. injection Heq as -> <-.
        simpl in Hin. destruct Hin as [-> | []]. now left.
    + destruct (String.eqb_spec name' name'') as [<- | Hne].
      * split.
        -- intros [Heq | Hin].
           ++ injection Heq as -> ->. exists (ind, i :: inds).
              simpl. auto.
           ++ apply IH in Hin. destruct Hin as [g [[Heq | Hin] Hind]].
              ** injection Heq as -> <-. exists (ind', i :: inds).
                 split; [now left | now right].
              ** exists g. split; [now right | exact Hind].
        -- intros [g [[Heq | Hin] Hind]].
           ++ injection Heq as -> <-. simpl in Hind.
              destruct Hind as [-> | Hind]; [now left | right].
              apply IH. exists (i, inds). split; [now left | exact Hind].
           ++ right. apply IH. exists g. split; [now right | exact Hind].
      * split.
        -- intros [Heq | Hin].
           ++ injection Heq as -> ->. exists (ind, []). simpl. auto.
           ++ apply IH in Hin. destruct Hin as [g [Hin Hind]].
              exists g. split; [now right | exact Hind].
        -- intros [g [[Heq | Hin] Hind]].
           ++ injection Heq as -> <-. simpl in Hind.
              destruct Hind as [-> | []]. now left.
           ++ right. apply IH. exists g. split; assumption.
Qed.

Lemma list_max_member (a : nat) (l : list nat) :
  In (list_max (a :: l)) (a :: l).
Proof.
  revert a. induction l as [ | b l IH]; intro a.
  - simpl. left. lia.
  - change (list_max (a :: b :: l)) with (Nat.max a (list_max (b :: l))).
    destruct (Nat.max_spec a (list_max (b :: l))) as [[_ ->] | [_ ->]].
    + right. apply IH.
    + now left.
Qed.

(** X11.  The register specifications of any list of bit labels,
    contiguous or not.  Every label is covered by an entry of its name
    whose size exceeds its index, and every entry is one more than the
    index of some label of its name, so at least 1.  In the ordered
    mapping built from the entries a name that comes in several runs
    keeps the size of its last run only. *)
Theorem register_specs_cover_the_labels (labels : list (string * nat)) :
  let specs := _get_register_specs labels in
  (forall name ind,
     In (name, ind) labels ->
     exists size, In (name, size) specs /\ (ind < size)%nat) /\
  (forall name size,
     In (name, size) specs ->
     exists ind, In (name, ind) labels /\ size = S ind) /\
  (forall pre name size post,
     specs = (pre ++ (name, size) :: post)%list ->
     ~ In name (map fst post) ->
     Dict.get name (Dict.of_list specs) = Some size).
Proof.
  intro specs. unfold specs, _get_register_specs.
  split; [ | split].
  - intros name ind Hin. apply groupby_members in Hin.
    destruct Hin as [[i inds] [Hg Hind]].
    exists (max_of (i, inds) + 1)%nat. split.
    + apply in_map_iff. exists (name, (i, inds)). auto.
    + rewrite max_of_list_max.
      assert (ind <= list_max (i :: inds))%nat; [ | lia].
      pose proof (proj1 (list_max_le (i :: inds) (list_max (i :: inds)))
                        (Nat.le_refl _)) as Hall.
      rewrite Forall_forall in Hall. now apply Hall.
  - intros name size Hin. apply in_map_iff in Hin.
    destruct Hin as [[name' [i inds]] [Heq Hg]]. cbn [fst snd] in Heq.
    injection Heq as -> <-.
    exists (max_of (i, inds)). split; [ | lia].
    apply groupby_members. exists (i, inds). split; [exact Hg | ].
    rewrite max_of_list_max. apply list_max_member.
  - intros pre name size post Hspecs Hpost. rewrite Hspecs.
    unfold Dict.of_list. rewrite fold_left_app. simpl.
    rewrite (Dict_get_fold_set_other _ _ Hpost).
    apply Dict_get_set_same.
Qed.

(** ** Offsets of the classical registers *)

(** X12.  The loop over the classical-bit labels gives every register the
    size its label declares and, as starting bit, the sum of the sizes of
    the registers declared before it. *)
Theorem classical_registers_are_cumulative
    (labels : list (string * nat)) :
  forall start cl_reg_index cl_reg_nbits,
    classical_registers labels start = (cl_reg_index, cl_reg_nbits) ->
    cl_reg_nbits = map snd labels /\
    List.length cl_reg_index = List.length labels /\
    forall j,
      (j < List.length labels)%nat ->
      nth_error cl_reg_index j
      = Some (start + list_sum (firstn j (map snd labels)))%nat.
Proof.
  induction labels as [ | [name size] rest IH];
    intros start cl_reg_index cl_reg_nbits H; simpl in H.
  - injection H as <- <-. repeat split. intros j Hj. simpl in Hj. lia.
  - destruct (classical_registers rest (start + size)) as [idx nbits] eqn:Hr.
    injection H as <- <-.
    destruct (IH _ _ _ Hr) as [-> [Hlen Hnth]].
    split; [reflexivity | split; [simpl; congruence | ]].
    intros [ | j] Hj; simpl.
    + f_equal. lia.
    + rewrite Hnth by (simpl in Hj; lia). f_equal. lia.
Qed.

(** ** One classical register *)

Lemma format_entries_identity (n : nat) (items : list (string * Z)) :
  (1 <= n)%nat ->
  Forall (fun entry => (String.length (fst entry) <= n)%nat) items ->
  forall acc : Dict.t Z,
    NoDup (Dict.keys acc ++ map fst items)%list ->
    format_entries items [0%nat] [n] acc = Ok (acc ++ items)%list.
Proof.
  intros Hn. induction 1 as [ | [key value] items Hlen _ IH];
    intros acc Hnd.
  - simpl. now rewrite app_nil_r.
  - simpl in Hlen.
    assert (Hkey : format_key key [0%nat] [n] = Ok key).
    { unfold format_key. simpl. unfold join. simpl.
      unfold slice, slice_bound.
      destruct (Z.ltb_spec (- Z.of_nat n) 0); [ | lia].
      replace (Z.to_nat (Z.max 0 (- Z.of_nat n + Z.of_nat (String.length key))))
        with 0%nat by lia.
      simpl skipn. rewrite Nat.sub_0_r, firstn_all2
        by (rewrite length_list_ascii_of_string; lia).
      now rewrite string_of_list_ascii_of_string. }
    cbn [format_entries]. rewrite Hkey. cbn [bind].
    assert (Hfresh : ~ In key (Dict.keys acc)).
    { simpl in Hnd. apply NoDup_remove_2 in Hnd. intro Hin. apply Hnd.
      apply in_or_app. now left. }
    rewrite (Dict_set_fresh _ _ _ Hfresh), IH.
    + now rewrite <- app_assoc.
    + unfold Dict.keys. rewrite map_app, <- app_assoc. exact Hnd.
Qed.

(** X13.  With a single classical register of at least one bit the
    formatter has no register boundary to mark: a histogram whose keys are
    no wider than the register comes back as it is, keys, counts and
    order. *)
Theorem single_register_keeps_the_histogram (n : nat) (counts : Dict.t Z) :
  (1 <= n)%nat ->
  NoDup (Dict.keys counts) ->
  Forall (fun entry => (String.length (fst entry) <= n)%nat) counts ->
  classical_registers [("c", n)] 0 = ([0%nat], [n]) /\
  _format_result counts [0%nat] [n] = Ok counts.
Proof.
  intros Hn Hnd Hlens. split; [reflexivity | ].
  unfold _format_result.
  now rewrite (format_entries_identity n counts Hn Hlens Dict.empty).
Qed.

(** ** Validating twice *)

Lemma validate_experiments_again (circuits : list circuit) :
  validate_experiments (fst (fst (validate_experiments circuits)))
  = (fst (fst (validate_experiments circuits)), [],
     snd (validate_experiments circuits)).
Proof.
  induction circuits as [ | c rest IH]; simpl.
  - reflexivity.
  - destruct (rejected c) eqn:Hc.
    + cbn [fst snd validate_experiments].
      change (rejected (forced c)) with (rejected c). rewrite Hc.
      reflexivity.
    + destruct (validate_experiments rest) as [[rest' log'] raised].
      cbn [fst snd] in *. cbn [validate_experiments].
      change (rejected (forced c)) with (rejected c). rewrite Hc, IH.
      reflexivity.
Qed.

(** ** The snapshot store *)

Lemma dispatch_snapshot_count (backend : string) (qureg : list nat)
    (st st' : state) (operation : instruction) (location : string) :
  dispatch backend qureg st operation = Ok st' ->
  snapshot_count location (snapshots st') =
  (snapshot_count location (snapshots st)
   + if snapshot_at location operation then 1 else 0)%nat.
Proof.
  destruct operation as [name params qubits clbits cond].
  unfold dispatch, name_in, snapshot_at, snapshot_count.
  cbn [op_name op_params op_qubits op_clbits].
  name_cases name.
  all: intro H; bind_inv; cbn [andb]; try (now rewrite Nat.add_0_r).
  all: unfold index in Ha; destruct (nth_error params 0) as [label | ];
    try discriminate; injection Ha as ->;
    cbn [snapshots with_snapshots apply with_kernel] in *;
    destruct (String.eqb_spec (str a) location) as [<- | Hne].
  all: try (rewrite Dict_get_set_same;
            match goal with
            | Hg : Dict.get _ _ = _ |- _ => rewrite Hg
            end;
            try rewrite length_app; simpl; lia).
  all: rewrite Dict_get_set_other by congruence; lia.
Qed.

Lemma run_instructions_snapshot_count (backend : string)
    (qureg : list nat) (location : string)
    (instructions : list instruction) :
  Forall (fun operation => op_conditional operation = None) instructions ->
  forall st st',
    run_instructions backend qureg st instructions = Ok st' ->
    snapshot_count location (snapshots st') =
    (snapshot_count location (snapshots st)
     + List.length (filter (snapshot_at location) instructions))%nat.
Proof.
  induction 1 as [ | operation rest Hcond _ IH]; intros st st' H;
    simpl in H.
  - injection H as <-. simpl. lia.
  - bind_inv. rewrite (IH _ _ H).
    unfold step in Ha. rewrite Hcond in Ha. simpl in Ha.
    rewrite (dispatch_snapshot_count _ _ _ _ _ location Ha).
    simpl. destruct (snapshot_at location operation); simpl; lia.
Qed.

(** X15.  The snapshot store of a circuit without conditional clauses:
    after the shot loop the entry of a label holds one vector for each
    shot and each snapshot instruction of that label, and a label that no
    snapshot instruction uses, or any label when no shot ran, has no
    entry. *)
Theorem snapshot_store_counts (backend : string) (_shots : Z)
    (c : circuit) (k : kernel) (st : state) (location : string) :
  Forall (fun operation => op_conditional operation = None)
         (circ_instructions c) ->
  execute backend _shots c k = Ok st ->
  let per_shot :=
    List.length (filter (snapshot_at location) (circ_instructions c)) in
  snapshot_count location (snapshots st) = (Z.to_nat _shots * per_shot)%nat /\
  ((Z.to_nat _shots * per_shot = 0)%nat ->
   Dict.get location (snapshots st) = None).
Proof.
  intros Hcond Hrun per_shot.
  assert (Hshots : forall shots st0 st1,
             run_shots backend c (fst (setup c k)) st0 shots = Ok st1 ->
             snapshot_count location (snapshots st1) =
             (snapshot_count location (snapshots st0)
              + List.length shots * per_shot)%nat /\
             (Dict.get location (snapshots st0) = None ->
              (List.length shots * per_shot = 0)%nat ->
              Dict.get location (snapshots st1) = None)).
  { induction shots as [ | i rest IH]; intros st0 st1 H; simpl in H.
    - injection H as <-. simpl. split; [lia | auto].
    - bind_inv. destruct (IH _ _ H) as [IHcount IHnone].
      unfold run_shot in Ha. bind_inv.
      cbn [snapshots with_outcomes apply with_kernel] in *.
      pose proof (run_instructions_snapshot_count backend _ location _
                    Hcond _ _ Ha0) as Hcount.
      pose proof (measure_all_classical_state _ _ _ _ Ha1)
        as [_ [Hsnap _]].
      assert (Hstart : snapshots (shot_start (fst (setup c k)) st0 i)
                       = snapshots st0) by now destruct i.
      rewrite Hsnap, Hcount, Hstart in IHcount.
      rewrite Hsnap in IHnone.
      split; [fold per_shot in IHcount; simpl; lia | ].
      intros Hnone Hzero. simpl in Hzero.
      apply IHnone; [ | lia].
      destruct (filter (snapshot_at location) (circ_instructions c))
        as [ | operation ops] eqn:Hfilter;
        [ | unfold per_shot in Hzero; try rewrite Hfilter in Hzero;
            simpl in Hzero; lia].
      rewrite <- Hstart in Hnone.
      assert (Hnowhere : Forall (fun operation =>
                                   snapshot_at location operation = false)
                                (circ_instructions c)).
      { apply Forall_forall. intros operation' Hin.
        destruct (snapshot_at location operation') eqn:Hat;
          [ | reflexivity].
        assert (Hin' : In operation'
                         (filter (snapshot_at location)
                                 (circ_instructions c)))
          by (apply filter_In; auto).
        rewrite Hfilter in Hin'. destruct Hin'. }
      exact (run_instructions_snapshots backend _ location
               (circ_instructions c) Hnowhere _ _ Ha0 Hnone). }
  unfold execute in Hrun. destruct (Hshots _ _ _ Hrun) as [Hcount Hnone].
  rewrite setup_snapshots in Hcount, Hnone.
  rewrite length_seq in Hcount, Hnone.
  split; [exact Hcount | ]. intro Hzero. now apply Hnone.
Qed.

(** ** The job of the statevector backend *)

Lemma validate_experiments_not_rejected (circuits : list circuit) :
  snd (validate_experiments circuits) = None ->
  Forall (fun c => rejected c = false) circuits.
Proof.
  induction circuits as [ | c rest IH]; simpl; intro H.
  - constructor.
  - destruct (rejected c) eqn:Hc; [discriminate | ].
    destruct (validate_experiments rest) as [[rest' log'] raised].
    constructor; [exact Hc | now apply IH].
Qed.

Lemma rejected_append_final_snapshot (c : circuit) :
  rejected (append_final_snapshot (forced c)) = rejected c.
Proof.
  unfold rejected. cbn [append_final_snapshot forced with_config
                        circ_instructions].
  rewrite existsb_app.
  change (existsb _ [final_snapshot]) with false.
  apply orb_false_r.
Qed.

Lemma validate_experiments_extended (circuits : list circuit) :
  Forall (fun c => rejected c = false) circuits ->
  validate_experiments (map append_final_snapshot (map forced circuits))
  = (map append_final_snapshot (map forced circuits), [], None).
Proof.
  induction 1 as [ | c rest Hc _ IH]; cbn [map validate_experiments].
  - reflexivity.
  - rewrite rejected_append_final_snapshot, Hc, IH.
    rewrite forced_append_final_snapshot. reflexivity.
Qed.

Lemma no_measure_when_accepted (c : circuit) :
  rejected c = false ->
  name_in "measure"
          (map op_name (circ_instructions (append_final_snapshot (forced c))))
  = false.
Proof.
  unfold rejected, name_in.
  cbn [append_final_snapshot forced with_config circ_instructions].
  rewrite map_app, existsb_app.
  change (existsb (String.eqb "measure") (map op_name [final_snapshot]))
    with false.
  rewrite orb_false_r.
  induction (circ_instructions c) as [ | operation rest IH];
    cbn [map existsb]; intro H.
  - reflexivity.
  - apply orb_false_elim in H. destruct H as [Hop Hrest].
    apply orb_false_elim in Hop. destruct Hop as [Hop _].
    rewrite String.eqb_sym, Hop. now apply IH.
Qed.

(** The snapshot a job appends to a circuit is taken in every state, and
    leaves at least one vector under its label. *)
Lemma step_final_snapshot_entry (backend : string) (qureg : list nat)
    (st : state) :
  exists st' v vs,
    step backend qureg st final_snapshot = Ok st' /\
    Dict.get "32767" (snapshots st') = Some (v :: vs).
Proof.
  unfold step, dispatch. simpl.
  change (str_int final_state_key) with "32767".
  destruct (Dict.get "32767" (snapshots st)) as [vectors | ] eqn:Hget.
  - destruct vectors as [ | v vs].
    + eexists _, _, _. split; [reflexivity | ].
      cbn [snapshots with_snapshots]. rewrite Dict_get_set_same.
      reflexivity.
    + eexists _, v, _. split; [reflexivity | ].
      cbn [snapshots with_snapshots]. rewrite Dict_get_set_same.
      reflexivity.
  - eexists _, _, _. split; [reflexivity | ].
    cbn [snapshots with_snapshots]. rewrite Dict_get_set_same.
    reflexivity.
Qed.

Lemma Counter_singleton (outcome : string) :
  Counter [outcome] = [(outcome, 1)].
Proof. reflexivity. Qed.

(** One circuit of an accepted job, run by the base class with the final
    snapshot appended. *)
Lemma run_circuit_of_accepted (backend : string) (_seed : Z) (c : circuit)
    (k k' : kernel) (res : experiment_result) :
  rejected c = false ->
  run_circuit backend _seed 1 (append_final_snapshot (forced c)) k
  = Ok (res, k') ->
  res_name res = hdr_name (circ_header c) /\
  res_shots res = 1 /\
  data_classical_state (res_data res) = Some 0 /\
  (exists key, data_counts (res_data res) = [(key, 1)]) /\
  exists snaps v vs,
    data_snapshots (res_data res) = Some snaps /\
    Dict.get "32767" snaps = Some (v :: vs).
Proof.
  intros Hc Hrun. unfold run_circuit in Hrun.
  destruct (classical_registers _ _) as [cl_reg_index cl_reg_nbits].
  bind_inv. rename Ha into Hexec, Ha0 into Hformat.
  destruct (execute_without_measure backend 1 _ k _
              (no_measure_when_accepted c Hc) Hexec) as [Hstate Hout].
  cbn [res_name res_shots res_data data_classical_state data_counts
       data_snapshots].
  rewrite Hstate.
  split; [reflexivity | ]. split; [reflexivity | ].
  split; [reflexivity | ]. split.
  - rewrite Hout in Hformat. change (Z.to_nat 1) with 1%nat in Hformat.
    cbn [repeat] in Hformat. rewrite Counter_singleton in Hformat.
    unfold _format_result in Hformat. cbn [format_entries] in Hformat.
    bind_inv. eexists. reflexivity.
  - unfold execute in Hexec.
    change (seq 0 (Z.to_nat 1)) with [0%nat] in Hexec.
    cbn [run_shots] in Hexec. bind_inv.
    match goal with
    | Hshot : run_shot _ _ _ _ _ = Ok _ |- _ =>
        unfold run_shot in Hshot;
        cbn [append_final_snapshot circ_instructions circ_header] in Hshot;
        rewrite run_instructions_app in Hshot
    end.
    bind_inv.
    match goal with
    | Hlast : run_instructions _ _ ?st1 [final_snapshot] = Ok _,
      Hall : measure_all _ _ _ = Ok _ |- _ =>
        cbn [run_instructions] in Hlast;
        destruct (step_final_snapshot_entry backend
                    (fst (setup (append_final_snapshot (forced c)) k)) st1)
          as [st' [v [vs [Hstep Hget]]]];
        rewrite Hstep in Hlast; cbn [bind] in Hlast; injection Hlast as <-;
        apply measure_all_classical_state in Hall;
        destruct Hall as [_ [Hsnap _]]
    end.
    cbn [snapshots with_outcomes apply with_kernel].
    exists (snapshots st'), v, vs. rewrite Hsnap.
    split; [ | exact Hget].
    destruct (snapshots st'); [discriminate | reflexivity].
Qed.

Lemma extract_final_state_Ok (key : sentinel) (res : experiment_result)
    (snaps : Dict.t (list statevector)) (v : statevector)
    (vs : list statevector) :
  data_snapshots (res_data res) = Some snaps ->
  Dict.get "32767" snaps = Some (v :: vs) ->
  sentinel_str key = "32767" ->
  exists res',
    extract_final_state key res = Ok (SStr "32767", res') /\
    res_name res' = res_name res /\
    res_seed res' = res_seed res /\
    res_shots res' = res_shots res /\
    res_status res' = res_status res /\
    data_counts (res_data res') = data_counts (res_data res) /\
    data_classical_state (res_data res')
    = data_classical_state (res_data res) /\
    data_statevector (res_data res') = Some v.
Proof.
  intros Hsnaps Hget Hkey. unfold extract_final_state.
  rewrite Hsnaps. cbn [bind]. rewrite Hkey, Hget.
  unfold Dict.pop. rewrite Hget. cbn [bind index nth_error].
  eexists. split; [reflexivity | ].
  cbn [res_name res_seed res_shots res_status res_data data_counts
       data_classical_state data_statevector].
  repeat split.
Qed.

Lemma map_forced_extended (circuits : list circuit) :
  map forced (map append_final_snapshot (map forced circuits))
  = map append_final_snapshot (map forced circuits).
Proof.
  induction circuits as [ | c rest IH]; cbn [map].
  - reflexivity.
  - now rewrite IH, forced_append_final_snapshot.
Qed.

Lemma names_of_extended (circuits : list circuit) :
  map (fun c => hdr_name (circ_header c))
      (map append_final_snapshot (map forced circuits))
  = map (fun c => hdr_name (circ_header c)) circuits.
Proof. rewrite !map_map. reflexivity. Qed.

(** The loop over the values of the mapping, when every result has a
    vector under the sentinel label: no result is left out, each is
    extracted under its name. *)
Lemma extract_final_states_Ok (d : Dict.t experiment_result) :
  Forall (fun entry =>
            exists snaps v vs,
              data_snapshots (res_data (snd entry)) = Some snaps /\
              Dict.get "32767" snaps = Some (v :: vs))
         d ->
  forall key,
    sentinel_str key = "32767" ->
    exists d',
      extract_final_states key d = Ok d' /\
      Forall2
        (fun entry entry' =>
           fst entry' = fst entry /\
           exists key0,
             sentinel_str key0 = "32767" /\
             extract_final_state key0 (snd entry)
             = Ok (SStr "32767", snd entry'))
        d d'.
Proof.
  induction 1 as [ | [name res] rest [snaps [v [vs [Hsnaps Hget]]]] _ IH];
    intros key Hkey.
  - exists []. split; [reflexivity | constructor].
  - cbn [snd] in Hsnaps.
    destruct (extract_final_state_Ok key res snaps v vs Hsnaps Hget Hkey)
      as [res' [Hext _]].
    destruct (IH (SStr "32767") eq_refl) as [rest' [Hexts Hall]].
    exists ((name, res') :: rest'). split.
    + cbn [extract_final_states]. rewrite Hext. cbn [bind fst snd].
      rewrite Hexts. reflexivity.
    + constructor; [ | exact Hall].
      split; [reflexivity | ]. exists key. auto.
Qed.

Lemma entries_related {V : Type} (P : V -> V -> Prop) (d d' : Dict.t V) :
  Forall2 (fun entry entry' =>
             fst entry' = fst entry /\ P (snd entry) (snd entry'))
          d d' ->
  Dict.keys d' = Dict.keys d /\
  (forall n v', Dict.get n d' = Some v' ->
                exists v, Dict.get n d = Some v /\ P v v') /\
  (forall n v, Dict.get n d = Some v ->
               exists v', Dict.get n d' = Some v' /\ P v v').
Proof.
  induction 1 as [ | [n0 v0] [n0' v0'] d d' [Hname HP] _ IH];
    cbn [fst snd] in *.
  - split; [reflexivity | split; intros n v H; discriminate H].
  - subst n0'. destruct IH as [Hkeys [Hfrom Hto]].
    split; [simpl; now rewrite Hkeys | ].
    split; intros n v Hget; simpl in *;
      destruct (String.eqb n n0); eauto;
      injection Hget as <-; eauto.
Qed.

(** A job of the statevector backend that succeeds, step by step: every
    circuit was accepted, the base class has run the circuits, each with
    its final snapshot appended, for one shot, and the extraction went
    through the mapping of their results. *)
Lemma statevector_job_Ok (backend : string) (getrandbits : Z) (q : qobj)
    (r : job_result) :
  statevector_run_job backend getrandbits q = Ok r ->
  Forall (fun c => rejected c = false) (experiments q) /\
  job_status r = "COMPLETED" /\
  exists _seed result_list,
    run_circuits backend _seed 1
                 (map append_final_snapshot (map forced (experiments q)))
                 (CppSim _seed)
    = Ok result_list /\
    extract_final_states
      (SInt final_state_key)
      (result_from_old_style_dict result_list (experiment_names q))
    = Ok (job_results r).
Proof.
  intro Hjob. unfold statevector_run_job in Hjob.
  destruct (v_raised (statevector_validate q)) eqn:Hraised; [discriminate | ].
  destruct (statevector_validate_accepted q Hraised) as [Hcircuits _].
  assert (Haccepted : Forall (fun c => rejected c = false) (experiments q)).
  { apply validate_experiments_not_rejected.
    unfold statevector_validate in Hraised.
    destruct (_set_shots_to_1 _ _ _).
    destruct (validate_experiments (experiments q)) as [[? ?] ?].
    exact Hraised. }
  split; [exact Haccepted | ].
  rewrite Hcircuits in Hjob.
  unfold _run_job in Hjob. cbn [snd] in Hjob.
  match type of Hjob with
  | context [statevector_validate ?q1] =>
      destruct (v_raised (statevector_validate q1)) eqn:Hraised1;
      [discriminate | ];
      destruct (statevector_validate_accepted q1 Hraised1)
        as [Hcircuits1 [cfg [Hcfg Hshots]]]
  end.
  unfold experiment_names in *.
  rewrite Hcircuits1, Hcfg in Hjob.
  cbn [experiments attribute bind] in Hjob.
  rewrite Hshots in Hjob. cbn [attribute bind] in Hjob.
  rewrite map_forced_extended, names_of_extended in Hjob.
  bind_inv. cbn [job_results job_status] in *.
  split; [reflexivity | ]. eauto.
Qed.

(** The results the base class returns for the circuits of an accepted
    job, under their names. *)
Lemma statevector_results_by_name (backend : string) (_seed : Z)
    (circuits : list circuit) (k : kernel)
    (result_list : list experiment_result) :
  Forall (fun c => rejected c = false) circuits ->
  run_circuits backend _seed 1
               (map append_final_snapshot (map forced circuits)) k
  = Ok result_list ->
  Forall2
    (fun c res =>
       rejected c = false /\
       exists k0 k',
         run_circuit backend (res_seed res) 1
                     (append_final_snapshot (forced c)) k0
         = Ok (res, k'))
    circuits result_list.
Proof.
  intros Haccepted Hrun. rewrite map_map in Hrun.
  apply run_circuits_each in Hrun.
  induction Hrun as [ | c res cs rs [Hseed [k0 [k' Hc]]] _ IH].
  - constructor.
  - inversion Haccepted; subst. constructor; [ | now apply IH].
    split; [assumption | ]. exists k0, k'. exact Hc.
Qed.

Lemma statevector_entries_have_final_state (backend : string)
    (circuits : list circuit) (result_list : list experiment_result) :
  Forall2
    (fun c res =>
       rejected c = false /\
       exists k0 k',
         run_circuit backend (res_seed res) 1
                     (append_final_snapshot (forced c)) k0
         = Ok (res, k'))
    circuits result_list ->
  Forall (fun entry =>
            exists snaps v vs,
              data_snapshots (res_data (snd entry)) = Some snaps /\
              Dict.get "32767" snaps = Some (v :: vs))
         (result_from_old_style_dict
            result_list
            (map (fun c => hdr_name (circ_header c)) circuits)).
Proof.
  intro Hall. apply Forall_forall. intros [name res] Hin.
  unfold result_from_old_style_dict in Hin.
  apply Dict_In_of_list, in_combine_r in Hin.
  destruct (Forall2_In_r _ _ _ _ Hall Hin) as [c [_ [Hc [k0 [k' Hrun]]]]].
  destruct (run_circuit_of_accepted _ _ _ _ _ _ Hc Hrun)
    as [_ [_ [_ [_ Hentry]]]].
  exact Hentry.
Qed.

(** X14.  The validation of the statevector backend, which a job goes
    through twice, once in its own [_run_job] and once in the one of the
    base class, changes nothing the second time.  On the qobj it has left
    it leaves the same qobj, raises the same error and logs nothing; and
    on the qobj of a job it has accepted, whose circuits have their final
    snapshot appended by then, it raises nothing, logs nothing and leaves
    the qobj as it is. *)
Theorem statevector_validate_twice (q : qobj) :
  let v := statevector_validate q in
  (let v' := statevector_validate (v_qobj v) in
   v_qobj v' = v_qobj v /\ v_raised v' = v_raised v /\ v_log v' = []) /\
  (v_raised v = None ->
   let q1 := {| qobj_id := qobj_id (v_qobj v);
                qobj_config := qobj_config (v_qobj v);
                experiments :=
                  map append_final_snapshot (experiments (v_qobj v)) |} in
   statevector_validate q1
   = {| v_qobj := q1; v_log := []; v_raised := None |}).
Proof.
  cbv zeta. split.
  - unfold statevector_validate.
    destruct (_set_shots_to_1 (qobj_config q) None false)
      as [cfg log] eqn:Hjob.
    pose proof (validate_experiments_again (experiments q)) as Hagain.
    destruct (validate_experiments (experiments q))
      as [[circuits log'] raised].
    cbn [fst snd] in Hagain.
    cbn [v_qobj qobj_config experiments qobj_id].
    unfold _set_shots_to_1 in Hjob. injection Hjob as <- _.
    cbn [_set_shots_to_1 cfg_shots cfg_seed fst snd].
    rewrite Hagain. cbn [v_qobj v_raised v_log app]. auto.
  - intro Hraised.
    destruct (statevector_validate_accepted q Hraised)
      as [Hcircuits [cfg [Hcfg Hshots]]].
    assert (Haccepted : Forall (fun c => rejected c = false)
                               (experiments q)).
    { apply validate_experiments_not_rejected.
      unfold statevector_validate in Hraised.
      destruct (_set_shots_to_1 _ _ _).
      destruct (validate_experiments (experiments q)) as [[? ?] ?].
      exact Hraised. }
    rewrite Hcircuits, Hcfg.
    unfold statevector_validate at 1.
    cbn [experiments qobj_config qobj_id].
    rewrite (validate_experiments_extended _ Haccepted).
    unfold _set_shots_to_1. rewrite Hshots. cbn [fst snd app cfg_seed].
    destruct cfg as [seed shots]. cbn [cfg_shots cfg_seed] in *.
    now subst shots.
Qed.

(** X16.  The results of a job of the statevector backend that succeeds.
    They come under the names of the circuits of the job, one for each
    circuit and in the order of the circuits when the names are distinct;
    each has the name it is kept under, status DONE, a shot count of 1,
    the classical state 0, a histogram with a single outcome counted
    once, and a statevector. *)
Theorem statevector_job_results (backend : string) (getrandbits : Z)
    (q : qobj) (r : job_result) :
  statevector_run_job backend getrandbits q = Ok r ->
  job_status r = "COMPLETED" /\
  (forall name,
     In name (Dict.keys (job_results r)) <-> In name (experiment_names q)) /\
  (NoDup (experiment_names q) ->
   Dict.keys (job_results r) = experiment_names q) /\
  (forall name res,
     Dict.get name (job_results r) = Some res ->
     res_name res = name /\
     res_shots res = 1 /\
     res_status res = "DONE" /\
     data_classical_state (res_data res) = Some 0 /\
     (exists outcome, data_counts (res_data res) = [(outcome, 1)]) /\
     exists v, data_statevector (res_data res) = Some v).
Proof.
  intro Hjob.
  destruct (statevector_job_Ok _ _ _ _ Hjob)
    as [Haccepted [Hstatus [_seed [result_list [Hrun Hextract]]]]].
  pose proof (statevector_results_by_name _ _ _ _ _ Haccepted Hrun) as Hall.
  destruct (results_by_name _ _ _ Hall) as [Hkeys [Hdistinct [Hentry _]]].
  destruct (extract_final_states_Ok _
              (statevector_entries_have_final_state _ _ _ Hall)
              (SInt final_state_key) eq_refl)
    as [d' [Hexts Hrelated]].
  unfold experiment_names in *.
  rewrite Hexts in Hextract. injection Hextract as Hd'.
  rewrite <- Hd'.
  destruct (entries_related
              (fun res res' =>
                 exists key0,
                   sentinel_str key0 = "32767" /\
                   extract_final_state key0 res = Ok (SStr "32767", res'))
              _ _ Hrelated) as [Hsame [Hfrom _]].
  split; [exact Hstatus | ].
  split; [intro name; rewrite Hsame; apply Hkeys | ].
  split.
  - intro Hnd. rewrite Hsame, (Hdistinct Hnd).
    apply map_fst_combine_same_length.
    rewrite length_map. now apply Forall2_length in Hall.
  - intros name res' Hget.
    destruct (Hfrom _ _ Hget) as [res [Hres [key0 [Hkey0 Hext]]]].
    destruct (Hentry _ _ Hres) as [c [_ [Hname [Hc [k0 [k' Hone]]]]]].
    destruct (run_circuit_Ok _ _ _ _ _ _ _ Hone)
      as [st [_ [_ [_ [_ [_ [Hdone _]]]]]]].
    destruct (run_circuit_of_accepted _ _ _ _ _ _ Hc Hone)
      as [Hn [Hshots [Hstate [[outcome Hcounts]
            [snaps [v [vs [Hsnaps Hsentinel]]]]]]]].
    destruct (extract_final_state_Ok key0 res snaps v vs Hsnaps Hsentinel
                                     Hkey0)
      as [res'' [Hext' [Hn' [_ [Hs' [Hst' [Hco' [Hcl' Hv']]]]]]]].
    rewrite Hext in Hext'. injection Hext' as <-.
    rewrite Hn', Hs', Hst', Hcl', Hco'.
    repeat split; try assumption; try congruence; eauto.
Qed.

(** X17.  The extraction of the final states never fails.  A job of the
    statevector backend raises an error only when its validation raises
    it, or when the base class raises it while it runs the circuits, each
    with its final snapshot appended, for one shot: the lookups of the
    extraction loop always find the snapshot store, the entry of the
    sentinel label and a vector in it. *)
Theorem statevector_extraction_never_fails (backend : string)
    (getrandbits : Z) (q : qobj) (e : exception) :
  statevector_run_job backend getrandbits q = Raise e ->
  v_raised (statevector_validate q) = Some e \/
  (v_raised (statevector_validate q) = None /\
   exists _seed,
     run_circuits backend _seed 1
                  (map append_final_snapshot (map forced (experiments q)))
                  (CppSim _seed)
     = Raise e).
Proof.
  intro Hjob. unfold statevector_run_job in Hjob.
  destruct (v_raised (statevector_validate q)) eqn:Hraised;
    [left; congruence | right; split; [reflexivity | ]].
  destruct (statevector_validate_accepted q Hraised)
    as [Hcircuits [cfg [Hcfg Hshots]]].
  assert (Haccepted : Forall (fun c => rejected c = false) (experiments q)).
  { apply validate_experiments_not_rejected.
    unfold statevector_validate in Hraised.
    destruct (_set_shots_to_1 _ _ _).
    destruct (validate_experiments (experiments q)) as [[? ?] ?].
    exact Hraised. }
  rewrite Hcircuits in Hjob.
  unfold _run_job in Hjob. cbn [snd] in Hjob.
  match type of Hjob with
  | context [statevector_validate ?q1] =>
      assert (Hraised1 : v_raised (statevector_validate q1) = None);
      [ | rewrite Hraised1 in Hjob;
          destruct (statevector_validate_accepted q1 Hraised1)
            as [Hcircuits1 [cfg1 [Hcfg1 Hshots1]]] ]
  end.
  { unfold statevector_validate at 1. cbn [experiments qobj_config].
    destruct (_set_shots_to_1 _ None false).
    now rewrite (validate_experiments_extended _ Haccepted). }
  unfold experiment_names in Hjob.
  rewrite Hcircuits1, Hcfg1 in Hjob.
  cbn [experiments attribute bind] in Hjob.
  rewrite Hshots1 in Hjob. cbn [attribute bind] in Hjob.
  rewrite map_forced_extended, names_of_extended in Hjob.
  match type of Hjob with
  | context [run_circuits backend ?s 1 ?cs ?k] =>
      exists s; destruct (run_circuits backend s 1 cs k)
        as [result_list | e'] eqn:Hrun
  end.
  - exfalso.
    pose proof (statevector_results_by_name _ _ _ _ _ Haccepted Hrun)
      as Hall.
    destruct (extract_final_states_Ok _
                (statevector_entries_have_final_state _ _ _ Hall)
                (SInt final_state_key) eq_refl)
      as [d' [Hexts _]].
    cbn [bind job_results] in Hjob. rewrite Hexts in Hjob. discriminate.
  - cbn [bind] in Hjob. congruence.
Qed.

(** X18.  In a job of the statevector backend that succeeds, a circuit
    that has no snapshot of its own under the sentinel label, and whose
    name no later circuit of the job bears, has its result in the job
    under its name: the circuit was run with one snapshot instruction
    under the sentinel label appended, the entry of that label, which
    held the single vector captured after the instructions of the
    circuit, was taken out of the snapshot store, that vector is the
    statevector of the result, and the store is absent from the result
    when it holds no other entry.  What the other circuits of the job
    are does not matter. *)
Theorem statevector_job_publishes_final_states
    (backend : string) (getrandbits : Z) (q : qobj) (r : job_result)
    (pre : list circuit) (c : circuit) (post : list circuit) :
  statevector_run_job backend getrandbits q = Ok r ->
  experiments q = (pre ++ c :: post)%list ->
  ~ In (hdr_name (circ_header c))
       (map (fun c' => hdr_name (circ_header c')) post) ->
  Forall (fun operation => snapshot_at "32767" operation = false)
         (circ_instructions c) ->
  exists res,
    Dict.get (hdr_name (circ_header c)) (job_results r) = Some res /\
    publishes_final_state backend c res.
Proof.
  intros Hjob Hsplit Hlast Hat.
  destruct (statevector_job_Ok _ _ _ _ Hjob)
    as [Haccepted [_ [_seed [result_list [Hrun Hextract]]]]].
  pose proof (statevector_results_by_name _ _ _ _ _ Haccepted Hrun) as Hall.
  destruct (results_by_name _ _ _ Hall) as [_ [_ [_ Hone]]].
  destruct (Hone pre c post Hsplit Hlast)
    as [res0 [Hres0 [_ [k0 [k' Hran]]]]].
  destruct (extract_final_states_Ok _
              (statevector_entries_have_final_state _ _ _ Hall)
              (SInt final_state_key) eq_refl)
    as [d' [Hexts Hrelated]].
  unfold experiment_names in *.
  rewrite Hexts in Hextract. injection Hextract as Hd'.
  rewrite <- Hd'.
  destruct (entries_related
              (fun res res' =>
                 exists key0,
                   sentinel_str key0 = "32767" /\
                   extract_final_state key0 res = Ok (SStr "32767", res'))
              _ _ Hrelated) as [_ [_ Hto]].
  destruct (Hto _ _ Hres0) as [res [Hres [key0 [Hkey0 Hext]]]].
  exists res. split; [exact Hres | ].
  exact (final_state_extracted backend c k0 k' res0 res key0
           Hat Hran Hkey0 Hext).
Qed.

End Simulator.

(** * Instances

    The theorems above at concrete circuits, run on a kernel whose
    measurements read 1 on qubit 0 and 0 on the other qubits, and the
    inputs on which the statements of the specification that had to be
    amended fail. *)

Lemma evaluate_conditional_shifts_in_lock_step_witness :
  0 < 6 /\
  exists k,
    0 <= k /\
    Z.testbit (Z.shiftr 6 k) 0 = true /\
    (forall j, 0 <= j < k -> Z.testbit (Z.shiftr 6 j) 0 = false) /\
    evaluate_conditional 12
      (Some {| cond_mask := 6; cond_val := 2 |}) =
    (Z.land (Z.shiftr 12 k) (Z.shiftr 6 k) =? 2)%Z.
Proof.
  split; [lia | ].
  apply (proj1 (proj2 evaluate_conditional_shifts_in_lock_step) 12 6 2).
  lia.
Defined.

Lemma conditional_reads_only_masked_bits_witness :
  evaluate_conditional 4 (Some {| cond_mask := 6; cond_val := 2 |}) =
  evaluate_conditional 52 (Some {| cond_mask := 6; cond_val := 2 |}).
Proof.
  apply (conditional_reads_only_masked_bits 4 52 6 2).
  - discriminate.
  - intros n Hn.
    destruct n as [ | n | n]; try discriminate.
    destruct n as [[n | n | ] | [n | n | ] | ]; try discriminate; reflexivity.
Defined.

Lemma measurements_compose_by_or_witness :
  let c := @example_circuit Empty_set
             [gate "h" [] [0%nat]; measure 0 0; measure 1 1] None in
  let qureg := fst (setup c (CppSim 1)) in
  let st := snd (setup c (CppSim 1)) in
  exists st',
    run_shot no_float_str reads_one_on_qubit_0 "qasm" c qureg st 0 = Ok st' /\
    let ms := measurements no_float_str reads_one_on_qubit_0 "qasm" qureg
                (shot_start qureg st 0) (circ_instructions c) in
    map fst ms = measure_targets (circ_instructions c) /\
    classical_state st' = or_of_measured_bits ms /\
    forall ms', Permutation ms ms' ->
                measure_into 0 ms' = classical_state st'.
Proof.
  intros c qureg st. eexists. split.
  - vm_compute. reflexivity.
  - apply (measurements_compose_by_or no_float_str reads_one_on_qubit_0
             "qasm" c qureg st _ 0%nat).
    + repeat constructor.
    + vm_compute. repeat constructor; simpl; intuition discriminate.
    + vm_compute. reflexivity.
Defined.

(** C4 as stated fails when two measurements target the same classical
    bit: after [h q[0]; measure q[0] -> c[0]; measure q[1] -> c[0]] with
    outcomes 1 and 0 the register holds 0, the OR of the shifted bits is 1. *)
Lemma overlapping_measurements_are_not_ored :
  let c := @example_circuit Empty_set
             [gate "h" [] [0%nat]; measure 0 0; measure 1 0] None in
  let qureg := fst (setup c (CppSim 1)) in
  let st := snd (setup c (CppSim 1)) in
  Forall (fun operation => op_conditional operation = None)
         (circ_instructions c) /\
  exists st',
    run_shot no_float_str reads_one_on_qubit_0 "qasm" c qureg st 0 = Ok st' /\
    measurements no_float_str reads_one_on_qubit_0 "qasm" qureg
      (shot_start qureg st 0) (circ_instructions c) =
    [(0%nat, true); (0%nat, false)] /\
    classical_state st' = 0 /\
    or_of_measured_bits [(0%nat, true); (0%nat, false)] = 1 /\
    classical_state st'
    <> or_of_measured_bits
         (measurements no_float_str reads_one_on_qubit_0 "qasm" qureg
            (shot_start qureg st 0) (circ_instructions c)).
Proof.
  intros c qureg st. split.
  - repeat constructor.
  - eexists. split; [vm_compute; reflexivity | ].
    repeat split. discriminate.
Defined.

Lemma reset_raises_when_reached_witness :
  let h := @gate Empty_set "h" [] [0%nat] in
  let reset := @gate Empty_set "reset" [] [1%nat] in
  let c := example_circuit [h; reset; measure 0 0] None in
  run_circuit no_float_str reads_one_on_qubit_0 "qasm" 7 3 c (CppSim 7)
  = Raise (SimulatorError reset_message).
Proof.
  intros h reset c.
  eapply (proj2 (reset_raises_when_reached no_float_str
                   reads_one_on_qubit_0)
            "qasm" 7 3 c (CppSim 7) [h] reset [measure 0 0]).
  - lia.
  - reflexivity.
  - reflexivity.
  - discriminate.
  - vm_compute. reflexivity.
  - reflexivity.
Defined.

(** C1 as stated fails for a reset under a conditional clause that
    evaluates false: the circuit [if (c == 1) reset q[0]] runs to its end. *)
Lemma conditional_reset_is_skipped :
  let reset := conditioned 1 1 (@gate Empty_set "reset" [] [0%nat]) in
  let c := example_circuit [reset] None in
  In reset (circ_instructions c) /\
  op_name reset = "reset" /\
  exists r,
    run_circuit no_float_str reads_one_on_qubit_0 "qasm" 7 1 c (CppSim 7)
    = Ok r /\
    res_success (fst r) = true /\
    data_counts (res_data (fst r)) = [("00", 1)].
Proof.
  intros reset c. split; [now left | split; [reflexivity | ]].
  eexists. split; [vm_compute; reflexivity | split; reflexivity].
Defined.

Lemma generic_unitary_is_three_rotations_witness :
  let u3 := @gate Empty_set "u3" [PInt 1; PInt 2; PInt 3] [1%nat] in
  let c := example_circuit [u3] None in
  let qureg := fst (setup c (CppSim 7)) in
  let st := snd (setup c (CppSim 7)) in
  let st' :=
    with_kernel st
      {| rnd_seed := 7;
         calls := [KAllocate 0; KAllocate 1;
                   KRz (Angle (PInt 3)) 1;
                   KRy (Angle (PInt 1)) 1;
                   KRz (Angle (PInt 2)) 1] |} in
  dispatch no_float_str reads_one_on_qubit_0 "qasm" qureg st u3 = Ok st' /\
  (evaluate_conditional (classical_state st) (op_conditional u3) = true ->
   step no_float_str reads_one_on_qubit_0 "qasm" qureg st u3 = Ok st').
Proof.
  intros u3 c qureg st st'.
  apply (generic_unitary_is_three_rotations no_float_str
           reads_one_on_qubit_0 "qasm" qureg st u3
           (PInt 1) (PInt 2) (PInt 3) [] 1%nat [] 1%nat).
  - right. reflexivity.
  - reflexivity.
  - reflexivity.
  - reflexivity.
Defined.

Lemma circuit_seed_overrides_job_shots_stand_witness :
  let cfg := {| cfg_seed := Some 7; cfg_shots := Some 5 |} in
  let c := @example_circuit Empty_set
             [gate "h" [] [0%nat]; measure 0 0] (Some cfg) in
  exists st,
    execute no_float_str reads_one_on_qubit_0 "qasm" 3 c (CppSim 11)
    = Ok st /\
    circuit_kernel c (CppSim 11) = CppSim 7 /\ rnd_seed (sim st) = 7.
Proof.
  intros cfg c. eexists. split.
  - vm_compute. reflexivity.
  - apply (proj1 (circuit_seed_overrides_job_shots_stand no_float_str
                    reads_one_on_qubit_0 "qasm" 11 3 c (CppSim 11) cfg
                    eq_refl) 7).
    + reflexivity.
    + discriminate.
    + vm_compute. reflexivity.
Defined.

(** C3 as stated fails for the shot count: with 3 shots in the job and 5
    in the configuration of the circuit, 3 shots are executed. *)
Lemma circuit_shot_count_is_not_read :
  let cfg := {| cfg_seed := Some 7; cfg_shots := Some 5 |} in
  let c := @example_circuit Empty_set
             [gate "h" [] [0%nat]; measure 0 0] (Some cfg) in
  exists st r,
    execute no_float_str reads_one_on_qubit_0 "qasm" 3 c (CppSim 11)
    = Ok st /\
    List.length (outcomes st) = 3%nat /\
    run_circuit no_float_str reads_one_on_qubit_0 "qasm" 11 3 c (CppSim 11)
    = Ok r /\
    res_shots (fst r) = 3 /\
    data_counts (res_data (fst r)) = [("01", 3)].
Proof.
  intros cfg c. eexists. eexists.
  split; [vm_compute; reflexivity | ].
  split; [reflexivity | ].
  split; [vm_compute; reflexivity | ].
  split; reflexivity.
Defined.

Lemma register_specs_of_contiguous_runs_witness :
  let runs := [("c", (0%nat, [1%nat])); ("d", (0%nat, []))] in
  NoDup (map fst runs) /\
  _get_register_specs (flat_map labels_of_run runs)
  = [("c", 2%nat); ("d", 1%nat)] /\
  Dict.of_list (_get_register_specs (flat_map labels_of_run runs))
  = [("c", 2%nat); ("d", 1%nat)].
Proof.
  intro runs.
  assert (Hnd : NoDup (map fst runs))
    by (repeat constructor; simpl; intuition discriminate).
  split; [exact Hnd | ].
  exact (proj1 register_specs_of_contiguous_runs runs Hnd).
Defined.



Lemma statevector_validate_rejects_and_forces_one_shot_witness :
  let c1 := @example_circuit Empty_set [gate "h" [] [0%nat]] None in
  let c2 := @example_circuit Empty_set [gate "t" [] [1%nat]]
              (Some {| cfg_seed := Some 5; cfg_shots := Some 7 |}) in
  let q := {| qobj_id := "job";
              qobj_config := Some {| cfg_seed := None;
                                     cfg_shots := Some 1000 |};
              experiments := [c1; c2] |} in
  let v := statevector_validate q in
  exists cfg,
    nth_error (experiments (v_qobj v)) 1 = Some (with_config c2 cfg) /\
    cfg_shots cfg = Some 1 /\
    (circ_config c2 = None ->
     cfg = {| cfg_seed := None; cfg_shots := Some 1 |}) /\
    (forall cfg0,
       circ_config c2 = Some cfg0 -> cfg_shots cfg0 <> Some 1 ->
       In (LoggerInfo
             (shots_message ++
              ("Setting shots=1 for circuit" ++ hdr_name (circ_header c2))
              ++ "."))
          (v_log v)).
Proof.
  intros c1 c2 q v.
  apply (proj1 (proj2 (proj2 (proj2
           (statevector_validate_rejects_and_forces_one_shot q))))
           [c1] c2 []).
  - reflexivity.
  - repeat constructor.
Defined.

Lemma statevector_job_publishes_final_states_witness :
  let bell := named "bell"
                (@example_circuit Empty_set
                   [gate "h" [] [0%nat]; gate "cx" [] [0%nat; 1%nat]] None) in
  let marked := named "marked"
                  (@example_circuit Empty_set
                     [gate "h" [] [0%nat]; gate "snapshot" [PInt 32767] [];
                      gate "t" [] [0%nat]] None) in
  let traced := named "traced"
                  (@example_circuit Empty_set
                     [gate "h" [] [0%nat]; gate "snapshot" [PStr "mid"] [];
                      gate "t" [] [0%nat]]
                     (Some {| cfg_seed := Some 5; cfg_shots := Some 7 |})) in
  let q := {| qobj_id := "job";
              qobj_config := Some {| cfg_seed := None;
                                     cfg_shots := Some 1000 |};
              experiments := [bell; marked; traced] |} in
  exists r res,
    statevector_run_job no_float_str reads_one_on_qubit_0
                        "statevector" 11 q = Ok r /\
    Dict.get "traced" (job_results r) = Some res /\
    publishes_final_state no_float_str reads_one_on_qubit_0
                          "statevector" traced res.
Proof.
  intros bell marked traced q.
  assert (Hjob : exists r,
             statevector_run_job no_float_str reads_one_on_qubit_0
                                 "statevector" 11 q = Ok r)
    by (eexists; vm_compute; reflexivity).
  destruct Hjob as [r Hjob].
  destruct (statevector_job_publishes_final_states no_float_str
              reads_one_on_qubit_0 "statevector" 11 q r
              [bell; marked] traced [])
    as [res [Hget Hpublished]].
  - exact Hjob.
  - reflexivity.
  - simpl. tauto.
  - repeat constructor.
  - exists r, res. split; [exact Hjob | split; assumption].
Defined.

(** C9.  The job of the statevector backend at a circuit with a snapshot
    of its own under the sentinel label: the entry of that label holds two
    vectors after the run, and the one published as the statevector is the
    first, captured in the middle of the circuit, not the state after its
    last instruction; both are taken out of the snapshot store. *)
Lemma sentinel_label_collision :
  let c := @example_circuit Empty_set
             [gate "h" [] [0%nat]; gate "snapshot" [PInt 32767] [];
              gate "t" [] [0%nat]] None in
  let q := {| qobj_id := "job";
              qobj_config := Some {| cfg_seed := Some 11;
                                     cfg_shots := Some 1 |};
              experiments := [c] |} in
  let middle := {| rnd_seed := 11;
                   calls := [KAllocate 0; KAllocate 1; KH 0; KFlush] |} in
  let final := {| rnd_seed := 11;
                  calls := [KAllocate 0; KAllocate 1; KH 0; KFlush;
                            KT 0; KFlush] |} in
  exists res0 k' res,
    run_circuit no_float_str reads_one_on_qubit_0 "statevector" 11 1
                (append_final_snapshot (forced c)) (CppSim 11)
    = Ok (res0, k') /\
    data_snapshots (res_data res0) = Some [("32767", [middle; final])] /\
    statevector_run_job no_float_str reads_one_on_qubit_0
                        "statevector" 0 q
    = Ok {| job_backend := "statevector"; job_qobj_id := "job";
            job_results := [("example", res)];
            job_status := "COMPLETED"; job_success := true |} /\
    data_statevector (res_data res) = Some middle /\
    data_snapshots (res_data res) = None /\
    middle <> final.
Proof.
  intros c q middle final. do 3 eexists.
  split; [vm_compute; reflexivity | ].
  split; [reflexivity | ].
  split; [vm_compute; reflexivity | ].
  split; [reflexivity | ].
  split; [reflexivity | discriminate].
Qed.

(** C2 as stated fails when the classical state has a bit set outside the
    mask: with mask 0b0110, state 0b1100 and expected value 0b10 the
    shifted state is 0b110, which is not the expected value, while the
    code compares the state within the mask, 0b0100, shifted to 0b10, and
    lets the instruction run. *)
Lemma conditional_compares_the_masked_state :
  evaluate_conditional_as_worded 12 6 2 = false /\
  evaluate_conditional 12 (Some {| cond_mask := 6; cond_val := 2 |}) = true /\
  evaluate_conditional 12 (Some {| cond_mask := 6; cond_val := 2 |})
  <> evaluate_conditional_as_worded 12 6 2.
Proof.
  split; [reflexivity | split; [reflexivity | discriminate]].
Defined.

(** C8 as stated fails for the circuits of a job that follow a rejected
    circuit: the validation raises at the first circuit with a measure or
    a reset and leaves the later circuits with the shot count they had. *)
Lemma rejected_job_keeps_later_shots :
  let c1 := @example_circuit Empty_set
              [gate "h" [] [0%nat]; measure 0 0] None in
  let c2 := @example_circuit Empty_set [gate "t" [] [1%nat]]
              (Some {| cfg_seed := None; cfg_shots := Some 1024 |}) in
  let q := {| qobj_id := "job";
              qobj_config := Some {| cfg_seed := None;
                                     cfg_shots := Some 1024 |};
              experiments := [c1; c2] |} in
  let v := statevector_validate q in
  v_raised v = Some (SimulatorError (unsupported_message "example")) /\
  nth_error (experiments (v_qobj v)) 1 = Some c2 /\
  circ_config c2 = Some {| cfg_seed := None; cfg_shots := Some 1024 |} /\
  ~ (forall c,
       In c (experiments (v_qobj v)) ->
       exists cfg, circ_config c = Some cfg /\ cfg_shots cfg = Some 1).
Proof.
  intros c1 c2 q v.
  split; [reflexivity | split; [reflexivity | split; [reflexivity | ]]].
  intro Hall.
  destruct (Hall c2 (or_intror (or_introl eq_refl))) as [cfg [Hcfg Hshots]].
  simpl in Hcfg. injection Hcfg as <-. discriminate Hshots.
Defined.

(** ** Instances of the further properties *)

Lemma step_errors_witness :
  let swap := @gate Empty_set "swap" [] [0%nat; 1%nat] in
  let c := example_circuit [swap] None in
  let qureg := fst (setup c (CppSim 7)) in
  let st := snd (setup c (CppSim 7)) in
  step no_float_str reads_one_on_qubit_0 "qasm" qureg st swap
  = Raise (SimulatorError (unrecognized_message "qasm" "swap")) /\
  evaluate_conditional (classical_state st) (op_conditional swap) = true /\
  ((unrecognized_message "qasm" "swap" = reset_message /\
    op_name swap = "reset") \/
   (unrecognized_message "qasm" "swap"
    = unrecognized_message "qasm" (op_name swap) /\
    name_in (op_name swap) recognized = false)).
Proof.
  intros swap c qureg st.
  pose proof (step_errors no_float_str reads_one_on_qubit_0 "qasm"
                qureg st swap) as [Hunknown Hraised].
  split.
  - apply Hunknown; reflexivity.
  - apply Hraised. vm_compute. reflexivity.
Defined.

Lemma shot_register_holds_last_measurements_witness :
  let c := @example_circuit Empty_set
             [gate "h" [] [0%nat]; measure 0 0; measure 1 0; measure 0 1]
             None in
  let qureg := fst (setup c (CppSim 1)) in
  let st := snd (setup c (CppSim 1)) in
  exists st',
    run_shot no_float_str reads_one_on_qubit_0 "qasm" c qureg st 0 = Ok st' /\
    0 <= classical_state st' /\
    forall clbit,
      Z.testbit (classical_state st') (Z.of_nat clbit) =
      last_measured clbit
        (measurements no_float_str reads_one_on_qubit_0 "qasm" qureg
           (shot_start qureg st 0) (circ_instructions c)).
Proof.
  intros c qureg st. eexists. split.
  - vm_compute. reflexivity.
  - apply (shot_register_holds_last_measurements no_float_str
             reads_one_on_qubit_0 "qasm" c qureg st _ 0%nat).
    vm_compute. reflexivity.
Defined.

Lemma conditional_outside_its_field_witness :
  (forall st,
     evaluate_conditional st
       (Some {| cond_mask := 0; cond_val := 3 |}) = true) /\
  (forall st,
     evaluate_conditional st
       (Some {| cond_mask := 6; cond_val := 4 |}) = false).
Proof.
  split.
  - apply (proj1 (conditional_outside_its_field 0 3)). lia.
  - destruct (proj2 (conditional_outside_its_field 6 4) ltac:(lia))
      as [k [Hk [Hset [Hlow Hskip]]]].
    assert (Hone : k = 1).
    { destruct (Z.eq_dec k 0) as [-> | Hnot0]; [discriminate Hset | ].
      destruct (Z.eq_dec k 1) as [-> | Hnot1]; [reflexivity | ].
      assert (Habove : 0 <= 1 < k) by lia.
      apply Hlow in Habove. discriminate Habove. }
    subst k. apply Hskip. right. exists 2.
    split; [lia | split; reflexivity].
Defined.

Lemma counts_add_up_to_shots_witness :
  let c := @example_circuit Empty_set
             [gate "h" [] [0%nat]; measure 0 0] None in
  exists st,
    execute no_float_str reads_one_on_qubit_0 "qasm" 3 c (CppSim 7)
    = Ok st /\
    let counts := Counter (outcomes st) in
    NoDup (Dict.keys counts) /\
    total counts = Z.max 0 3 /\
    forall o,
      Dict.get o counts =
      match count_occ string_dec (outcomes st) o with
      | O => None
      | n => Some (Z.of_nat n)
      end.
Proof.
  intro c. eexists. split.
  - vm_compute. reflexivity.
  - apply (counts_add_up_to_shots no_float_str reads_one_on_qubit_0
             "qasm" 3 c (CppSim 7)).
    vm_compute. reflexivity.
Defined.

Lemma outcome_string_of_a_shot_witness :
  let c := @example_circuit Empty_set
             [gate "h" [] [0%nat]; measure 0 1; measure 1 0] None in
  let qureg := fst (setup c (CppSim 1)) in
  let st := snd (setup c (CppSim 1)) in
  exists st' outcome,
    run_shot no_float_str reads_one_on_qubit_0 "qasm" c qureg st 0 = Ok st' /\
    outcomes st' = (outcomes st ++ [outcome])%list /\
    String.length outcome = 2%nat /\
    list_ascii_of_string outcome =
    rev (map (bit_char (classical_state st')) (seq 0 2)).
Proof.
  intros c qureg st.
  assert (Hrun : exists st',
             run_shot no_float_str reads_one_on_qubit_0 "qasm" c qureg st 0
             = Ok st')
    by (eexists; vm_compute; reflexivity).
  destruct Hrun as [st' Hrun].
  destruct (outcome_string_of_a_shot no_float_str reads_one_on_qubit_0
              "qasm" c qureg st st' 0%nat)
    as [outcome Hout].
  - simpl. lia.
  - repeat constructor.
  - exact Hrun.
  - exists st', outcome. split; [exact Hrun | exact Hout].
Defined.

Lemma unmeasured_circuit_reads_zeros_witness :
  let c := @example_circuit Empty_set
             [gate "h" [] [0%nat]; gate "cx" [] [0%nat; 1%nat]] None in
  let q := {| qobj_id := "job";
              qobj_config := Some {| cfg_seed := None;
                                     cfg_shots := Some 3 |};
              experiments := [c] |} in
  (v_raised (_validate q) = None /\
   In (LoggerWarning (no_measurement_message "example"))
      (v_log (_validate q))) /\
  exists st,
    execute no_float_str reads_one_on_qubit_0 "qasm" 3 c (CppSim 7)
    = Ok st /\
    classical_state st = 0 /\
    outcomes st = ["00"; "00"; "00"].
Proof.
  intros c q.
  destruct (unmeasured_circuit_reads_zeros no_float_str
              reads_one_on_qubit_0 c eq_refl) as [Hlog Hrun].
  split.
  - apply (Hlog q {| cfg_seed := None; cfg_shots := Some 3 |} 3).
    + reflexivity.
    + reflexivity.
    + now left.
  - eexists. split; [vm_compute; reflexivity | ].
    apply (Hrun "qasm" 3 (CppSim 7)). vm_compute. reflexivity.
Defined.

Lemma no_shot_no_failure_witness :
  let c := @example_circuit Empty_set
             [gate "reset" [] [0%nat]; gate "swap" [] [0%nat; 1%nat]]
             None in
  run_circuit no_float_str reads_one_on_qubit_0 "qasm" 7 0 c (CppSim 7)
  = Ok ({| res_name := "example";
           res_seed := 7;
           res_shots := 0;
           res_data := {| data_counts := [];
                          data_snapshots := None;
                          data_classical_state := None;
                          data_statevector := None |};
           res_status := "DONE";
           res_success := true |},
        sim (snd (setup c (CppSim 7)))).
Proof.
  intro c.
  apply (no_shot_no_failure no_float_str reads_one_on_qubit_0
           "qasm" 7 0 c (CppSim 7)).
  lia.
Defined.

Lemma circuit_seed_outlives_its_circuit_witness :
  let cfg1 := {| cfg_seed := Some 7; cfg_shots := None |} in
  let c1 := @example_circuit Empty_set
              [gate "h" [] [0%nat]; measure 0 0] (Some cfg1) in
  let c2 := @example_circuit Empty_set
              [gate "h" [] [1%nat]; measure 1 1] None in
  exists r1 r2 k1 st2,
    run_circuits no_float_str reads_one_on_qubit_0 "qasm" 11 2 [c1; c2]
                 (CppSim 11) = Ok [r1; r2] /\
    run_circuit no_float_str reads_one_on_qubit_0 "qasm" 11 2 c1 (CppSim 11)
    = Ok (r1, k1) /\
    execute no_float_str reads_one_on_qubit_0 "qasm" 2 c2 k1 = Ok st2 /\
    rnd_seed (sim st2) = 7 /\
    res_seed r1 = 11 /\ res_seed r2 = 11.
Proof.
  intros cfg1 c1 c2.
  assert (Hrun : exists r1 r2,
             run_circuits no_float_str reads_one_on_qubit_0 "qasm" 11 2
                          [c1; c2] (CppSim 11) = Ok [r1; r2])
    by (do 2 eexists; vm_compute; reflexivity).
  destruct Hrun as [r1 [r2 Hrun]].
  destruct (circuit_seed_outlives_its_circuit no_float_str
              reads_one_on_qubit_0 "qasm" 11 2 c1 c2 (CppSim 11)
              cfg1 7 r1 r2)
    as [k1 [st2 Hall]].
  - reflexivity.
  - reflexivity.
  - discriminate.
  - reflexivity.
  - exact Hrun.
  - exists r1, r2, k1, st2. split; [exact Hrun | exact Hall].
Defined.

Lemma job_results_follow_the_circuits_witness :
  let c1 := named "first"
              (@example_circuit Empty_set
                 [gate "h" [] [0%nat]; measure 0 0] None) in
  let c2 := named "second"
              (@example_circuit Empty_set
                 [gate "h" [] [1%nat]; measure 1 1] None) in
  let bare := {| qobj_id := "bare"; qobj_config := None;
                 experiments := [c1] |} in
  let cfg := {| cfg_seed := None; cfg_shots := Some 2 |} in
  let q := {| qobj_id := "job"; qobj_config := Some cfg;
              experiments := [c1; c2] |} in
  snd (_run_job no_float_str reads_one_on_qubit_0 "qasm" _validate 11 bare)
  = Raise AttributeError /\
  exists r,
    snd (_run_job no_float_str reads_one_on_qubit_0 "qasm" _validate 11 q)
    = Ok r /\
    Dict.keys (job_results r) = ["first"; "second"] /\
    exists res k k',
      Dict.get "second" (job_results r) = Some res /\
      run_circuit no_float_str reads_one_on_qubit_0 "qasm" 11 2 c2 k
      = Ok (res, k') /\
      res_name res = "second" /\
      res_seed res = 11 /\ res_shots res = 2 /\
      res_status res = "DONE" /\ res_success res = true.
Proof.
  intros c1 c2 bare cfg q. split.
  - apply (proj1 (job_results_follow_the_circuits no_float_str
                    reads_one_on_qubit_0 "qasm" 11 bare)).
    left. reflexivity.
  - assert (Hrun : exists r,
               snd (_run_job no_float_str reads_one_on_qubit_0 "qasm"
                             _validate 11 q) = Ok r)
      by (eexists; vm_compute; reflexivity).
    destruct Hrun as [r Hrun].
    destruct (proj2 (job_results_follow_the_circuits no_float_str
                       reads_one_on_qubit_0 "qasm" 11 q) r Hrun)
      as [cfg' [shots [Hcfg [Hshots [_ [_ Hresults]]]]]].
    simpl in Hcfg. injection Hcfg as <-.
    simpl in Hshots. injection Hshots as <-.
    cbv zeta in Hresults. destruct Hresults as [_ [Hdistinct Hlast]].
    exists r. split; [exact Hrun | split].
    + apply Hdistinct.
      repeat constructor; simpl; intuition discriminate.
    + apply (Hlast [c1] c2 []); [reflexivity | simpl; tauto].
Defined.

Lemma quantum_register_of_the_labels_witness :
  let short := {| hdr_name := "short";
                  number_of_qubits := 3;
                  number_of_clbits := 2;
                  qubit_labels := [("q", 0%nat); ("q", 1%nat)];
                  clbit_labels := [("c", 2%nat)] |} in
  let c := {| circ_header := short;
              circ_instructions := [@gate Empty_set "h" [] [0%nat]];
              circ_config := None |} in
  fst (setup c (CppSim 7)) = [0%nat; 1%nat] /\
  sim (snd (setup c (CppSim 7)))
  = {| rnd_seed := 7; calls := [KAllocate 0; KAllocate 1] |} /\
  forall st,
    execute no_float_str reads_one_on_qubit_0 "qasm" 1 c (CppSim 7)
    <> Ok st.
Proof.
  intros short c.
  pose proof (quantum_register_of_the_labels no_float_str
                reads_one_on_qubit_0 c (CppSim 7)) as H.
  cbv zeta in H. destruct H as [Hqureg [Hsim Hfail]].
  split; [exact Hqureg | split; [exact Hsim | ]].
  intro st. apply Hfail.
  - simpl. lia.
  - lia.
Defined.

Lemma register_specs_cover_the_labels_witness :
  let labels := [("c", 0%nat); ("c", 1%nat); ("d", 0%nat); ("c", 0%nat)] in
  (exists size,
     In ("c", size) (_get_register_specs labels) /\ (1 < size)%nat) /\
  (exists ind, In ("d", ind) labels /\ 1%nat = S ind) /\
  Dict.get "c" (Dict.of_list (_get_register_specs labels)) = Some 1%nat.
Proof.
  intro labels.
  pose proof (register_specs_cover_the_labels labels) as H.
  cbv zeta in H. destruct H as [Hcover [Hsize Hlast]].
  split; [ | split].
  - apply Hcover. right. now left.
  - apply Hsize. right. now left.
  - apply (Hlast [("c", 2%nat); ("d", 1%nat)] "c" 1%nat []).
    + reflexivity.
    + simpl. tauto.
Defined.

Lemma classical_registers_are_cumulative_witness :
  let labels := [("c", 2%nat); ("d", 3%nat); ("e", 1%nat)] in
  [2%nat; 3%nat; 1%nat] = map snd labels /\
  List.length [0%nat; 2%nat; 5%nat] = List.length labels /\
  forall j,
    (j < List.length labels)%nat ->
    nth_error [0%nat; 2%nat; 5%nat] j
    = Some (0 + list_sum (firstn j (map snd labels)))%nat.
Proof.
  intro labels.
  apply (classical_registers_are_cumulative labels 0%nat).
  reflexivity.
Defined.

Lemma single_register_keeps_the_histogram_witness :
  let counts := [("01", 3); ("10", 1)] in
  @classical_registers [("c", 2%nat)] 0 = ([0%nat], [2%nat]) /\
  _format_result counts [0%nat] [2%nat] = Ok counts.
Proof.
  intro counts.
  apply (single_register_keeps_the_histogram 2 counts).
  - lia.
  - repeat constructor; simpl; intuition discriminate.
  - repeat constructor.
Defined.

Lemma statevector_validate_twice_witness :
  let c1 := @example_circuit Empty_set [gate "h" [] [0%nat]] None in
  let c2 := @example_circuit Empty_set [gate "t" [] [1%nat]]
              (Some {| cfg_seed := Some 5; cfg_shots := Some 7 |}) in
  let q := {| qobj_id := "job";
              qobj_config := Some {| cfg_seed := None;
                                     cfg_shots := Some 1000 |};
              experiments := [c1; c2] |} in
  let v := statevector_validate q in
  let q1 := {| qobj_id := qobj_id (v_qobj v);
               qobj_config := qobj_config (v_qobj v);
               experiments :=
                 map append_final_snapshot (experiments (v_qobj v)) |} in
  statevector_validate q1
  = {| v_qobj := q1; v_log := []; v_raised := None |}.
Proof.
  intros c1 c2 q v q1.
  apply (proj2 (statevector_validate_twice q)).
  reflexivity.
Defined.

Lemma snapshot_store_counts_witness :
  let c := @example_circuit Empty_set
             [gate "h" [] [0%nat]; gate "snapshot" [PStr "mid"] [];
              gate "t" [] [0%nat]; gate "snapshot" [PStr "mid"] [];
              gate "snapshot" [PStr "end"] []] None in
  exists st,
    execute no_float_str reads_one_on_qubit_0 "qasm" 3 c (CppSim 7)
    = Ok st /\
    snapshot_count "mid" (snapshots st) = 6%nat /\
    Dict.get "start" (snapshots st) = None.
Proof.
  intro c.
  assert (Hrun : exists st,
             execute no_float_str reads_one_on_qubit_0 "qasm" 3 c (CppSim 7)
             = Ok st)
    by (eexists; vm_compute; reflexivity).
  destruct Hrun as [st Hrun].
  assert (Hcond : Forall (fun operation => op_conditional operation = None)
                         (circ_instructions c))
    by repeat constructor.
  exists st. split; [exact Hrun | split].
  - exact (proj1 (snapshot_store_counts no_float_str reads_one_on_qubit_0
                    "qasm" 3 c (CppSim 7) st "mid" Hcond Hrun)).
  - apply (proj2 (snapshot_store_counts no_float_str reads_one_on_qubit_0
                    "qasm" 3 c (CppSim 7) st "start" Hcond Hrun)).
    reflexivity.
Defined.

Lemma statevector_job_results_witness :
  let bell := named "bell"
                (@example_circuit Empty_set
                   [gate "h" [] [0%nat]; gate "cx" [] [0%nat; 1%nat]] None) in
  let traced := named "traced"
                  (@example_circuit Empty_set
                     [gate "h" [] [0%nat]; gate "snapshot" [PStr "mid"] [];
                      gate "t" [] [0%nat]]
                     (Some {| cfg_seed := Some 5; cfg_shots := Some 7 |})) in
  let q := {| qobj_id := "job";
              qobj_config := Some {| cfg_seed := None;
                                     cfg_shots := Some 1000 |};
              experiments := [bell; traced] |} in
  exists r res,
    statevector_run_job no_float_str reads_one_on_qubit_0
                        "statevector" 11 q = Ok r /\
    job_status r = "COMPLETED" /\
    Dict.keys (job_results r) = ["bell"; "traced"] /\
    Dict.get "traced" (job_results r) = Some res /\
    res_name res = "traced" /\
    res_shots res = 1 /\
    res_status res = "DONE" /\
    data_classical_state (res_data res) = Some 0 /\
    (exists outcome, data_counts (res_data res) = [(outcome, 1)]) /\
    exists v, data_statevector (res_data res) = Some v.
Proof.
  intros bell traced q. do 2 eexists.
  split; [vm_compute; reflexivity | ].
  match goal with
  | |- job_status ?r = _ /\ _ =>
      pose proof (statevector_job_results no_float_str reads_one_on_qubit_0
                    "statevector" 11 q r ltac:(vm_compute; reflexivity))
        as [Hstatus [_ [Hdistinct Hshape]]]
  end.
  split; [exact Hstatus | split].
  - apply Hdistinct.
    repeat constructor; simpl; intuition discriminate.
  - split; [vm_compute; reflexivity | ].
    apply Hshape. vm_compute. reflexivity.
Defined.

Lemma statevector_extraction_never_fails_witness :
  let c := @example_circuit Empty_set
             [gate "h" [] [0%nat]; gate "swap" [] [0%nat; 1%nat]] None in
  let q := {| qobj_id := "job";
              qobj_config := Some {| cfg_seed := Some 11;
                                     cfg_shots := Some 1 |};
              experiments := [c] |} in
  let e := SimulatorError (unrecognized_message "statevector" "swap") in
  statevector_run_job no_float_str reads_one_on_qubit_0
                      "statevector" 0 q = Raise e /\
  (v_raised (statevector_validate q) = Some e \/
   (v_raised (statevector_validate q) = None /\
    exists _seed,
      run_circuits no_float_str reads_one_on_qubit_0 "statevector" _seed 1
                   (map append_final_snapshot (map forced (experiments q)))
                   (CppSim _seed)
      = Raise e)).
Proof.
  intros c q e.
  assert (Hjob : statevector_run_job no_float_str reads_one_on_qubit_0
                   "statevector" 0 q = Raise e)
    by (vm_compute; reflexivity).
  split; [exact Hjob | ].
  apply (statevector_extraction_never_fails no_float_str
           reads_one_on_qubit_0 "statevector" 0 q e Hjob).
Defined.
